(** * RematerializeParallelOps: a shallow embedding and its properties

    Source: compiler/src/iree/compiler/Preprocessing/Common/RematerializeParallelOps.cpp

    The file embeds
      - [isScalarOrTensorOfSizeOne],
      - [RematerializeParallelOpsPattern::matchAndRewrite],
      - [RematerializeParallelOpsPass::runOnOperation] and
        [createRematerializeParallelOpsPass],
    over a small model of the MLIR operation graph: operations with an
    identity, operands, result types and attributes, in program order.

    The rewriter is a state monad over the IR that also keeps a log of the
    calls a pattern makes, so that "no fusion was attempted" and "exactly one
    replacement" can be stated.  The MLIR entry points the source calls but
    does not define (the linalg legality check and fusion, the greedy driver,
    the erase-unused-operands patterns) are the methods of two classes; the
    properties are proved for every instance, some under the contract the
    pattern relies on.  [SpecModel] gives instances after the specification,
    on which the properties are exercised.

    Layout: definitions, then the vocabulary of the properties, then lemmas
    and the properties themselves.  The last part gives the rule set a
    measure and follows the modelled driver to its fixed point. *)

From Stdlib Require Import ZArith String List Bool Arith Lia.
Import ListNotations.
Open Scope string_scope.
Open Scope nat_scope.
Open Scope list_scope.

Set Implicit Arguments.

(* ================================================================= *)
(** ** Types *)

(** [ShapedType::kDynamic], the marker of a dynamic dimension (INT64_MIN). *)
Definition kDynamic : Z := (-9223372036854775808)%Z.

(** The builtin types the source distinguishes.  Widths and element types are
    carried along but never inspected by the source. *)
Inductive Ty : Type :=
| IntegerType (width : nat)
| IndexType
| FloatType (width : nat)
| RankedTensorType (shape : list Z) (elementType : Ty)
| UnrankedTensorType (elementType : Ty)
| VectorType (shape : list Z) (elementType : Ty)
| MemRefType (shape : list Z) (elementType : Ty)
| OpaqueType (name : string).

(** [Type::isIntOrIndexOrFloat]. *)
Definition isIntOrIndexOrFloat (t : Ty) : bool :=
  match t with
  | IntegerType _ | IndexType | FloatType _ => true
  | _ => false
  end.

(** [ShapedType::isDynamic] and [ShapedType::hasStaticShape]. *)
Definition isDynamic (d : Z) : bool := (d =? kDynamic)%Z.

Definition hasStaticShape (shape : list Z) : bool :=
  forallb (fun d => negb (isDynamic d)) shape.

(** What an [int64_t] keeps of a number: its value modulo [2^64], between
    [-2^63] and [2^63 - 1]. *)
Definition int64 (z : Z) : Z := ((z + 2 ^ 63) mod 2 ^ 64 - 2 ^ 63)%Z.

(** [ShapedType::getNumElements]: the running product of the extents, kept in
    an [int64_t]; after each multiplication it asserts that the product is not
    negative ("integer overflow in element count computation").  [None] is
    the failed assertion. *)
Fixpoint numElementsFrom (num : Z) (shape : list Z) : option Z :=
  match shape with
  | [] => Some num
  | dim :: rest =>
      let num' := int64 (num * dim) in
      if (num' <? 0)%Z then None else numElementsFrom num' rest
  end.

Definition getNumElements (shape : list Z) : option Z :=
  numElementsFrom 1%Z shape.

(** Source lines 24-29.  The element count is asked for only when the shape is
    static; [None] is the failed assertion of [getNumElements]. *)
Definition isScalarOrTensorOfSizeOne (t : Ty) : option bool :=
  match t with
  | RankedTensorType shape _ =>
      if hasStaticShape shape then
        match getNumElements shape with
        | Some n => Some (n =? 1)%Z
        | None => None
        end
      else Some false
  | _ => Some (isIntOrIndexOrFloat t)
  end.

(* ================================================================= *)
(** ** Operations, values and attributes *)

(** An [Operation*]: the identity of an operation. *)
Definition OpId := nat.

(** Attributes are opaque to the source; a null [Attribute] is [None] where
    an attribute is looked up. *)
Inductive Attribute : Type :=
| UnitAttr
| IntegerAttr (value : Z)
| StringAttr (value : string).

(** The identity of an SSA value: a result of an operation or an argument of
    the function's entry block. *)
Inductive ValueImpl : Type :=
| OpResult (owner : OpId) (resultNumber : nat)
| BlockArgument (argNumber : nat).

Record Value : Type := mkValue { impl : ValueImpl; getType : Ty }.

Inductive IteratorType : Type := parallel | reduction.

Record Operation : Type := mkOperation {
  opId : OpId;
  opName : string;
  operands : list Value;
  resultTypes : list Ty;
  attrs : list (string * Attribute);
  iteratorTypes : list IteratorType
}.

(** The body of a function, in program order. *)
Definition IR := list Operation.

(** An [OpOperand]: a use-edge (owner, operand number). *)
Record OpOperand : Type := mkOpOperand { owner : OpId; operandNumber : nat }.

Definition valueImpl_eqb (a b : ValueImpl) : bool :=
  match a, b with
  | OpResult o i, OpResult o' i' => (o =? o') && (i =? i')
  | BlockArgument n, BlockArgument n' => n =? n'
  | _, _ => false
  end.

Definition getOp (ir : IR) (op : OpId) : option Operation :=
  find (fun o => opId o =? op) ir.

(** [Operation::getResults] of an operation record: result [n] of the
    operation, with its type. *)
Fixpoint resultsFrom (op : OpId) (n : nat) (types : list Ty) : list Value :=
  match types with
  | [] => []
  | t :: rest => mkValue (OpResult op n) t :: resultsFrom op (S n) rest
  end.

Definition resultsOf (o : Operation) : list Value :=
  resultsFrom (opId o) 0 (resultTypes o).

(** Accessors through a handle; a handle the driver passes is always live. *)
Definition getOperands (ir : IR) (op : OpId) : list Value :=
  match getOp ir op with Some o => operands o | None => [] end.

Definition getResults (ir : IR) (op : OpId) : list Value :=
  match getOp ir op with Some o => resultsOf o | None => [] end.

Definition getNumResults (ir : IR) (op : OpId) : nat :=
  length (getResults ir op).

(** [Operation::getOpOperands]: the use-edges of an operation, by ascending
    operand number. *)
Definition getOpOperands (ir : IR) (op : OpId) : list OpOperand :=
  map (mkOpOperand op) (seq 0 (length (getOperands ir op))).

Fixpoint lookupAttr (name : string) (l : list (string * Attribute))
  : option Attribute :=
  match l with
  | [] => None
  | (k, v) :: l' => if String.eqb k name then Some v else lookupAttr name l'
  end.

(** [Operation::getAttr]: null ([None]) when the attribute is absent. *)
Definition getAttr (ir : IR) (op : OpId) (name : string) : option Attribute :=
  match getOp ir op with
  | Some o => lookupAttr name (attrs o)
  | None => None
  end.

Fixpoint updateAttr (name : string) (a : Attribute)
         (l : list (string * Attribute)) : list (string * Attribute) :=
  match l with
  | [] => [(name, a)]
  | (k, v) :: l' =>
      if String.eqb k name then (k, a) :: l' else (k, v) :: updateAttr name a l'
  end.

Definition withAttrs (o : Operation) (l : list (string * Attribute)) :=
  mkOperation (opId o) (opName o) (operands o) (resultTypes o) l
              (iteratorTypes o).

Definition withOperands (o : Operation) (l : list Value) :=
  mkOperation (opId o) (opName o) l (resultTypes o) (attrs o)
              (iteratorTypes o).

(** [Operation::setAttr]: change the attribute when it exists, add it
    otherwise. *)
Definition setAttr (ir : IR) (op : OpId) (name : string) (a : Attribute) : IR :=
  map (fun o => if opId o =? op
                then withAttrs o (updateAttr name a (attrs o)) else o) ir.

(** [Value::replaceAllUsesWith]. *)
Definition replaceAllUsesWith (old new : Value) (ir : IR) : IR :=
  map (fun o =>
         withOperands o
           (map (fun v => if valueImpl_eqb (impl v) (impl old) then new else v)
                (operands o)))
      ir.

Definition eraseOp (op : OpId) (ir : IR) : IR :=
  filter (fun o => negb (opId o =? op)) ir.

(** [ArrayRef::take_back]: the last [n] elements, all of them when there are
    no more than [n]. *)
Definition take_back {A : Type} (n : nat) (l : list A) : list A :=
  if length l <=? n then l else skipn (length l - n) l.

(** The use-edges of a value: every (operation, operand number) reading it. *)
Fixpoint positions (v : ValueImpl) (n : nat) (l : list Value) : list nat :=
  match l with
  | [] => []
  | x :: rest =>
      if valueImpl_eqb (impl x) v then n :: positions v (S n) rest
      else positions v (S n) rest
  end.

Definition usesIn (o : Operation) (v : ValueImpl) : list OpOperand :=
  map (mkOpOperand (opId o)) (positions v 0 (operands o)).

Definition uses (ir : IR) (v : ValueImpl) : list OpOperand :=
  flat_map (fun o => usesIn o v) ir.

(* ================================================================= *)
(** ** The pattern rewriter *)

Inductive LogicalResult : Type := success | failure.

Definition succeeded (r : LogicalResult) : bool :=
  match r with success => true | failure => false end.

Definition failed (r : LogicalResult) : bool := negb (succeeded r).

(** What a pattern asks of, or does to, the IR, in the order it happens. *)
Inductive Event : Type :=
| QueryFusable (opOperand : OpOperand) (answer : bool)
| FuseAttempt (opOperand : OpOperand) (ok : bool)
| SetAttr (op : OpId) (name : string) (a : Attribute)
| ReplaceOp (op : OpId) (newValues : list Value).

(** The two read-only events; the others change the IR. *)
Definition isMutation (e : Event) : bool :=
  match e with
  | QueryFusable _ _ => false
  | FuseAttempt _ ok => ok
  | SetAttr _ _ _ | ReplaceOp _ _ => true
  end.

Definition isReplaceOp (e : Event) : bool :=
  match e with ReplaceOp _ _ => true | _ => false end.

Definition isFuseAttempt (e : Event) : bool :=
  match e with FuseAttempt _ _ => true | _ => false end.

Record RewriterState : Type := mkState { ir : IR; log : list Event }.

(** A run either returns, or stops on a failed assertion of the rewriter. *)
Inductive Outcome (A : Type) : Type :=
| Done (a : A) (s : RewriterState)
| Aborted (msg : string).

Arguments Aborted {A} msg.

Definition Rewriter (A : Type) : Type := RewriterState -> Outcome A.

Definition ret {A : Type} (a : A) : Rewriter A := fun s => Done a s.

Definition bind {A B : Type} (m : Rewriter A) (k : A -> Rewriter B)
  : Rewriter B :=
  fun s => match m s with
           | Done a s' => k a s'
           | Aborted msg => Aborted msg
           end.

Notation "x <- m ;; k" := (bind m (fun x => k))
  (at level 61, m at next level, right associativity).
Notation "m ;;; k" := (bind m (fun _ => k))
  (at level 61, right associativity).

(** Read something off the current IR. *)
Definition gets {A : Type} (f : IR -> A) : Rewriter A :=
  fun s => Done (f (ir s)) s.

Definition emit (ir' : IR) (e : Event) : Rewriter unit :=
  fun s => Done tt (mkState ir' (log s ++ [e])).

Definition setAttrM (op : OpId) (name : string) (a : Attribute)
  : Rewriter unit :=
  fun s => emit (setAttr (ir s) op name a) (SetAttr op name a) s.

(** The uses of each result are redirected in turn, then the operation is
    erased. *)
Definition replaceResults (old new : list Value) (i : IR) : IR :=
  fold_left (fun acc p => replaceAllUsesWith (fst p) (snd p) acc)
            (combine old new) i.

(** [RewriterBase::replaceOp], which asserts that it is given one value per
    result. *)
Definition replaceOp (op : OpId) (newValues : list Value) : Rewriter unit :=
  fun s =>
    if getNumResults (ir s) op =? length newValues
    then emit (eraseOp op (replaceResults (getResults (ir s) op) newValues
                                          (ir s)))
              (ReplaceOp op newValues) s
    else Aborted "incorrect # of replacement values".

(* ================================================================= *)
(** ** The linalg entry points the pattern calls *)

(** [linalg::ElementwiseOpFusionResult]. *)
Record ElementwiseOpFusionResult : Type := mkFusionResult {
  fusedOp : OpId;
  replacements : list (ValueImpl * Value)
}.

(** [linalg::areElementwiseOpsFusable] and [linalg::fuseElementwiseOps] are
    MLIR's; the pattern is written against their signatures.  The second takes
    the rewriter by reference and returns a [FailureOr]. *)
Class LinalgTransforms : Type := {
  areElementwiseOpsFusable : IR -> OpOperand -> bool;
  fuseElementwiseOps : IR -> OpOperand -> IR * option ElementwiseOpFusionResult
}.

(** Every use-edge of the function, and those the legality check accepts. *)
Definition allOpOperands (i : IR) : list OpOperand :=
  flat_map (fun o => map (mkOpOperand (opId o))
                         (seq 0 (length (operands o)))) i.

Definition fusableEdges {linalg : LinalgTransforms} (i : IR)
  : list OpOperand :=
  filter (areElementwiseOpsFusable i) (allOpOperands i).

Section Pattern.

Context {linalg : LinalgTransforms}.

Definition queryFusable (opOperand : OpOperand) : Rewriter bool :=
  fun s =>
    let b := areElementwiseOpsFusable (ir s) opOperand in
    Done b (mkState (ir s) (log s ++ [QueryFusable opOperand b])).

Definition fuse (opOperand : OpOperand)
  : Rewriter (option ElementwiseOpFusionResult) :=
  fun s =>
    let (ir', r) := fuseElementwiseOps (ir s) opOperand in
    Done r (mkState ir' (log s ++ [FuseAttempt opOperand
                                     (match r with Some _ => true
                                              | None => false end)])).

(** Source lines 40-42. *)
Definition isScalarValue (v : Value) : option bool :=
  isScalarOrTensorOfSizeOne (getType v).

(** [llvm::all_of]: the elements are tested in order, up to the first one the
    predicate refuses. *)
Fixpoint all_of {A : Type} (p : A -> option bool) (l : list A)
  : option bool :=
  match l with
  | [] => Some true
  | x :: rest =>
      match p x with
      | Some true => all_of p rest
      | Some false => Some false
      | None => None
      end
  end.

(** Source lines 43-44: the guard.  The results are looked at only when every
    operand passed. *)
Definition allScalar (i : IR) (genericOp : OpId) : option bool :=
  match all_of isScalarValue (getOperands i genericOp) with
  | Some true => all_of isScalarValue (getResults i genericOp)
  | other => other
  end.

(** Source lines 56-62: what follows a fusion that succeeded. *)
Definition finishFusion (genericOp : OpId)
           (fusionResult : ElementwiseOpFusionResult)
  : Rewriter LogicalResult :=
  attr <- gets (fun i => getAttr i genericOp "lowering_config") ;;
  match attr with
  | Some a => setAttrM (fusedOp fusionResult) "lowering_config" a
  | None => ret tt
  end ;;;
  newValues <- gets (fun i => take_back (getNumResults i genericOp)
                                        (getResults i (fusedOp fusionResult))) ;;
  replaceOp genericOp newValues ;;;
  ret success.

(** Source lines 49-65: the loop over the operand edges. *)
Fixpoint fuseFirstOperand (genericOp : OpId) (opOperands : list OpOperand)
  : Rewriter LogicalResult :=
  match opOperands with
  | [] => ret failure
  | opOperand :: rest =>
      fusable <- queryFusable opOperand ;;
      if negb fusable then fuseFirstOperand genericOp rest
      else
        fusionResult <- fuse opOperand ;;
        match fusionResult with
        | Some r => finishFusion genericOp r
        | None => fuseFirstOperand genericOp rest
        end
  end.

(** Source lines 37-66. *)
Definition matchAndRewrite (genericOp : OpId) : Rewriter LogicalResult :=
  fun s =>
    match allScalar (ir s) genericOp with
    | None => Aborted "integer overflow in element count computation"
    | Some true => ret failure s
    | Some false =>
        fuseFirstOperand genericOp (getOpOperands (ir s) genericOp) s
    end.

(** A rewrite pattern: the kind of operation it is rooted at, and its
    [matchAndRewrite]. *)
Record RewritePattern : Type := mkPattern {
  rootName : string;
  rewrite : OpId -> Rewriter LogicalResult
}.

(** Source lines 33-35: an [OpRewritePattern<linalg::GenericOp>]. *)
Definition RematerializeParallelOpsPattern : RewritePattern :=
  mkPattern "linalg.generic" matchAndRewrite.

End Pattern.

(* ================================================================= *)
(** ** The pass *)

Record FuncOp : Type := mkFuncOp { sym_name : string; body : IR }.

(** The greedy driver and the erase-unused-operands-and-results patterns are
    MLIR's as well. *)
Class GreedyRewrite : Type := {
  applyPatternsAndFoldGreedily :
    FuncOp -> list RewritePattern -> LogicalResult * FuncOp;
  populateEraseUnusedOperandsAndResultsPatterns :
    list RewritePattern -> list RewritePattern
}.

(** What a run of the pass leaves behind: the function, and whether
    [signalPassFailure] was called. *)
Record PassResult : Type := mkPassResult {
  funcAfter : FuncOp;
  passFailed : bool
}.

Section Pass.

Context {linalg : LinalgTransforms} {greedy : GreedyRewrite}.

(** Source lines 74-86; a null [std::function] is [None]. *)
Definition runOnOperation (controlFn : option (FuncOp -> bool))
           (funcOp : FuncOp) : PassResult :=
  if match controlFn with
     | Some f => negb (f funcOp)
     | None => false
     end
  then mkPassResult funcOp false
  else
    let fusionPatterns := [RematerializeParallelOpsPattern] in
    let fusionPatterns :=
      populateEraseUnusedOperandsAndResultsPatterns fusionPatterns in
    let (r, funcOp') := applyPatternsAndFoldGreedily funcOp fusionPatterns in
    if failed r then mkPassResult funcOp' true
    else mkPassResult funcOp' false.

(** Source lines 94-97. *)
Definition createRematerializeParallelOpsPass
           (controlFn : option (FuncOp -> bool)) : FuncOp -> PassResult :=
  runOnOperation controlFn.

End Pass.

(* ================================================================= *)
(** ** An instance of the MLIR entry points *)

Module SpecModel.

Definition isGeneric (o : Operation) : bool :=
  String.eqb (opName o) "linalg.generic".

Definition allParallel (o : Operation) : bool :=
  forallb (fun k => match k with parallel => true | reduction => false end)
          (iteratorTypes o).

Definition getDefiningOp (i : IR) (v : Value) : option Operation :=
  match impl v with
  | OpResult p _ => getOp i p
  | BlockArgument _ => None
  end.

(** Modelled from the spec: [linalg::areElementwiseOpsFusable] is not part of
    the source.  After section 4.2: the edge reads the result of a producer
    that is itself a parallel operation, producer and consumer iterate over
    index spaces of the same rank, and the producer is not the consumer. *)
Definition specFusable (i : IR) (e : OpOperand) : bool :=
  match getOp i (owner e) with
  | None => false
  | Some consumer =>
      match nth_error (operands consumer) (operandNumber e) with
      | None => false
      | Some v =>
          match getDefiningOp i v with
          | None => false
          | Some producer =>
              isGeneric consumer && isGeneric producer
              && allParallel producer
              && (length (iteratorTypes producer)
                  =? length (iteratorTypes consumer))
              && negb (opId producer =? opId consumer)
          end
      end
  end.

Definition freshId (i : IR) : OpId :=
  S (fold_right Nat.max 0 (map opId i)).

(** The results of the producer that are read by somebody else than the
    consumer; the fused operation recomputes them in front of the consumer's
    own results. *)
Definition preservedResults (i : IR) (producer consumer : Operation)
  : list Ty :=
  map snd
      (filter (fun p => existsb (fun u => negb (owner u =? opId consumer))
                                (uses i (OpResult (opId producer) (fst p))))
              (combine (seq 0 (length (resultTypes producer)))
                       (resultTypes producer))).

Fixpoint insertBefore (op : OpId) (new : Operation) (i : IR) : IR :=
  match i with
  | [] => [new]
  | o :: rest =>
      if opId o =? op then new :: o :: rest
      else o :: insertBefore op new rest
  end.

(** Modelled from the spec: [linalg::fuseElementwiseOps] is not part of the
    source.  After section 4.3, steps 3 and 5: one new operation is built in
    front of the consumer; it reads the producer's operands in place of the
    fused operand, iterates over the consumer's space, carries no attribute
    of its own (it is freshly constructed), and its trailing results are the
    consumer's.  Nothing that exists is changed; a failure changes nothing. *)
Definition specFuse (i : IR) (e : OpOperand)
  : IR * option ElementwiseOpFusionResult :=
  if specFusable i e then
    match getOp i (owner e) with
    | None => (i, None)
    | Some consumer =>
        match nth_error (operands consumer) (operandNumber e) with
        | None => (i, None)
        | Some v =>
            match getDefiningOp i v with
            | None => (i, None)
            | Some producer =>
                let kept := preservedResults i producer consumer in
                let fused :=
                  mkOperation (freshId i) "linalg.generic"
                    (firstn (operandNumber e) (operands consumer)
                     ++ operands producer
                     ++ skipn (S (operandNumber e)) (operands consumer))
                    (kept ++ resultTypes consumer)
                    []
                    (iteratorTypes consumer) in
                (insertBefore (opId consumer) fused i,
                 Some (mkFusionResult (freshId i)
                         (combine (map impl (resultsOf consumer))
                                  (skipn (length kept) (resultsOf fused)))))
            end
        end
    end
  else (i, None).

Definition specLinalg : LinalgTransforms :=
  {| areElementwiseOpsFusable := specFusable;
     fuseElementwiseOps := specFuse |}.

(** An oracle that answers as [specFusable] does but whose fusion gives up on
    the edges of operand number 0, as [fuseElementwiseOps] may on an edge it
    was told is fusable. *)
Definition reluctantLinalg : LinalgTransforms :=
  {| areElementwiseOpsFusable := specFusable;
     fuseElementwiseOps :=
       fun i e => if operandNumber e =? 0 then (i, None) else specFuse i e |}.

(** An oracle that never lets the rules come to rest: it accepts every edge
    and its fusion rebuilds the consumer under a new identity. *)
Definition restlessLinalg : LinalgTransforms :=
  {| areElementwiseOpsFusable := fun _ _ => true;
     fuseElementwiseOps :=
       fun i e =>
         match getOp i (owner e) with
         | Some consumer =>
             (insertBefore (opId consumer)
                (mkOperation (freshId i) (opName consumer) (operands consumer)
                             (resultTypes consumer) [] (iteratorTypes consumer))
                i,
              Some (mkFusionResult (freshId i) []))
         | None => (i, None)
         end |}.

(** Modelled from the spec: the pruning rule that accompanies the fusion rule
    is not part of the source.  After section 8 (dead-producer elimination):
    a parallel operation none of whose results is read is removed. *)
Definition eraseUnused : RewritePattern :=
  mkPattern "linalg.generic"
    (fun op s =>
       match getOp (ir s) op with
       | Some o =>
           if forallb (fun v => match uses (ir s) (impl v) with
                                | [] => true | _ => false end)
                      (resultsOf o)
           then Done success (mkState (eraseOp op (ir s)) (log s))
           else Done failure s
       | None => Done failure s
       end).

(** The first pattern rooted at the kind of [o] that applies to it, if
    any. *)
Fixpoint applyFirst (patterns : list RewritePattern) (o : Operation)
         (s : RewriterState) : Outcome LogicalResult :=
  match patterns with
  | [] => Done failure s
  | p :: rest =>
      if String.eqb (opName o) (rootName p) then
        match rewrite p (opId o) s with
        | Done success s' => Done success s'
        | Done failure s' => applyFirst rest o s'
        | Aborted msg => Aborted msg
        end
      else applyFirst rest o s
  end.

(** One pass over a worklist of candidates; the flag tells whether a rewrite
    was applied.  A candidate that is gone by the time its turn comes is
    passed over. *)
Fixpoint sweep (patterns : list RewritePattern) (worklist : list OpId)
         (changed : bool) (s : RewriterState) : Outcome bool :=
  match worklist with
  | [] => Done changed s
  | op :: rest =>
      match getOp (ir s) op with
      | None => sweep patterns rest changed s
      | Some o =>
          match applyFirst patterns o s with
          | Done r s' => sweep patterns rest (changed || succeeded r) s'
          | Aborted msg => Aborted msg
          end
      end
  end.

(** Modelled from the spec: [applyPatternsAndFoldGreedily] is not part of the
    source.  After section 4.4: the worklist is seeded with the operations of
    the function in program order and swept until a sweep applies no rewrite;
    the driver gives up, reporting non-convergence, after [maxIterations]
    sweeps, and reports failure when a rewrite aborts. *)
Fixpoint iterate (maxIterations : nat) (patterns : list RewritePattern)
         (s : RewriterState) : LogicalResult * RewriterState :=
  match maxIterations with
  | 0 => (failure, s)
  | S n =>
      match sweep patterns (map opId (ir s)) false s with
      | Done true s' => iterate n patterns s'
      | Done false s' => (success, s')
      | Aborted _ => (failure, s)
      end
  end.

Definition specDriver (f : FuncOp) (patterns : list RewritePattern)
  : LogicalResult * FuncOp :=
  let (r, s) := iterate 10 patterns (mkState (body f) []) in
  (r, mkFuncOp (sym_name f) (ir s)).

Definition specGreedy : GreedyRewrite :=
  {| applyPatternsAndFoldGreedily := specDriver;
     populateEraseUnusedOperandsAndResultsPatterns :=
       fun patterns => patterns ++ [eraseUnused] |}.

(** *** Sample functions *)

Definition f32 : Ty := FloatType 32.
Definition tensor4 : Ty := RankedTensorType [4%Z] f32.
Definition tensor1 : Ty := RankedTensorType [1%Z; 1%Z] f32.

Definition arg (n : nat) (t : Ty) : Value := mkValue (BlockArgument n) t.
Definition res (op : OpId) (n : nat) (t : Ty) : Value :=
  mkValue (OpResult op n) t.

Definition generic (id : OpId) (ins : list Value) (outs : list Ty)
           (a : list (string * Attribute)) : Operation :=
  mkOperation id "linalg.generic" ins outs a [parallel].

Definition ret_ (id : OpId) (ins : list Value) : Operation :=
  mkOperation id "func.return" ins [] [] [].

(** [%1 = square(%arg0); %2 = add(%1, %arg1); return %2]. *)
Definition squareAdd : IR :=
  [ generic 1 [arg 0 tensor4] [tensor4] [("lowering_config", StringAttr "P")];
    generic 2 [res 1 0 tensor4; arg 1 tensor4] [tensor4]
            [("lowering_config", StringAttr "C")];
    ret_ 3 [res 2 0 tensor4] ].

(** The same, the consumer carrying no lowering configuration. *)
Definition squareAddBare : IR :=
  [ generic 1 [arg 0 tensor4] [tensor4] [("lowering_config", StringAttr "P")];
    generic 2 [res 1 0 tensor4; arg 1 tensor4] [tensor4] [];
    ret_ 3 [res 2 0 tensor4] ].

(** Two producers feeding one consumer. *)
Definition twoProducers : IR :=
  [ generic 1 [arg 0 tensor4] [tensor4] [];
    generic 2 [arg 1 tensor4] [tensor4] [];
    generic 3 [res 1 0 tensor4; res 2 0 tensor4] [tensor4] [];
    ret_ 4 [res 3 0 tensor4] ].

(** [%3] is computed from two parallel producers and read by two consumers. *)
Definition diamond : IR :=
  [ generic 1 [arg 0 tensor4] [tensor4] [];
    generic 2 [arg 1 tensor4] [tensor4] [];
    generic 3 [res 1 0 tensor4; res 2 0 tensor4] [tensor4] [];
    generic 4 [res 3 0 tensor4; arg 2 tensor4] [tensor4] [];
    generic 5 [res 3 0 tensor4; arg 3 tensor4] [tensor4] [];
    ret_ 6 [res 4 0 tensor4; res 5 0 tensor4] ].

(** [%1 = square(%arg0); %2 = add(%1, %arg1); %3 = mul(%1, %arg2)]. *)
Definition twoConsumers : IR :=
  [ generic 1 [arg 0 tensor4] [tensor4] [];
    generic 2 [res 1 0 tensor4; arg 1 tensor4] [tensor4] [];
    generic 3 [res 1 0 tensor4; arg 2 tensor4] [tensor4] [];
    ret_ 4 [res 2 0 tensor4; res 3 0 tensor4] ].

(** A computation on single-element values fed by a fusable producer. *)
Definition scalars : IR :=
  [ generic 1 [arg 0 tensor1] [tensor1] [];
    generic 2 [res 1 0 tensor1; arg 1 f32] [tensor1] [];
    ret_ 3 [res 2 0 tensor1] ].

(** A parallel operation without operands and without results. *)
Definition empty : IR := [ generic 1 [] [] [] ].

End SpecModel.

(* ================================================================= *)
(** ** Vocabulary of the properties *)

(** The number of elements of a shape, as a number. *)
Definition product (shape : list Z) : Z := fold_left Z.mul shape 1%Z.

(** A type of exactly one element: a plain integer, index or float scalar, or
    a ranked tensor of static shape whose extents, non-negative as the extents
    of a tensor type are, multiply to one. *)
Inductive SingleElement : Ty -> Prop :=
| SingleInteger w : SingleElement (IntegerType w)
| SingleIndex : SingleElement IndexType
| SingleFloat w : SingleElement (FloatType w)
| SingleTensor shape elt :
    Forall (fun d => d <> kDynamic) shape ->
    Forall (fun d => 0 <= d)%Z shape ->
    product shape = 1%Z ->
    SingleElement (RankedTensorType shape elt).

(** [SingleElement], decided. *)
Definition singleElementb (t : Ty) : bool :=
  match t with
  | RankedTensorType shape _ =>
      forallb (fun d => 0 <=? d)%Z shape && (product shape =? 1)%Z
  | _ => isIntOrIndexOrFloat t
  end.

(** A shape whose element count [getNumElements] computes without overflow:
    the extents are non-negative and every running product fits an
    [int64_t]. *)
Fixpoint ExactFrom (num : Z) (shape : list Z) : Prop :=
  match shape with
  | [] => True
  | dim :: rest =>
      (0 <= dim)%Z /\ (num * dim < 2 ^ 63)%Z /\ ExactFrom (num * dim) rest
  end.

Definition Exact (shape : list Z) : Prop := ExactFrom 1%Z shape.

(** A type on which the guard cannot run into the overflow: a static tensor
    shape is exact. *)
Definition ExactTy (t : Ty) : Prop :=
  match t with
  | RankedTensorType shape _ => hasStaticShape shape = true -> Exact shape
  | _ => True
  end.

Definition overflowMessage : string :=
  "integer overflow in element count computation".

Definition replaceMessage : string := "incorrect # of replacement values".

(** The edges the legality check was asked about, in the order of asking. *)
Fixpoint queriedEdges (l : list Event) : list OpOperand :=
  match l with
  | [] => []
  | QueryFusable e _ :: l' => e :: queriedEdges l'
  | _ :: l' => queriedEdges l'
  end.

(** The operation whose result the edge reads. *)
Definition producerOf (i : IR) (e : OpOperand) : option OpId :=
  match nth_error (getOperands i (owner e)) (operandNumber e) with
  | Some v => match impl v with
              | OpResult p _ => Some p
              | BlockArgument _ => None
              end
  | None => None
  end.

(** Redirecting uses rewrites operands and nothing else; the lemmas below put
    [replaceResults] in this form. *)
Definition substValue (old new : Value) (v : Value) : Value :=
  if valueImpl_eqb (impl v) (impl old) then new else v.

Definition substAll (ps : list (Value * Value)) (v : Value) : Value :=
  fold_left (fun acc p => substValue (fst p) (snd p) acc) ps v.

Definition mapOperands (f : Value -> Value) (o : Operation) : Operation :=
  withOperands o (map f (operands o)).

(** Where the redirection sends a value: result [k] of the consumer goes to
    the replacement of the same rank, everything else stays. *)
Definition redirect (op f : OpId) (a b n : nat) (v : ValueImpl) : ValueImpl :=
  match v with
  | OpResult o k =>
      if (o =? op) && (a <=? k) && (k <? a + n)
      then OpResult f (b + (k - a)) else v
  | BlockArgument _ => v
  end.

(** Whether the control function lets the pass run on the function; a null
    control function lets it run everywhere. *)
Definition enabled (controlFn : option (FuncOp -> bool)) (funcOp : FuncOp)
  : bool :=
  match controlFn with
  | Some f => f funcOp
  | None => true
  end.

(** The call of the driver the pass makes when it runs. *)
Definition driverRun {linalg : LinalgTransforms} {greedy : GreedyRewrite}
           (funcOp : FuncOp) : LogicalResult * FuncOp :=
  applyPatternsAndFoldGreedily funcOp
    (populateEraseUnusedOperandsAndResultsPatterns
       [RematerializeParallelOpsPattern]).

Definition lowering_config : string := "lowering_config".

Section Contracts.

Context (linalg : LinalgTransforms).

(** What the pattern may rely on from [fuseElementwiseOps] (spec, 4.2): a
    fusion that fails has not touched the IR. *)
Definition FailedFusionKeepsIR : Prop :=
  forall i e i1, fuseElementwiseOps i e = (i1, None) -> i1 = i.

(** A fusion that succeeds has built its operation under an identity that
    was not in use, and every operation that existed is still what it was. *)
Definition FusionBuildsNewOp : Prop :=
  forall i e i1 r,
    fuseElementwiseOps i e = (i1, Some r) ->
    getOp i (fusedOp r) = None
    /\ getOp i1 (fusedOp r) <> None
    /\ forall op o, getOp i op = Some o -> getOp i1 op = Some o.

(** The edges the loop passes over without rewriting: those the legality
    check refuses, and those whose fusion fails. *)
Inductive Skipped : RewriterState -> list OpOperand -> RewriterState -> Prop :=
| Skipped_nil s : Skipped s [] s
| Skipped_refused s e l s' :
    areElementwiseOpsFusable (ir s) e = false ->
    Skipped (mkState (ir s) (log s ++ [QueryFusable e false])) l s' ->
    Skipped s (e :: l) s'
| Skipped_failed s e l i1 s' :
    areElementwiseOpsFusable (ir s) e = true ->
    fuseElementwiseOps (ir s) e = (i1, None) ->
    Skipped (mkState i1 (log s ++ [QueryFusable e true]
                               ++ [FuseAttempt e false])) l s' ->
    Skipped s (e :: l) s'.

(** The IR and the log a successful fusion leaves, from the IR [i1] the
    fusion returned. *)
Definition attrStep (genericOp : OpId) (r : ElementwiseOpFusionResult)
           (i1 : IR) : IR * list Event :=
  match getAttr i1 genericOp lowering_config with
  | Some a => (setAttr i1 (fusedOp r) lowering_config a,
               [SetAttr (fusedOp r) lowering_config a])
  | None => (i1, [])
  end.

Definition trailingResults (genericOp : OpId) (r : ElementwiseOpFusionResult)
           (i : IR) : list Value :=
  take_back (getNumResults i genericOp) (getResults i (fusedOp r)).

(** A successful run of the pattern on [genericOp] from [s]: the edges
    [before] were passed over, the fusion at [e] returned [i1] and [r], and
    [s'] is what the rewrite left. *)
Definition FusedAt (genericOp : OpId) (s : RewriterState)
           (before : list OpOperand) (e : OpOperand) (i1 : IR)
           (r : ElementwiseOpFusionResult) (s' : RewriterState) : Prop :=
  let ia := fst (attrStep genericOp r i1) in
  let vs := trailingResults genericOp r ia in
  areElementwiseOpsFusable (ir s) e = true
  /\ fuseElementwiseOps (ir s) e = (i1, Some r)
  /\ (forall x, In x before ->
                areElementwiseOpsFusable (ir s) x = false
                \/ snd (fuseElementwiseOps (ir s) x) = None)
  /\ getNumResults ia genericOp = length vs
  /\ ir s' = eraseOp genericOp
                     (replaceResults (getResults ia genericOp) vs ia)
  /\ exists evs,
       log s' = log s ++ evs
                      ++ [QueryFusable e true; FuseAttempt e true]
                      ++ snd (attrStep genericOp r i1)
                      ++ [ReplaceOp genericOp vs]
       /\ queriedEdges evs = before
       /\ Forall (fun ev => isMutation ev = false) evs.

(** *** Properties that fail as the specification states them *)

(** C2 as stated: the configuration of the producer of the fused edge is on
    the fused operation after the rewrite. *)
Definition ProducerConfigTransferred : Prop :=
  forall i genericOp s' e i1 r producer a,
    matchAndRewrite genericOp (mkState i []) = Done success s' ->
    In (FuseAttempt e true) (log s') ->
    fuseElementwiseOps i e = (i1, Some r) ->
    producerOf i e = Some producer ->
    getAttr i producer lowering_config = Some a ->
    getAttr (ir s') (fusedOp r) lowering_config = Some a.

(** C4 as stated: the fused edge is the first edge the legality check
    accepts. *)
Definition FusesAtFirstLegalEdge : Prop :=
  forall i genericOp s' e,
    matchAndRewrite genericOp (mkState i []) = Done success s' ->
    In (FuseAttempt e true) (log s') ->
    exists before after,
      getOpOperands i genericOp = before ++ e :: after
      /\ forallb (fun x => negb (areElementwiseOpsFusable i x)) before = true
      /\ areElementwiseOpsFusable i e = true.

(** C9 as stated: a successful rewrite leaves strictly fewer fusable
    edges. *)
Definition FusionReducesFusableEdges : Prop :=
  forall i genericOp s',
    matchAndRewrite genericOp (mkState i []) = Done success s' ->
    length (fusableEdges (ir s')) < length (fusableEdges i).

End Contracts.

(* ================================================================= *)
(** ** Further vocabulary *)

(** A log in which every fusion attempt comes right after the legality check
    accepted the same edge. *)
Inductive Guarded : list Event -> Prop :=
| Guarded_nil : Guarded []
| Guarded_attempt e ok l :
    Guarded l -> Guarded (QueryFusable e true :: FuseAttempt e ok :: l)
| Guarded_other ev l :
    isFuseAttempt ev = false -> Guarded l -> Guarded (ev :: l).

(** What the rewrite has no business changing in an operation: its identity,
    its kind, the types of its results, the number of its operands and its
    iterators. *)
Definition skeleton (o : Operation)
  : OpId * string * list Ty * nat * list IteratorType :=
  (opId o, opName o, resultTypes o, length (operands o), iteratorTypes o).

(** [ExactFrom], decided. *)
Fixpoint exactFromb (num : Z) (shape : list Z) : bool :=
  match shape with
  | [] => true
  | dim :: rest =>
      (0 <=? dim)%Z && (num * dim <? 2 ^ 63)%Z && exactFromb (num * dim) rest
  end.

Definition exactTyb (t : Ty) : bool :=
  match t with
  | RankedTensorType shape _ =>
      negb (hasStaticShape shape) || exactFromb 1%Z shape
  | _ => true
  end.

(** An oracle that answers as [SpecModel.specFusable] does and whose fused
    operation has no result at all, fewer than any consumer with results. *)
Definition stingyLinalg : LinalgTransforms :=
  {| areElementwiseOpsFusable := SpecModel.specFusable;
     fuseElementwiseOps :=
       fun i e =>
         if SpecModel.specFusable i e then
           match getOp i (owner e) with
           | Some consumer =>
               (SpecModel.insertBefore (opId consumer)
                  (mkOperation (SpecModel.freshId i) "linalg.generic"
                               (operands consumer) [] []
                               (iteratorTypes consumer))
                  i,
                Some (mkFusionResult (SpecModel.freshId i) []))
           | None => (i, None)
           end
         else (i, None) |}.

(** A consumer with an attribute besides its lowering configuration, and a
    function of which it is the only parallel operation. *)
Definition annotated : IR :=
  [ SpecModel.generic 1 [SpecModel.arg 0 SpecModel.tensor4]
                      [SpecModel.tensor4] [];
    SpecModel.generic 2 [SpecModel.res 1 0 SpecModel.tensor4;
                         SpecModel.arg 1 SpecModel.tensor4]
                      [SpecModel.tensor4]
                      [("lowering_config", StringAttr "C");
                       ("compilation_info", StringAttr "I")];
    SpecModel.ret_ 3 [SpecModel.res 2 0 SpecModel.tensor4;
                      SpecModel.res 1 0 SpecModel.tensor4] ].

(** A candidate one operand of which has more elements than an [int64_t]
    counts. *)
Definition overflowing : IR :=
  [ SpecModel.generic 1
      [SpecModel.arg 0 (RankedTensorType [4294967296%Z; 2147483648%Z]
                                         SpecModel.f32)]
      [SpecModel.tensor4] [] ].

(** An operation that produces a tensor out of nothing. *)
Definition sourceOnly : IR :=
  [ SpecModel.generic 1 [] [SpecModel.tensor4] [];
    SpecModel.ret_ 2 [SpecModel.res 1 0 SpecModel.tensor4] ].

(* ================================================================= *)
(** ** A measure for the rule set, and the driver run to the end *)

Module Termination.

Import SpecModel.

(** What is known of the operations met so far: for each identity, the
    number of its results and the weight of each of them. *)
Definition Ctx : Type := list (OpId * (nat * nat)).

Fixpoint lookup (p : OpId) (ctx : Ctx) : option (nat * nat) :=
  match ctx with
  | [] => None
  | (q, x) :: rest => if q =? p then Some x else lookup p rest
  end.

(** The weight of a value: one for an argument or the result of an operation
    that is not parallel; for the result of a parallel operation, one more
    than the weights of its operands, that is, the number of leaves of the
    expression it stands for once every producer is inlined. *)
Definition weightOf (ctx : Ctx) (v : ValueImpl) : nat :=
  match v with
  | OpResult p _ =>
      match lookup p ctx with
      | Some (_, w) => w
      | None => 1
      end
  | BlockArgument _ => 1
  end.

Definition sumWeights (ctx : Ctx) (l : list ValueImpl) : nat :=
  list_sum (map (weightOf ctx) l).

Definition operandImpls (o : Operation) : list ValueImpl :=
  map impl (operands o).

Definition entry (ctx : Ctx) (o : Operation) : OpId * (nat * nat) :=
  (opId o,
   (length (resultTypes o),
    if isGeneric o then 1 + sumWeights ctx (operandImpls o) else 1)).

(** The measure: one for each operation, plus the weight of every operand
    read. *)
Fixpoint costFrom (ctx : Ctx) (i : IR) : nat :=
  match i with
  | [] => 0
  | o :: rest =>
      1 + sumWeights ctx (operandImpls o) + costFrom (entry ctx o :: ctx) rest
  end.

Definition measure (i : IR) : nat := costFrom [] i.

(** A function in SSA form: identities are not reused, and every operand
    that is a result is result [j < n] of an operation met before, of [n]
    results. *)
Definition definedIn (ctx : Ctx) (v : ValueImpl) : Prop :=
  match v with
  | OpResult p j => exists n w, lookup p ctx = Some (n, w) /\ j < n
  | BlockArgument _ => True
  end.

Fixpoint WellFormedFrom (ctx : Ctx) (i : IR) : Prop :=
  match i with
  | [] => True
  | o :: rest =>
      lookup (opId o) ctx = None
      /\ Forall (definedIn ctx) (operandImpls o)
      /\ WellFormedFrom (entry ctx o :: ctx) rest
  end.

Definition WellFormed (i : IR) : Prop := WellFormedFrom [] i.

(** [WellFormedFrom], decided. *)
Definition definedInb (ctx : Ctx) (v : ValueImpl) : bool :=
  match v with
  | OpResult p j =>
      match lookup p ctx with
      | Some (n, _) => j <? n
      | None => false
      end
  | BlockArgument _ => true
  end.

Fixpoint wellFormedFromb (ctx : Ctx) (i : IR) : bool :=
  match i with
  | [] => true
  | o :: rest =>
      match lookup (opId o) ctx with
      | None =>
          forallb (definedInb ctx) (operandImpls o)
          && wellFormedFromb (entry ctx o :: ctx) rest
      | Some _ => false
      end
  end.

(** The context after the operations of [l]. *)
Fixpoint extend (ctx : Ctx) (l : IR) : Ctx :=
  match l with
  | [] => ctx
  | o :: rest => extend (entry ctx o :: ctx) rest
  end.

(** [o'] is [o] with every operand renamed by [rho]. *)
Definition Renamed (rho : ValueImpl -> ValueImpl) (o o' : Operation) : Prop :=
  opId o' = opId o
  /\ opName o' = opName o
  /\ resultTypes o' = resultTypes o
  /\ operandImpls o' = map rho (operandImpls o).

(** The new context accounts for every value the old one does, renamed, and
    gives it no more weight; it knows no identity the old one does not know,
    but for those in [extra]. *)
Definition Refines (ok : ValueImpl -> Prop) (rho : ValueImpl -> ValueImpl)
           (extra : OpId -> Prop) (ctxO ctxN : Ctx) : Prop :=
  (forall v, ok v -> definedIn ctxO v ->
             definedIn ctxN (rho v)
             /\ weightOf ctxN (rho v) <= weightOf ctxO v)
  /\ (forall p, lookup p ctxN <> None -> lookup p ctxO <> None \/ extra p).

(** What a renaming must leave alone for an operation to keep its place:
    its identity is not one of the new ones, its results are not renamed,
    nothing is renamed into them, and its operands are within [ok]. *)
Definition Passable (ok : ValueImpl -> Prop) (rho : ValueImpl -> ValueImpl)
           (extra : OpId -> Prop) (o : Operation) : Prop :=
  ~ extra (opId o)
  /\ (forall j, rho (OpResult (opId o) j) = OpResult (opId o) j)
  /\ (forall v j, rho v = OpResult (opId o) j -> v = OpResult (opId o) j)
  /\ Forall ok (operandImpls o).

(** How a run of the driver ends. *)
Inductive Verdict : Type :=
| Converged (s : RewriterState)
| GaveUp (s : RewriterState)
| Stopped (msg : string).

(** Modelled from the spec: [applyPatternsAndFoldGreedily] is not part of the
    source.  This is [iterate] with the three ways a run can end kept apart:
    a sweep that applies no rewrite (the fixed point), the sweeps running
    out, a rewrite stopping on a failed assertion. *)
Fixpoint fixpoint (sweeps : nat) (patterns : list RewritePattern)
         (s : RewriterState) : Verdict :=
  match sweeps with
  | 0 => GaveUp s
  | S n =>
      match sweep patterns (map opId (ir s)) false s with
      | Done true s' => fixpoint n patterns s'
      | Done false s' => Converged s'
      | Aborted msg => Stopped msg
      end
  end.

(** The rule set the pass hands to the driver. *)
Definition specPatterns : list RewritePattern :=
  @populateEraseUnusedOperandsAndResultsPatterns specGreedy
    [RematerializeParallelOpsPattern (linalg := specLinalg)].

(** What makes the rule set come to rest: a rewrite that succeeds keeps the
    function well-formed and lowers the measure; a rewrite that fails leaves
    the function as it was. *)
Definition RewriteLowersMeasure (p : RewritePattern) : Prop :=
  forall op s s',
    WellFormed (ir s) ->
    rewrite p op s = Done success s' ->
    WellFormed (ir s') /\ measure (ir s') < measure (ir s).

Definition RewriteFailureKeeps (p : RewritePattern) : Prop :=
  forall op s s', rewrite p op s = Done failure s' -> ir s' = ir s.

(** A rewrite that succeeds removes the operation it was applied to, and
    makes no edge fusable that was in the function and was not: an edge that
    is fusable afterwards was fusable before, or belongs to an operation the
    rewrite built. *)
Definition NoEdgeBecomesFusable (p : RewritePattern) : Prop :=
  forall op s s',
    WellFormed (ir s) ->
    rewrite p op s = Done success s' ->
    getOp (ir s') op = None
    /\ forall e,
         In e (fusableEdges (linalg := specLinalg) (ir s')) ->
         In e (fusableEdges (linalg := specLinalg) (ir s))
         \/ getOp (ir s) (owner e) = None.

End Termination.

(* ================================================================= *)
(** ** The scalar guard *)

Lemma hasStaticShape_Forall (shape : list Z) :
  hasStaticShape shape = true <-> Forall (fun d => d <> kDynamic) shape.
Proof.
  unfold hasStaticShape, isDynamic.
  rewrite forallb_forall, Forall_forall.
  split; intros H d Hd; specialize (H d Hd).
  - intros ->. now rewrite Z.eqb_refl in H.
  - apply negb_true_iff. now apply Z.eqb_neq.
Qed.

(** Within its range an [int64_t] keeps a number as it is. *)
Lemma int64_small (z : Z) :
  (- 2 ^ 63 <= z < 2 ^ 63)%Z -> int64 z = z.
Proof.
  intros H. unfold int64.
  change (2 ^ 64)%Z with (2 * 2 ^ 63)%Z.
  assert (Hk : (0 < 2 ^ 63)%Z) by reflexivity.
  revert H Hk. generalize (2 ^ 63)%Z. intros k H Hk.
  rewrite Z.mod_small by lia. lia.
Qed.

(** A static shape of non-negative extents has one element exactly when every
    extent is one. *)
Lemma fold_mul_nonneg (shape : list Z) (acc : Z) :
  (0 <= acc)%Z -> Forall (fun d => 0 <= d)%Z shape ->
  (0 <= fold_left Z.mul shape acc)%Z.
Proof.
  revert acc. induction shape as [|d shape IH]; simpl; intros acc Ha H.
  - exact Ha.
  - inversion H; subst. apply IH; [nia|assumption].
Qed.

Lemma fold_mul_one (shape : list Z) (acc : Z) :
  (0 <= acc)%Z -> Forall (fun d => 0 <= d)%Z shape ->
  fold_left Z.mul shape acc = 1%Z ->
  acc = 1%Z /\ Forall (fun d => d = 1%Z) shape.
Proof.
  revert acc. induction shape as [|d shape IH]; simpl; intros acc Ha H E.
  - now split.
  - inversion H; subst.
    destruct (IH (acc * d)%Z ltac:(nia) H3 E) as [Hm Hall].
    destruct (Z.eq_mul_1_nonneg acc d Ha Hm) as [Hacc Hd].
    split; [exact Hacc|]. now constructor.
Qed.

Lemma product_one (shape : list Z) :
  Forall (fun d => 0 <= d)%Z shape ->
  (product shape = 1%Z <-> Forall (fun d => d = 1%Z) shape).
Proof.
  intros Hpos. unfold product. split.
  - intros E. now apply (fold_mul_one (acc := 1%Z)).
  - intros Hall. clear Hpos.
    induction Hall as [|d shape -> _ IH]; simpl; [reflexivity|exact IH].
Qed.

(** On an exact shape the machine computes the number of elements. *)
Lemma numElementsFrom_exact (shape : list Z) :
  forall num,
    (0 <= num < 2 ^ 63)%Z -> ExactFrom num shape ->
    numElementsFrom num shape = Some (fold_left Z.mul shape num).
Proof.
  induction shape as [|d shape IH]; intros num Hnum Hex; cbn [numElementsFrom].
  - reflexivity.
  - destruct Hex as (Hd & Hfit & Hex). cbv zeta.
    rewrite int64_small by nia.
    destruct (Z.ltb_spec (num * d) 0); [nia|].
    cbn [fold_left]. apply IH; [nia|exact Hex].
Qed.

Lemma getNumElements_exact (shape : list Z) :
  Exact shape -> getNumElements shape = Some (product shape).
Proof.
  intros H. apply numElementsFrom_exact; [|exact H].
  split; [lia|reflexivity].
Qed.

Lemma ExactFrom_ones (shape : list Z) :
  Forall (fun d => d = 1%Z) shape -> ExactFrom 1%Z shape.
Proof.
  induction 1 as [|d shape -> _ IH]; cbn [ExactFrom]; [exact I|].
  split; [lia|]. split; [reflexivity|exact IH].
Qed.

(** The guard of the source accepts every single-element type. *)
Lemma isScalarOrTensorOfSizeOne_single (t : Ty) :
  SingleElement t -> isScalarOrTensorOfSizeOne t = Some true.
Proof.
  intros H. destruct H as [w| |w|shape elt Hs Hpos Hone]; try reflexivity.
  cbn. rewrite (proj2 (hasStaticShape_Forall shape) Hs).
  rewrite getNumElements_exact.
  - now rewrite Hone.
  - apply ExactFrom_ones. now apply product_one.
Qed.

Lemma all_of_isScalarValue (l : list Value) :
  Forall SingleElement (map getType l) -> all_of isScalarValue l = Some true.
Proof.
  induction l as [|v l IH]; simpl; intros H; [reflexivity|].
  inversion H; subst. unfold isScalarValue at 1.
  rewrite isScalarOrTensorOfSizeOne_single by assumption.
  now apply IH.
Qed.

Lemma singleElementb_sound (t : Ty) :
  singleElementb t = true -> SingleElement t.
Proof.
  destruct t; cbn; try discriminate; try constructor.
  - apply andb_true_iff in H as [Hpos _]. apply Forall_forall.
    intros d Hd Hk. rewrite forallb_forall in Hpos.
    specialize (Hpos d Hd). apply Z.leb_le in Hpos.
    subst d. unfold kDynamic in Hpos. lia.
  - apply andb_true_iff in H as [Hpos _]. apply Forall_forall.
    intros d Hd. rewrite forallb_forall in Hpos.
    now apply Z.leb_le, Hpos.
  - apply andb_true_iff in H as [_ H]. now apply Z.eqb_eq.
Qed.

(** On exact types the guard of the source decides [SingleElement]. *)
Lemma isScalarOrTensorOfSizeOne_exact (t : Ty) :
  ExactTy t ->
  exists b, isScalarOrTensorOfSizeOne t = Some b
            /\ (b = true <-> SingleElement t).
Proof.
  destruct t as [w| |w|shape elt|elt|shape elt|shape elt|name]; intros Hex;
    cbn; try (exists true; split; [reflexivity|];
              split; [constructor|reflexivity]);
    try (exists false; split; [reflexivity|];
         split; [discriminate|intros H; inversion H]).
  cbn in Hex. destruct (hasStaticShape shape) eqn:Hs.
  - specialize (Hex eq_refl). rewrite (@getNumElements_exact shape Hex).
    exists (product shape =? 1)%Z. split; [reflexivity|].
    rewrite Z.eqb_eq. split.
    + intros Hone. constructor; [now apply hasStaticShape_Forall| |exact Hone].
      clear Hs Hone. unfold Exact in Hex. revert Hex.
      generalize 1%Z. induction shape as [|d shape IH]; intros n Hex.
      * constructor.
      * destruct Hex as (Hd & _ & Hex). constructor; [exact Hd|].
        exact (IH _ Hex).
    + intros H. now inversion H.
  - exists false. split; [reflexivity|]. split; [discriminate|].
    intros H. inversion H as [| | |? ? Hst _ _]; subst.
    apply hasStaticShape_Forall in Hst. congruence.
Qed.

Lemma all_of_exact (l : list Value) :
  Forall ExactTy (map getType l) ->
  exists b, all_of isScalarValue l = Some b
            /\ (b = true <-> Forall SingleElement (map getType l)).
Proof.
  induction l as [|v l IH]; cbn [map all_of]; intros H.
  - exists true. split; [reflexivity|]. split; [constructor|reflexivity].
  - inversion H as [|? ? Hv Hl]; subst.
    destruct (isScalarOrTensorOfSizeOne_exact _ Hv) as (b & Eb & Hb).
    unfold isScalarValue at 1. rewrite Eb. destruct b.
    + destruct (IH Hl) as (b' & Eb' & Hb'). exists b'. split; [exact Eb'|].
      rewrite Hb'. split.
      * intros Hall. constructor; [now apply Hb|exact Hall].
      * intros Hall. now inversion Hall.
    + exists false. split; [reflexivity|]. split; [discriminate|].
      intros Hall. inversion Hall as [|? ? Hsingle _]; subst.
      apply Hb in Hsingle. discriminate.
Qed.

(** On exact types the guard returns, and it is true exactly when every
    operand and every result is of a single-element type. *)
Lemma allScalar_exact (i : IR) (genericOp : OpId) :
  Forall ExactTy (map getType (getOperands i genericOp)) ->
  Forall ExactTy (map getType (getResults i genericOp)) ->
  exists b,
    allScalar i genericOp = Some b
    /\ (b = true
        <-> Forall SingleElement (map getType (getOperands i genericOp))
            /\ Forall SingleElement (map getType (getResults i genericOp))).
Proof.
  intros Hops Hres. unfold allScalar.
  destruct (all_of_exact _ Hops) as (b & Eb & Hb). rewrite Eb.
  destruct b.
  - destruct (all_of_exact _ Hres) as (b' & Eb' & Hb'). exists b'.
    split; [exact Eb'|]. rewrite Hb'. split.
    + intros H. split; [now apply Hb|exact H].
    + now intros [_ H].
  - exists false. split; [reflexivity|]. split; [discriminate|].
    intros [H _]. apply Hb in H. discriminate.
Qed.

(* ================================================================= *)
(** ** The loop over the operand edges *)

Section Loop.

Context {linalg : LinalgTransforms}.

(** What a fusion that succeeded is followed by, in closed form. *)
Lemma finishFusion_eq (genericOp : OpId) (r : ElementwiseOpFusionResult)
      (s : RewriterState) :
  finishFusion genericOp r s =
  let ia := fst (attrStep genericOp r (ir s)) in
  let ev := snd (attrStep genericOp r (ir s)) in
  let vs := trailingResults genericOp r ia in
  if getNumResults ia genericOp =? length vs
  then Done success
            (mkState (eraseOp genericOp
                        (replaceResults (getResults ia genericOp) vs ia))
                     (log s ++ ev ++ [ReplaceOp genericOp vs]))
  else Aborted "incorrect # of replacement values".
Proof.
  unfold finishFusion, attrStep, trailingResults, bind, gets, lowering_config.
  destruct (getAttr (ir s) genericOp "lowering_config") as [a|]; cbn.
  - unfold replaceOp, emit; cbn.
    destruct (_ =? _); [|reflexivity].
    cbn. now rewrite <- app_assoc.
  - unfold replaceOp, emit; cbn.
    destruct (_ =? _); reflexivity.
Qed.

Lemma finishFusion_not_failure genericOp r s s' :
  finishFusion genericOp r s <> Done failure s'.
Proof.
  rewrite finishFusion_eq. cbv zeta.
  destruct (_ =? _); discriminate.
Qed.

Lemma fuseFirstOperand_cons genericOp e rest s :
  fuseFirstOperand genericOp (e :: rest) s =
  if areElementwiseOpsFusable (ir s) e then
    match snd (fuseElementwiseOps (ir s) e) with
    | Some r =>
        finishFusion genericOp r
          (mkState (fst (fuseElementwiseOps (ir s) e))
                   (log s ++ [QueryFusable e true] ++ [FuseAttempt e true]))
    | None =>
        fuseFirstOperand genericOp rest
          (mkState (fst (fuseElementwiseOps (ir s) e))
                   (log s ++ [QueryFusable e true] ++ [FuseAttempt e false]))
    end
  else fuseFirstOperand genericOp rest
         (mkState (ir s) (log s ++ [QueryFusable e false])).
Proof.
  cbn [fuseFirstOperand]. unfold bind at 1, queryFusable at 1.
  destruct (areElementwiseOpsFusable (ir s) e); cbn [negb]; [|reflexivity].
  unfold bind, fuse; cbn [ir log].
  destruct (fuseElementwiseOps (ir s) e) as [i1 [r|]]; cbn [fst snd];
    now rewrite <- app_assoc.
Qed.

(** A loop that fails has skipped every edge. *)
Lemma fuseFirstOperand_failure genericOp l :
  forall s s',
    fuseFirstOperand genericOp l s = Done failure s' -> Skipped linalg s l s'.
Proof.
  induction l as [|e l IH]; intros s s' H.
  - cbn in H. injection H as <-. constructor.
  - rewrite fuseFirstOperand_cons in H.
    destruct (areElementwiseOpsFusable (ir s) e) eqn:Hf.
    + destruct (fuseElementwiseOps (ir s) e) as [i1 [r|]] eqn:Hfuse;
        cbn [fst snd] in H.
      * now apply finishFusion_not_failure in H.
      * eapply Skipped_failed; eauto.
    + apply Skipped_refused; auto.
Qed.

(** A loop that succeeds has skipped a prefix of the edges, fused at the next
    one and stopped there. *)
Lemma fuseFirstOperand_success genericOp l :
  forall s s',
    fuseFirstOperand genericOp l s = Done success s' ->
    exists before e after s1 i1 r,
      l = before ++ e :: after
      /\ Skipped linalg s before s1
      /\ areElementwiseOpsFusable (ir s1) e = true
      /\ fuseElementwiseOps (ir s1) e = (i1, Some r)
      /\ finishFusion genericOp r
           (mkState i1 (log s1 ++ [QueryFusable e true]
                               ++ [FuseAttempt e true]))
         = Done success s'.
Proof.
  induction l as [|e l IH]; intros s s' H.
  - cbn in H. discriminate.
  - rewrite fuseFirstOperand_cons in H.
    destruct (areElementwiseOpsFusable (ir s) e) eqn:Hf.
    + destruct (fuseElementwiseOps (ir s) e) as [i1 [r|]] eqn:Hfuse;
        cbn [fst snd] in H.
      * exists [], e, l, s, i1, r. repeat split; auto. constructor.
      * destruct (IH _ _ H)
          as (before & e' & after & s1 & i1' & r & -> & Hsk & He & Hfu & Hfin).
        exists (e :: before), e', after, s1, i1', r.
        repeat split; auto. eapply Skipped_failed; eauto.
    + destruct (IH _ _ H)
        as (before & e' & after & s1 & i1' & r & -> & Hsk & He & Hfu & Hfin).
      exists (e :: before), e', after, s1, i1', r.
      repeat split; auto. now apply Skipped_refused.
Qed.

(** The loop never aborts while it skips; it aborts only in [replaceOp]. *)
Lemma fuseFirstOperand_skipped genericOp l :
  forall s s',
    Skipped linalg s l s' -> fuseFirstOperand genericOp l s = Done failure s'.
Proof.
  intros s s' H. induction H.
  - reflexivity.
  - rewrite fuseFirstOperand_cons, H. exact IHSkipped.
  - rewrite fuseFirstOperand_cons, H, H0. exact IHSkipped.
Qed.

(** Skipping leaves a log of questions and failed attempts. *)
Lemma Skipped_log s l s' :
  Skipped linalg s l s' ->
  exists evs,
    log s' = log s ++ evs
    /\ queriedEdges evs = l
    /\ Forall (fun ev => isMutation ev = false) evs.
Proof.
  intros H. induction H.
  - exists []. now rewrite app_nil_r.
  - destruct IHSkipped as (evs & Hl & Hq & Hm). cbn in Hl.
    exists (QueryFusable e false :: evs). repeat split.
    + now rewrite Hl, <- app_assoc.
    + cbn. now rewrite Hq.
    + now constructor.
  - destruct IHSkipped as (evs & Hl & Hq & Hm). cbn in Hl.
    exists (QueryFusable e true :: FuseAttempt e false :: evs). repeat split.
    + now rewrite Hl, <- !app_assoc.
    + cbn. now rewrite Hq.
    + now repeat constructor.
Qed.

(** When a failed fusion keeps the IR, so does skipping. *)
Lemma Skipped_ir s l s' :
  FailedFusionKeepsIR linalg -> Skipped linalg s l s' -> ir s' = ir s.
Proof.
  intros Hk H. induction H; cbn in *; auto.
  rewrite IHSkipped. eapply Hk; eauto.
Qed.

Lemma Skipped_edges s l s' :
  FailedFusionKeepsIR linalg -> Skipped linalg s l s' ->
  forall x, In x l ->
    areElementwiseOpsFusable (ir s) x = false
    \/ snd (fuseElementwiseOps (ir s) x) = None.
Proof.
  intros Hk H. induction H; intros x Hx.
  - destruct Hx.
  - destruct Hx as [<-|Hx]; [now left|]. now apply IHSkipped.
  - pose proof (Hk _ _ _ H0) as ->.
    destruct Hx as [<-|Hx]; [right; now rewrite H0|]. now apply IHSkipped.
Qed.

(** When no edge is fusable the loop skips them all without a fusion
    attempt. *)
Lemma Skipped_none_fusable l :
  forall s,
    forallb (fun x => negb (areElementwiseOpsFusable (ir s) x)) l = true ->
    Skipped linalg s l
            (mkState (ir s)
                     (log s ++ map (fun x => QueryFusable x false) l)).
Proof.
  induction l as [|e l IH]; intros s H; cbn in *.
  - rewrite app_nil_r. destruct s; constructor.
  - apply andb_true_iff in H as [He Hl]. apply negb_true_iff in He.
    apply Skipped_refused; [exact He|].
    specialize (IH (mkState (ir s) (log s ++ [QueryFusable e false])) Hl).
    cbn in IH. now rewrite <- app_assoc in IH.
Qed.

End Loop.

(* ================================================================= *)
(** ** The IR primitives *)

Lemma getOp_map (f : Operation -> Operation) (i : IR) (op : OpId) :
  (forall o, opId (f o) = opId o) ->
  getOp (map f i) op = option_map f (getOp i op).
Proof.
  intros Hid. unfold getOp.
  induction i as [|o i IH]; cbn; [reflexivity|].
  rewrite Hid. destruct (opId o =? op); [reflexivity|exact IH].
Qed.

Lemma getOp_opId (i : IR) (op : OpId) (o : Operation) :
  getOp i op = Some o -> opId o = op.
Proof.
  unfold getOp. intros H. apply find_some in H as [_ H].
  now apply Nat.eqb_eq.
Qed.

Lemma getOp_In (i : IR) (op : OpId) (o : Operation) :
  getOp i op = Some o -> In o i.
Proof. unfold getOp. intros H. now apply find_some in H. Qed.

Lemma getOp_setAttr (i : IR) (op x : OpId) name a :
  getOp (setAttr i op name a) x =
  option_map (fun o => if opId o =? op
                       then withAttrs o (updateAttr name a (attrs o)) else o)
             (getOp i x).
Proof.
  unfold setAttr. apply getOp_map.
  intros o. now destruct (opId o =? op).
Qed.

Lemma lookupAttr_updateAttr name a l :
  lookupAttr name (updateAttr name a l) = Some a.
Proof.
  induction l as [|[k v] l IH]; cbn.
  - now rewrite String.eqb_refl.
  - destruct (String.eqb k name) eqn:E; cbn; now rewrite E.
Qed.

Lemma getAttr_setAttr_same (i : IR) (op : OpId) name a :
  getOp i op <> None -> getAttr (setAttr i op name a) op name = Some a.
Proof.
  intros Hlive. unfold getAttr. rewrite getOp_setAttr.
  destruct (getOp i op) as [o|] eqn:E; [|contradiction]. cbn.
  apply getOp_opId in E. rewrite E, Nat.eqb_refl. cbn.
  apply lookupAttr_updateAttr.
Qed.

Lemma getAttr_setAttr_other (i : IR) (op x : OpId) name n a :
  x <> op -> getAttr (setAttr i op name a) x n = getAttr i x n.
Proof.
  intros Hne. unfold getAttr. rewrite getOp_setAttr.
  destruct (getOp i x) as [o|] eqn:E; [|reflexivity]. cbn.
  apply getOp_opId in E. subst x.
  apply Nat.eqb_neq in Hne. now rewrite Hne.
Qed.

Lemma getOperands_setAttr (i : IR) (op x : OpId) name a :
  getOperands (setAttr i op name a) x = getOperands i x.
Proof.
  unfold getOperands. rewrite getOp_setAttr.
  destruct (getOp i x) as [o|]; [|reflexivity]. cbn.
  now destruct (opId o =? op).
Qed.

Lemma getResults_setAttr (i : IR) (op x : OpId) name a :
  getResults (setAttr i op name a) x = getResults i x.
Proof.
  unfold getResults. rewrite getOp_setAttr.
  destruct (getOp i x) as [o|]; [|reflexivity]. cbn.
  now destruct (opId o =? op).
Qed.

Lemma uses_setAttr (i : IR) (op : OpId) name a (v : ValueImpl) :
  uses (setAttr i op name a) v = uses i v.
Proof.
  unfold uses, setAttr. induction i as [|o i IH]; cbn; [reflexivity|].
  rewrite IH. f_equal. now destruct (opId o =? op).
Qed.

Lemma replaceResults_map (old new : list Value) (i : IR) :
  replaceResults old new i = map (mapOperands (substAll (combine old new))) i.
Proof.
  unfold replaceResults. generalize (combine old new) as ps. intros ps.
  revert i. induction ps as [|p ps IH]; intros i; cbn.
  - rewrite <- (map_id i) at 1. apply map_ext.
    intros [id nm ops tys ats its]. unfold mapOperands, withOperands; cbn.
    now rewrite map_id.
  - rewrite IH. unfold replaceAllUsesWith. rewrite map_map.
    apply map_ext. intros o. unfold mapOperands, withOperands; cbn.
    now rewrite map_map.
Qed.

Lemma getOp_replaceResults (old new : list Value) (i : IR) (x : OpId) :
  getOp (replaceResults old new i) x =
  option_map (mapOperands (substAll (combine old new))) (getOp i x).
Proof. rewrite replaceResults_map. now apply getOp_map. Qed.

Lemma getAttr_replaceResults (old new : list Value) (i : IR) (x : OpId) n :
  getAttr (replaceResults old new i) x n = getAttr i x n.
Proof.
  unfold getAttr. rewrite getOp_replaceResults.
  now destruct (getOp i x).
Qed.

Lemma getOp_eraseOp (i : IR) (op x : OpId) :
  getOp (eraseOp op i) x = if x =? op then None else getOp i x.
Proof.
  unfold getOp, eraseOp. induction i as [|o i IH]; cbn.
  - now destruct (x =? op).
  - destruct (opId o =? op) eqn:E; cbn.
    + rewrite IH. destruct (x =? op) eqn:Ex; [reflexivity|].
      apply Nat.eqb_eq in E. rewrite E.
      rewrite Nat.eqb_sym in Ex. now rewrite Ex.
    + destruct (opId o =? x) eqn:Ex.
      * apply Nat.eqb_eq in Ex. subst x. now rewrite E.
      * exact IH.
Qed.

Lemma getOp_eraseOp_same (i : IR) (op : OpId) : getOp (eraseOp op i) op = None.
Proof. rewrite getOp_eraseOp. now rewrite Nat.eqb_refl. Qed.

Lemma getAttr_eraseOp_other (i : IR) (op x : OpId) n :
  x <> op -> getAttr (eraseOp op i) x n = getAttr i x n.
Proof.
  intros Hne. unfold getAttr. rewrite getOp_eraseOp.
  apply Nat.eqb_neq in Hne. now rewrite Hne.
Qed.

Lemma In_eraseOp (i : IR) (op : OpId) (o : Operation) :
  In o (eraseOp op i) -> In o i /\ opId o <> op.
Proof.
  unfold eraseOp. intros H. apply filter_In in H as [Hin Hne].
  split; [exact Hin|]. apply negb_true_iff in Hne. now apply Nat.eqb_neq.
Qed.

Lemma allOpOperands_owner (i : IR) (e : OpOperand) :
  In e (allOpOperands i) -> exists o, In o i /\ opId o = owner e.
Proof.
  unfold allOpOperands. intros H. apply in_flat_map in H as (o & Ho & He).
  apply in_map_iff in He as (n & <- & _). now exists o.
Qed.

(* ================================================================= *)
(** ** Runs of the pattern *)

Section Runs.

Context {linalg : LinalgTransforms}.

Lemma matchAndRewrite_eq genericOp s :
  matchAndRewrite genericOp s =
  match allScalar (ir s) genericOp with
  | None => Aborted overflowMessage
  | Some true => Done failure s
  | Some false =>
      fuseFirstOperand genericOp (getOpOperands (ir s) genericOp) s
  end.
Proof. reflexivity. Qed.

Lemma matchAndRewrite_success genericOp s s' :
  FailedFusionKeepsIR linalg ->
  matchAndRewrite genericOp s = Done success s' ->
  allScalar (ir s) genericOp = Some false
  /\ exists before e after i1 r,
       getOpOperands (ir s) genericOp = before ++ e :: after
       /\ FusedAt linalg genericOp s before e i1 r s'.
Proof.
  intros Hk H. rewrite matchAndRewrite_eq in H.
  destruct (allScalar (ir s) genericOp) as [[|]|]; try discriminate.
  split; [reflexivity|].
  apply fuseFirstOperand_success in H
    as (before & e & after & s1 & i1 & r & Hl & Hsk & He & Hfu & Hfin).
  exists before, e, after, i1, r. split; [exact Hl|].
  pose proof (Skipped_ir Hk Hsk) as Hir.
  pose proof (Skipped_edges Hk Hsk) as Hedges.
  destruct (Skipped_log Hsk) as (evs & Hlog & Hq & Hm).
  rewrite Hir in He, Hfu.
  rewrite finishFusion_eq in Hfin. cbv zeta in Hfin. cbn [ir log] in Hfin.
  destruct (_ =? _) eqn:Hn in Hfin; [|discriminate].
  injection Hfin as <-. apply Nat.eqb_eq in Hn.
  unfold FusedAt. cbv zeta. cbn [ir log].
  repeat split; auto.
  exists evs. repeat split; auto.
  rewrite Hlog. now rewrite <- !app_assoc.
Qed.

(** The only successful fusion attempt of a run is the one it fused at. *)
Lemma FusedAt_attempt genericOp s before e i1 r s' e' :
  FusedAt linalg genericOp s before e i1 r s' ->
  log s = [] -> In (FuseAttempt e' true) (log s') -> e' = e.
Proof.
  intros (_ & _ & _ & _ & _ & evs & Hlog & _ & Hm) Hnil Hin.
  rewrite Hlog, Hnil in Hin. cbn [app] in Hin.
  apply in_app_or in Hin as [Hin|Hin].
  - rewrite Forall_forall in Hm. apply Hm in Hin. discriminate.
  - destruct Hin as [Hin|[Hin|Hin]]; try discriminate.
    + now injection Hin.
    + apply in_app_or in Hin as [Hin|Hin].
      * unfold attrStep in Hin.
        destruct (getAttr i1 genericOp lowering_config); cbn in Hin;
          [destruct Hin as [Hin|[]]; discriminate|destruct Hin].
      * destruct Hin as [Hin|[]]. discriminate.
Qed.

(** The attribute the fused operation ends up with. *)
Lemma FusedAt_fused_attr genericOp s before e i1 r s' :
  FusedAt linalg genericOp s before e i1 r s' ->
  fusedOp r <> genericOp ->
  getOp i1 (fusedOp r) <> None ->
  getAttr (ir s') (fusedOp r) lowering_config =
  match getAttr i1 genericOp lowering_config with
  | Some a => Some a
  | None => getAttr i1 (fusedOp r) lowering_config
  end.
Proof.
  intros (_ & _ & _ & _ & Hir & _) Hne Hlive.
  rewrite Hir, getAttr_eraseOp_other, getAttr_replaceResults by exact Hne.
  unfold attrStep.
  destruct (getAttr i1 genericOp lowering_config) as [a|]; cbn [fst].
  - now apply getAttr_setAttr_same.
  - reflexivity.
Qed.

(** The attributes of every other operation are what they were. *)
Lemma FusedAt_other_attr genericOp s before e i1 r s' x n :
  FusedAt linalg genericOp s before e i1 r s' ->
  x <> genericOp -> x <> fusedOp r ->
  getAttr (ir s') x n = getAttr i1 x n.
Proof.
  intros (_ & _ & _ & _ & Hir & _) Hne Hnf.
  rewrite Hir, getAttr_eraseOp_other, getAttr_replaceResults by exact Hne.
  unfold attrStep.
  destruct (getAttr i1 genericOp lowering_config) as [a|]; cbn [fst].
  - now apply getAttr_setAttr_other.
  - reflexivity.
Qed.

Lemma FusedAt_erased genericOp s before e i1 r s' :
  FusedAt linalg genericOp s before e i1 r s' ->
  getOp (ir s') genericOp = None.
Proof.
  intros (_ & _ & _ & _ & Hir & _). rewrite Hir. apply getOp_eraseOp_same.
Qed.

(** An operation that is not the consumer survives the rewrite. *)
Lemma FusedAt_survives genericOp s before e i1 r s' x :
  FusedAt linalg genericOp s before e i1 r s' ->
  x <> genericOp -> getOp i1 x <> None -> getOp (ir s') x <> None.
Proof.
  intros (_ & _ & _ & _ & Hir & _) Hne Hlive.
  rewrite Hir, getOp_eraseOp, getOp_replaceResults.
  apply Nat.eqb_neq in Hne. rewrite Hne.
  unfold attrStep.
  destruct (getAttr i1 genericOp lowering_config) as [a|]; cbn [fst].
  - rewrite getOp_setAttr. now destruct (getOp i1 x).
  - now destruct (getOp i1 x).
Qed.

End Runs.

(* ================================================================= *)
(** ** The instance keeps the contracts *)

Module SpecModelFacts.
Import SpecModel.

Lemma specFuse_failure i e i1 : specFuse i e = (i1, None) -> i1 = i.
Proof.
  unfold specFuse. intros H.
  destruct (specFusable i e); [|now injection H].
  destruct (getOp i (owner e)) as [c|]; [|now injection H].
  destruct (nth_error (operands c) (operandNumber e)) as [v|];
    [|now injection H].
  destruct (getDefiningOp i v); [discriminate|now injection H].
Qed.

Lemma specLinalg_failure_keeps : FailedFusionKeepsIR specLinalg.
Proof. intros i e i1. apply specFuse_failure. Qed.

Lemma reluctantLinalg_failure_keeps : FailedFusionKeepsIR reluctantLinalg.
Proof.
  intros i e i1. cbn. destruct (operandNumber e =? 0).
  - intros H. now injection H.
  - apply specFuse_failure.
Qed.

Lemma le_fold_max (l : list nat) (x : nat) :
  In x l -> x <= fold_right Nat.max 0 l.
Proof.
  induction l as [|y l IH]; cbn; intros H; [destruct H|].
  destruct H as [->|H]; [lia|]. specialize (IH H). lia.
Qed.

Lemma getOp_freshId (i : IR) : getOp i (freshId i) = None.
Proof.
  destruct (getOp i (freshId i)) as [o|] eqn:E; [|reflexivity].
  pose proof (getOp_opId _ _ E) as Hid.
  apply getOp_In in E.
  assert (opId o <= fold_right Nat.max 0 (map opId i))
    by (apply le_fold_max; now apply in_map).
  unfold freshId in Hid. lia.
Qed.

Lemma getOp_insertBefore_new (i : IR) (c : OpId) (f : Operation) :
  getOp i (opId f) = None -> getOp (insertBefore c f i) (opId f) = Some f.
Proof.
  unfold getOp. induction i as [|o i IH]; cbn; intros H.
  - now rewrite Nat.eqb_refl.
  - destruct (opId o =? opId f) eqn:E; [discriminate|].
    destruct (opId o =? c); cbn.
    + now rewrite Nat.eqb_refl.
    + rewrite E. now apply IH.
Qed.

Lemma getOp_insertBefore_old (i : IR) (c x : OpId) (f : Operation) :
  x <> opId f -> getOp (insertBefore c f i) x = getOp i x.
Proof.
  intros Hne. apply Nat.eqb_neq in Hne. rewrite Nat.eqb_sym in Hne.
  unfold getOp. induction i as [|o i IH]; cbn.
  - now rewrite Hne.
  - destruct (opId o =? c); cbn.
    + now rewrite Hne.
    + now rewrite IH.
Qed.

Lemma specFuse_success i e i1 r :
  specFuse i e = (i1, Some r) ->
  getOp i (fusedOp r) = None
  /\ getOp i1 (fusedOp r) <> None
  /\ forall op o, getOp i op = Some o -> getOp i1 op = Some o.
Proof.
  unfold specFuse. intros H.
  destruct (specFusable i e); [|discriminate].
  destruct (getOp i (owner e)) as [c|]; [|discriminate].
  destruct (nth_error (operands c) (operandNumber e)) as [v|];
    [|discriminate].
  destruct (getDefiningOp i v) as [p|]; [|discriminate].
  injection H as <- <-. cbn [fusedOp].
  pose proof (getOp_freshId i) as Hfresh.
  split; [exact Hfresh|]. split.
  - erewrite (getOp_insertBefore_new i (opId c)
                (mkOperation (freshId i) _ _ _ _ _)); [discriminate|exact Hfresh].
  - intros op o Ho. rewrite getOp_insertBefore_old; [exact Ho|].
    cbn. intros ->. rewrite Hfresh in Ho. discriminate.
Qed.

Lemma specLinalg_builds_new : FusionBuildsNewOp specLinalg.
Proof. intros i e i1 r. apply specFuse_success. Qed.

Lemma reluctantLinalg_builds_new : FusionBuildsNewOp reluctantLinalg.
Proof.
  intros i e i1 r. cbn. destruct (operandNumber e =? 0); [discriminate|].
  apply specFuse_success.
Qed.

End SpecModelFacts.

(* ================================================================= *)
(** ** Properties of the rewrite rule *)

Import SpecModel SpecModelFacts.

(** C1.  After a successful rewrite the fused operation carries the
    [lowering_config] of the original consumer when the consumer had one; when
    it had none, the attribute of the fused operation is the one the fusion
    itself left there: the rule adds nothing. *)
Theorem lowering_config_carried_over (linalg : LinalgTransforms) :
  FailedFusionKeepsIR linalg -> FusionBuildsNewOp linalg ->
  forall i genericOp consumer s',
    getOp i genericOp = Some consumer ->
    matchAndRewrite genericOp (mkState i []) = Done success s' ->
    exists e i1 r,
      In (FuseAttempt e true) (log s')
      /\ fuseElementwiseOps i e = (i1, Some r)
      /\ match lookupAttr lowering_config (attrs consumer) with
         | Some a =>
             getAttr (ir s') (fusedOp r) lowering_config = Some a
         | None =>
             getAttr (ir s') (fusedOp r) lowering_config
             = getAttr i1 (fusedOp r) lowering_config
         end.
Proof.
  intros Hk Hnew i genericOp consumer s' Hlive Hrun.
  destruct (matchAndRewrite_success _ _ Hk Hrun)
    as (_ & before & e & after & i1 & r & _ & Hfused).
  pose proof Hfused as (_ & Hfuse & _ & _ & _ & evs & Hlog & _).
  cbn [ir log] in Hfuse, Hlog.
  destruct (Hnew _ _ _ _ Hfuse) as (Hfresh & Hbuilt & Hold).
  assert (Hne : fusedOp r <> genericOp)
    by (intros E; rewrite E, Hlive in Hfresh; discriminate).
  exists e, i1, r. split; [|split; [exact Hfuse|]].
  - rewrite Hlog. cbn [app]. apply in_or_app. right. cbn. auto.
  - assert (Hc : getAttr i1 genericOp lowering_config
                 = lookupAttr lowering_config (attrs consumer))
      by (unfold getAttr; now rewrite (Hold _ _ Hlive)).
    rewrite (FusedAt_fused_attr Hfused Hne Hbuilt), Hc.
    now destruct (lookupAttr lowering_config (attrs consumer)).
Qed.

Lemma lowering_config_carried_over_witness :
  getAttr squareAdd 2 lowering_config = Some (StringAttr "C")
  /\ exists e i1 r s',
       matchAndRewrite (linalg := specLinalg) 2 (mkState squareAdd [])
       = Done success s'
       /\ In (FuseAttempt e true) (log s')
       /\ specFuse squareAdd e = (i1, Some r)
       /\ getAttr (ir s') (fusedOp r) lowering_config
          = Some (StringAttr "C").
Proof.
  split; [reflexivity|].
  destruct (@lowering_config_carried_over specLinalg
              specLinalg_failure_keeps specLinalg_builds_new
              squareAdd 2 _ _ eq_refl eq_refl)
    as (e & i1 & r & Hin & Hfuse & Hattr).
  exists e, i1, r. eexists. split; [reflexivity|].
  split; [exact Hin|]. split; [exact Hfuse|exact Hattr].
Defined.

(** C2, as amended.  The rule removes the consumer only.  The consumer's
    [lowering_config], when present, is on the fused operation afterwards;
    every other operation that existed, the producer included, is still in the
    function with the [lowering_config] it had, which the rule does not move
    to the fused operation. *)
Theorem consumer_config_moves_producer_stays (linalg : LinalgTransforms) :
  FailedFusionKeepsIR linalg -> FusionBuildsNewOp linalg ->
  forall i genericOp consumer s',
    getOp i genericOp = Some consumer ->
    matchAndRewrite genericOp (mkState i []) = Done success s' ->
    exists e i1 r,
      In (FuseAttempt e true) (log s')
      /\ fuseElementwiseOps i e = (i1, Some r)
      /\ getOp (ir s') genericOp = None
      /\ (forall a, lookupAttr lowering_config (attrs consumer) = Some a ->
                    getAttr (ir s') (fusedOp r) lowering_config = Some a)
      /\ (forall p o, p <> genericOp -> getOp i p = Some o ->
                      getOp (ir s') p <> None
                      /\ getAttr (ir s') p lowering_config
                         = lookupAttr lowering_config (attrs o)).
Proof.
  intros Hk Hnew i genericOp consumer s' Hlive Hrun.
  destruct (matchAndRewrite_success _ _ Hk Hrun)
    as (_ & before & e & after & i1 & r & _ & Hfused).
  pose proof Hfused as (_ & Hfuse & _ & _ & _ & evs & Hlog & _).
  cbn [ir log] in Hfuse, Hlog.
  destruct (Hnew _ _ _ _ Hfuse) as (Hfresh & Hbuilt & Hold).
  assert (Hne : fusedOp r <> genericOp)
    by (intros E; rewrite E, Hlive in Hfresh; discriminate).
  exists e, i1, r. repeat split.
  - rewrite Hlog. cbn [app]. apply in_or_app. right. cbn. auto.
  - exact Hfuse.
  - exact (FusedAt_erased Hfused).
  - intros a Ha. rewrite (FusedAt_fused_attr Hfused Hne Hbuilt).
    unfold getAttr. now rewrite (Hold _ _ Hlive), Ha.
  - apply (FusedAt_survives Hfused H). rewrite (Hold _ _ H0). discriminate.
  - assert (Hpf : p <> fusedOp r)
      by (intros E; rewrite <- E, H0 in Hfresh; discriminate).
    rewrite (FusedAt_other_attr _ Hfused H Hpf).
    unfold getAttr. now rewrite (Hold _ _ H0).
Qed.

Lemma consumer_config_moves_producer_stays_witness :
  exists e i1 r s',
    matchAndRewrite (linalg := specLinalg) 2 (mkState squareAdd [])
    = Done success s'
    /\ specFuse squareAdd e = (i1, Some r)
    /\ getOp (ir s') 2 = None
    /\ getAttr (ir s') (fusedOp r) lowering_config = Some (StringAttr "C")
    /\ getAttr (ir s') 1 lowering_config = Some (StringAttr "P").
Proof.
  destruct (@consumer_config_moves_producer_stays specLinalg
              specLinalg_failure_keeps specLinalg_builds_new
              squareAdd 2 _ _ eq_refl eq_refl)
    as (e & i1 & r & _ & Hfuse & Hgone & Hcons & Hothers).
  exists e, i1, r. eexists. split; [reflexivity|].
  split; [exact Hfuse|]. split; [exact Hgone|]. split.
  - apply Hcons. reflexivity.
  - apply (Hothers 1 (generic 1 [arg 0 tensor4] [tensor4]
                              [("lowering_config", StringAttr "P")])).
    + discriminate.
    + reflexivity.
Defined.

(** C2 as stated fails: in [squareAdd] the producer [%1] carries the
    configuration "P" and is read by the fused edge only, yet the fused
    operation ends up with the consumer's "C". *)
Lemma producer_config_not_transferred :
  (exists s',
      matchAndRewrite (linalg := specLinalg) 2 (mkState squareAdd [])
      = Done success s'
      /\ producerOf squareAdd (mkOpOperand 2 0) = Some 1
      /\ getAttr squareAdd 1 lowering_config = Some (StringAttr "P")
      /\ option_map fusedOp (snd (specFuse squareAdd (mkOpOperand 2 0))) = Some 4
      /\ getAttr (ir s') 4 lowering_config = Some (StringAttr "C"))
  /\ ~ ProducerConfigTransferred specLinalg.
Proof.
  split; [eexists; repeat split; reflexivity|].
  intros H.
  epose proof (H squareAdd 2 _ (mkOpOperand 2 0) _ _ 1 (StringAttr "P")
                 eq_refl) as H'.
  cbn in H'.
  specialize (H' (or_intror (or_introl eq_refl)) eq_refl eq_refl eq_refl).
  discriminate H'.
Qed.

(** C3.  When every operand and every result of the candidate has a
    single-element type, the rule returns failure at once: the IR and the log
    are what they were, so no edge was examined and no fusion attempted,
    whatever the fusion oracle would have answered. *)
Theorem scalar_candidate_rejected (linalg : LinalgTransforms) :
  forall genericOp s,
    Forall SingleElement (map getType (getOperands (ir s) genericOp)) ->
    Forall SingleElement (map getType (getResults (ir s) genericOp)) ->
    matchAndRewrite genericOp s = Done failure s.
Proof.
  intros genericOp s Hops Hres.
  rewrite matchAndRewrite_eq. unfold allScalar.
  now rewrite (all_of_isScalarValue _ Hops), (all_of_isScalarValue _ Hres).
Qed.

Lemma Forall_SingleElement (l : list Ty) :
  forallb singleElementb l = true -> Forall SingleElement l.
Proof.
  intros H. apply Forall_forall. intros t Ht.
  apply singleElementb_sound.
  rewrite forallb_forall in H. now apply H.
Qed.

Lemma scalar_candidate_rejected_witness :
  specFusable scalars (mkOpOperand 2 0) = true
  /\ matchAndRewrite (linalg := specLinalg) 2 (mkState scalars [])
     = Done failure (mkState scalars []).
Proof.
  split; [reflexivity|].
  apply (@scalar_candidate_rejected specLinalg 2 (mkState scalars []));
    apply Forall_SingleElement; reflexivity.
Defined.

(** C10.  A candidate without operands and without results passes the scalar
    guard, both quantifications being vacuous, and the rule returns failure on
    it without examining anything. *)
Theorem empty_candidate_rejected (linalg : LinalgTransforms) :
  forall genericOp s,
    getOperands (ir s) genericOp = [] ->
    getResults (ir s) genericOp = [] ->
    allScalar (ir s) genericOp = Some true
    /\ matchAndRewrite genericOp s = Done failure s.
Proof.
  intros genericOp s Hops Hres.
  assert (Hall : allScalar (ir s) genericOp = Some true)
    by (unfold allScalar; now rewrite Hops, Hres).
  split; [exact Hall|].
  rewrite matchAndRewrite_eq. now rewrite Hall.
Qed.

Lemma empty_candidate_rejected_witness :
  allScalar empty 1 = Some true
  /\ matchAndRewrite (linalg := specLinalg) 1 (mkState empty [])
     = Done failure (mkState empty []).
Proof.
  apply (@empty_candidate_rejected specLinalg 1 (mkState empty []));
    reflexivity.
Defined.

Lemma queriedEdges_app (l1 l2 : list Event) :
  queriedEdges (l1 ++ l2) = queriedEdges l1 ++ queriedEdges l2.
Proof.
  induction l1 as [|ev l1 IH]; cbn; [reflexivity|].
  destruct ev; cbn; now rewrite IH.
Qed.

Lemma queriedEdges_attrStep genericOp r i1 :
  queriedEdges (snd (attrStep genericOp r i1)) = [].
Proof.
  unfold attrStep. now destruct (getAttr i1 genericOp lowering_config).
Qed.

Lemma filter_quiet (p : Event -> bool) (evs : list Event) :
  (forall ev, p ev = true -> isMutation ev = true) ->
  Forall (fun ev => isMutation ev = false) evs -> filter p evs = [].
Proof.
  intros Hp H. induction H as [|ev evs Hev _ IH]; cbn; [reflexivity|].
  destruct (p ev) eqn:E; [|exact IH].
  apply Hp in E. congruence.
Qed.

Lemma getOpOperands_ascending (i : IR) (genericOp : OpId) :
  map operandNumber (getOpOperands i genericOp)
  = seq 0 (length (getOperands i genericOp))
  /\ Forall (fun e => owner e = genericOp) (getOpOperands i genericOp).
Proof.
  unfold getOpOperands. split.
  - rewrite map_map. cbn. apply map_id.
  - apply Forall_forall. intros e He.
    apply in_map_iff in He as (n & <- & _). reflexivity.
Qed.

(** C4, as amended.  The edges are examined by ascending operand number.  A
    successful run has examined exactly the edges up to the one it fused at;
    that edge is the first one which the legality check accepts and whose
    fusion succeeds, and each edge before it was refused by the legality check
    or its fusion failed.  A run that fails past the scalar guard has
    examined every edge. *)
Theorem fuses_at_first_edge_that_fuses (linalg : LinalgTransforms) :
  FailedFusionKeepsIR linalg ->
  forall i genericOp s',
    map operandNumber (getOpOperands i genericOp)
    = seq 0 (length (getOperands i genericOp))
    /\ (matchAndRewrite genericOp (mkState i []) = Done success s' ->
        exists before e after i1 r,
          getOpOperands i genericOp = before ++ e :: after
          /\ (forall x, In x before ->
                areElementwiseOpsFusable i x = false
                \/ snd (fuseElementwiseOps i x) = None)
          /\ areElementwiseOpsFusable i e = true
          /\ fuseElementwiseOps i e = (i1, Some r)
          /\ queriedEdges (log s') = before ++ [e]
          /\ forall e', In (FuseAttempt e' true) (log s') <-> e' = e)
    /\ (matchAndRewrite genericOp (mkState i []) = Done failure s' ->
        allScalar i genericOp = Some false ->
        queriedEdges (log s') = getOpOperands i genericOp).
Proof.
  intros Hk i genericOp s'.
  split; [apply getOpOperands_ascending|]. split.
  - intros Hrun.
    destruct (matchAndRewrite_success _ _ Hk Hrun)
      as (_ & before & e & after & i1 & r & Hsplit & Hfused).
    pose proof Hfused as (He & Hfuse & Hbefore & _ & _ & evs & Hlog & Hq & _).
    cbn [ir log] in *.
    exists before, e, after, i1, r. repeat split; auto.
    + rewrite Hlog.
      rewrite !queriedEdges_app, Hq, queriedEdges_attrStep. reflexivity.
    + intros Hin. eapply FusedAt_attempt; [exact Hfused|reflexivity|exact Hin].
    + intros ->. rewrite Hlog. cbn [app].
      apply in_or_app. right. cbn. auto.
  - intros Hrun Hguard. rewrite matchAndRewrite_eq in Hrun.
    cbn [ir] in Hrun. rewrite Hguard in Hrun.
    apply fuseFirstOperand_failure in Hrun.
    destruct (Skipped_log Hrun) as (evs & Hlog & Hq & _).
    cbn [log app] in Hlog. now rewrite Hlog.
Qed.

Lemma fuses_at_first_edge_that_fuses_witness :
  exists s',
    matchAndRewrite (linalg := reluctantLinalg) 3 (mkState twoProducers [])
    = Done success s'
    /\ exists before e after i1 r,
         getOpOperands twoProducers 3 = before ++ e :: after
         /\ (forall x, In x before ->
               specFusable twoProducers x = false
               \/ snd (@fuseElementwiseOps reluctantLinalg twoProducers x)
                  = None)
         /\ specFusable twoProducers e = true
         /\ @fuseElementwiseOps reluctantLinalg twoProducers e = (i1, Some r)
         /\ queriedEdges (log s') = before ++ [e]
         /\ forall e', In (FuseAttempt e' true) (log s') <-> e' = e.
Proof.
  eexists. split; [reflexivity|].
  exact (proj1 (proj2 (@fuses_at_first_edge_that_fuses reluctantLinalg
                         reluctantLinalg_failure_keeps twoProducers 3 _))
               eq_refl).
Defined.

(** C4 as stated fails: with an oracle whose fusion gives up on the first
    edge of [twoProducers], an edge the legality check accepts, the rule
    fuses at the second edge. *)
Lemma fusion_not_at_first_legal_edge :
  (exists s',
      matchAndRewrite (linalg := reluctantLinalg) 3 (mkState twoProducers [])
      = Done success s'
      /\ getOpOperands twoProducers 3 = [mkOpOperand 3 0; mkOpOperand 3 1]
      /\ specFusable twoProducers (mkOpOperand 3 0) = true
      /\ log s' = [QueryFusable (mkOpOperand 3 0) true;
                   FuseAttempt (mkOpOperand 3 0) false;
                   QueryFusable (mkOpOperand 3 1) true;
                   FuseAttempt (mkOpOperand 3 1) true;
                   ReplaceOp 3 [res 5 0 tensor4]])
  /\ ~ FusesAtFirstLegalEdge reluctantLinalg.
Proof.
  split; [eexists; repeat split; reflexivity|].
  intros H.
  epose proof (H twoProducers 3 _ (mkOpOperand 3 1) eq_refl) as H'.
  cbn in H'.
  destruct (H' ltac:(tauto)) as (before & after & Hsplit & Hall & _).
  destruct before as [|x [|y before]]; cbn in Hsplit.
  - discriminate.
  - injection Hsplit as <- _. cbn in Hall. discriminate.
  - injection Hsplit as _ _ Hrest. now destruct before.
Qed.

(** A successful run replaces once, after one fusion that succeeded. *)
Lemma success_events (linalg : LinalgTransforms) genericOp s s' :
  matchAndRewrite genericOp s = Done success s' ->
  exists evs vs,
    log s' = log s ++ evs
    /\ filter isReplaceOp evs = [ReplaceOp genericOp vs]
    /\ length (filter (fun ev => isFuseAttempt ev && isMutation ev) evs) = 1.
Proof.
  intros H. rewrite matchAndRewrite_eq in H.
  destruct (allScalar (ir s) genericOp) as [[|]|]; try discriminate.
  apply fuseFirstOperand_success in H
    as (before & e & after & s1 & i1 & r & _ & Hsk & _ & _ & Hfin).
  destruct (Skipped_log Hsk) as (evs & Hlog & _ & Hm).
  rewrite finishFusion_eq in Hfin. cbv zeta in Hfin. cbn [ir log] in Hfin.
  destruct (_ =? _) in Hfin; [|discriminate].
  injection Hfin as <-. cbn [log].
  set (vs := trailingResults genericOp r (fst (attrStep genericOp r i1))).
  exists (evs ++ [QueryFusable e true] ++ [FuseAttempt e true]
              ++ snd (attrStep genericOp r i1) ++ [ReplaceOp genericOp vs]).
  exists vs. clearbody vs. split; [|split].
  - rewrite Hlog. now rewrite <- !app_assoc.
  - rewrite !filter_app.
    rewrite (filter_quiet isReplaceOp) by (auto; now intros []).
    unfold attrStep.
    destruct (getAttr i1 genericOp lowering_config); reflexivity.
  - rewrite !filter_app.
    rewrite (filter_quiet (fun ev => isFuseAttempt ev && isMutation ev))
      by (auto; intros ev Hev; now apply andb_true_iff in Hev).
    unfold attrStep.
    destruct (getAttr i1 genericOp lowering_config); reflexivity.
Qed.

(* ================================================================= *)
(** ** Properties of the pass *)

Lemma runOnOperation_eq (linalg : LinalgTransforms) (greedy : GreedyRewrite)
      controlFn funcOp :
  runOnOperation controlFn funcOp =
  if enabled controlFn funcOp
  then mkPassResult (snd (driverRun funcOp)) (failed (fst (driverRun funcOp)))
  else mkPassResult funcOp false.
Proof.
  unfold runOnOperation, enabled, driverRun.
  destruct controlFn as [f|].
  - destruct (f funcOp); cbn [negb]; [|reflexivity].
    destruct (applyPatternsAndFoldGreedily _ _) as [[|] f']; reflexivity.
  - destruct (applyPatternsAndFoldGreedily _ _) as [[|] f']; reflexivity.
Qed.

(** C7.  On a function for which the control function answers false the pass
    returns the function as it was, without failure and whatever the driver
    is: the driver is not consulted.  Without a control function the pass
    runs the driver on every function. *)
Theorem disabled_pass_is_noop (linalg : LinalgTransforms)
        (greedy : GreedyRewrite) :
  forall funcOp,
    (forall controlFn,
        controlFn funcOp = false ->
        runOnOperation (Some controlFn) funcOp = mkPassResult funcOp false)
    /\ runOnOperation None funcOp
       = mkPassResult (snd (driverRun funcOp))
                      (failed (fst (driverRun funcOp))).
Proof.
  intros funcOp. split.
  - intros controlFn H. rewrite runOnOperation_eq. cbn. now rewrite H.
  - now rewrite runOnOperation_eq.
Qed.

Lemma disabled_pass_is_noop_witness :
  runOnOperation (linalg := specLinalg) (greedy := specGreedy)
                 (Some (fun f => String.eqb (sym_name f) "main"))
                 (mkFuncOp "helper" squareAdd)
  = mkPassResult (mkFuncOp "helper" squareAdd) false.
Proof.
  apply (proj1 (@disabled_pass_is_noop specLinalg specGreedy
                  (mkFuncOp "helper" squareAdd))).
  reflexivity.
Defined.

(** C8.  The pass signals failure exactly when it runs the driver and the
    driver reports failure.  When it runs the driver it signals nothing
    exactly when the driver reports success, and the function it leaves is
    the one the driver left: the driver is run once and its outcome is
    final. *)
Theorem pass_fails_iff_driver_fails (linalg : LinalgTransforms)
        (greedy : GreedyRewrite) :
  forall controlFn funcOp,
    (passFailed (runOnOperation controlFn funcOp) = true
     <-> enabled controlFn funcOp = true
         /\ fst (driverRun funcOp) = failure)
    /\ (enabled controlFn funcOp = true ->
        (passFailed (runOnOperation controlFn funcOp) = false
         <-> fst (driverRun funcOp) = success)
        /\ funcAfter (runOnOperation controlFn funcOp)
           = snd (driverRun funcOp)).
Proof.
  intros controlFn funcOp. rewrite runOnOperation_eq.
  destruct (enabled controlFn funcOp); cbn.
  - destruct (fst (driverRun funcOp)); cbn; repeat split; intros;
      try discriminate; try tauto.
    destruct H; discriminate.
  - split; [|discriminate]. split; [discriminate|intros [? _]; discriminate].
Qed.

Lemma pass_fails_iff_driver_fails_witness :
  (fst (driverRun (linalg := specLinalg) (greedy := specGreedy)
                  (mkFuncOp "main" diamond)) = success
   /\ passFailed (runOnOperation (linalg := specLinalg) (greedy := specGreedy)
                                 None (mkFuncOp "main" diamond)) = false)
  /\ (fst (driverRun (linalg := restlessLinalg) (greedy := specGreedy)
                     (mkFuncOp "main" squareAdd)) = failure
      /\ passFailed (runOnOperation (linalg := restlessLinalg)
                                    (greedy := specGreedy)
                                    None (mkFuncOp "main" squareAdd)) = true).
Proof.
  split; (split; [reflexivity|]).
  - apply (proj2 (@pass_fails_iff_driver_fails specLinalg specGreedy None
                    (mkFuncOp "main" diamond)) eq_refl).
    reflexivity.
  - apply (proj1 (@pass_fails_iff_driver_fails restlessLinalg specGreedy None
                    (mkFuncOp "main" squareAdd))).
    split; reflexivity.
Defined.

(** X11.  Under any fusion that keeps its contract, a successful rewrite
    erases the consumer, and with it every use-edge the consumer owned, the fused edge
    among them; it leaves every other operation that existed in the function,
    the producer included, and adds one operation under an identity that was
    not in use. *)
Theorem fused_edge_removed_producer_kept (linalg : LinalgTransforms) :
  FailedFusionKeepsIR linalg -> FusionBuildsNewOp linalg ->
  forall i genericOp s',
    matchAndRewrite genericOp (mkState i []) = Done success s' ->
    getOp (ir s') genericOp = None
    /\ (forall e, In e (fusableEdges (ir s')) -> owner e <> genericOp)
    /\ (forall p, p <> genericOp -> getOp i p <> None ->
                  getOp (ir s') p <> None)
    /\ exists e i1 r,
         fuseElementwiseOps i e = (i1, Some r)
         /\ getOp i (fusedOp r) = None
         /\ (fusedOp r <> genericOp -> getOp (ir s') (fusedOp r) <> None).
Proof.
  intros Hk Hnew i genericOp s' Hrun.
  destruct (matchAndRewrite_success _ _ Hk Hrun)
    as (_ & before & e & after & i1 & r & _ & Hfused).
  pose proof Hfused as (_ & Hfuse & _ & _ & Hir & _).
  cbn [ir log] in Hfuse.
  destruct (Hnew _ _ _ _ Hfuse) as (Hfresh & Hbuilt & Hold).
  split; [exact (FusedAt_erased Hfused)|]. split; [|split].
  - intros x Hx. unfold fusableEdges in Hx.
    apply filter_In in Hx as [Hx _].
    apply allOpOperands_owner in Hx as (o & Ho & <-).
    rewrite Hir in Ho. now apply In_eraseOp in Ho.
  - intros p Hp Hlive. apply (FusedAt_survives Hfused Hp).
    destruct (getOp i p) as [o|] eqn:E; [|contradiction].
    rewrite (Hold _ _ E). discriminate.
  - exists e, i1, r. repeat split; auto.
    intros Hne. exact (FusedAt_survives Hfused Hne Hbuilt).
Qed.

Lemma fused_edge_removed_producer_kept_witness :
  exists s',
    matchAndRewrite (linalg := specLinalg) 4 (mkState diamond [])
    = Done success s'
    /\ getOp (ir s') 4 = None
    /\ getOp (ir s') 3 <> None.
Proof.
  eexists. split; [reflexivity|].
  destruct (@fused_edge_removed_producer_kept specLinalg
              specLinalg_failure_keeps specLinalg_builds_new
              diamond 4 _ eq_refl) as (Hgone & _ & Hkept & _).
  split; [exact Hgone|].
  apply Hkept; discriminate.
Defined.


(* ================================================================= *)
(** ** Redirecting the uses of the consumer's results *)

Lemma resultsFrom_length op a tys : length (resultsFrom op a tys) = length tys.
Proof.
  revert a. induction tys as [|t tys IH]; intros a; cbn; [reflexivity|].
  now rewrite IH.
Qed.

Lemma resultsFrom_skipn op a k tys :
  skipn k (resultsFrom op a tys) = resultsFrom op (a + k) (skipn k tys).
Proof.
  revert a tys. induction k as [|k IH]; intros a tys.
  - cbn. now rewrite Nat.add_0_r.
  - destruct tys as [|t tys]; cbn; [reflexivity|].
    rewrite IH. f_equal. lia.
Qed.

Lemma getResults_resultsFrom (i : IR) (op : OpId) :
  exists tys, getResults i op = resultsFrom op 0 tys.
Proof.
  unfold getResults. destruct (getOp i op) as [o|] eqn:E.
  - exists (resultTypes o). unfold resultsOf.
    now rewrite (getOp_opId _ _ E).
  - now exists [].
Qed.

(** When it has as many values as was asked for, [take_back] is a suffix. *)
Lemma take_back_skipn {A : Type} (n : nat) (l : list A) :
  length (take_back n l) = n ->
  n <= length l /\ take_back n l = skipn (length l - n) l.
Proof.
  unfold take_back. destruct (length l <=? n) eqn:E.
  - intros H. split; [lia|]. now replace (length l - n) with 0 by lia.
  - apply Nat.leb_gt in E. intros _. split; [lia|reflexivity].
Qed.

Lemma valueImpl_eqb_eq (a b : ValueImpl) :
  valueImpl_eqb a b = true <-> a = b.
Proof.
  destruct a as [o k|n], b as [o' k'|n']; cbn; try (split; discriminate).
  - rewrite andb_true_iff, !Nat.eqb_eq. split.
    + now intros [-> ->].
    + intros H. now injection H.
  - rewrite Nat.eqb_eq. split; [now intros ->|intros H; now injection H].
Qed.

Lemma valueImpl_eqb_refl (a : ValueImpl) : valueImpl_eqb a a = true.
Proof. now apply valueImpl_eqb_eq. Qed.

Lemma valueImpl_eqb_neq (a b : ValueImpl) :
  valueImpl_eqb a b = false <-> a <> b.
Proof.
  rewrite <- valueImpl_eqb_eq. destruct (valueImpl_eqb a b); split; congruence.
Qed.

Lemma redirect_none op f a b v : redirect op f a b 0 v = v.
Proof.
  destruct v as [o k|n]; [|reflexivity]. unfold redirect.
  destruct (Nat.leb_spec a k), (Nat.ltb_spec k (a + 0));
    rewrite ?andb_false_r; try reflexivity; lia.
Qed.

Lemma redirect_step op f a b n v :
  f <> op ->
  redirect op f (S a) (S b) n
           (if valueImpl_eqb v (OpResult op a) then OpResult f b else v)
  = redirect op f a b (S n) v.
Proof.
  intros Hne. destruct (valueImpl_eqb v (OpResult op a)) eqn:E.
  - apply valueImpl_eqb_eq in E. subst v. unfold redirect.
    destruct (Nat.eqb_spec f op); [contradiction|].
    rewrite Nat.eqb_refl, Nat.leb_refl. cbn [andb].
    destruct (Nat.ltb_spec a (a + S n)); [f_equal; lia|lia].
  - apply valueImpl_eqb_neq in E.
    destruct v as [o k|m]; [|reflexivity]. unfold redirect.
    destruct (Nat.eqb_spec o op); [subst o|reflexivity]. cbn [andb].
    assert (k <> a) by congruence.
    destruct (Nat.leb_spec (S a) k), (Nat.leb_spec a k),
      (Nat.ltb_spec k (S a + n)), (Nat.ltb_spec k (a + S n));
      cbn [andb]; try reflexivity; try lia.
    f_equal. lia.
Qed.

Lemma substAll_impl (op f : OpId) :
  f <> op ->
  forall tys tysf a b v,
    length tys = length tysf ->
    impl (substAll (combine (resultsFrom op a tys) (resultsFrom f b tysf)) v)
    = redirect op f a b (length tys) (impl v).
Proof.
  intros Hne. induction tys as [|t tys IH]; intros tysf a b v Hlen.
  - cbn [resultsFrom combine substAll fold_left length].
    now rewrite redirect_none.
  - destruct tysf as [|tf tysf]; [discriminate|].
    injection Hlen as Hlen.
    cbn [resultsFrom combine length]. unfold substAll. cbn [fold_left fst snd].
    fold (substAll (combine (resultsFrom op (S a) tys)
                            (resultsFrom f (S b) tysf))).
    rewrite (IH tysf (S a) (S b) _ Hlen).
    rewrite <- (@redirect_step op f a b (length tys) (impl v) Hne).
    unfold substValue. cbn [impl].
    now destruct (valueImpl_eqb (impl v) (OpResult op a)).
Qed.

Lemma positions_map (f : Value -> Value) (w w' : ValueImpl) (l : list Value) :
  (forall v, In v l ->
     valueImpl_eqb (impl (f v)) w = valueImpl_eqb (impl v) w') ->
  forall n, positions w n (map f l) = positions w' n l.
Proof.
  induction l as [|x l IH]; intros H n; cbn; [reflexivity|].
  rewrite (H x (or_introl eq_refl)), IH by (intros; apply H; now right).
  reflexivity.
Qed.

Lemma positions_nil (w : ValueImpl) (l : list Value) (n : nat) :
  positions w n l = [] <->
  forall v, In v l -> valueImpl_eqb (impl v) w = false.
Proof.
  revert n. induction l as [|x l IH]; intros n; cbn.
  - split; [intros _ v []|reflexivity].
  - destruct (valueImpl_eqb (impl x) w) eqn:E.
    + split; [discriminate|]. intros H.
      rewrite (H x (or_introl eq_refl)) in E. discriminate.
    + rewrite IH. split.
      * intros H v [<-|Hv]; auto.
      * intros H v Hv. apply H. now right.
Qed.

Lemma uses_nil (i : IR) (w : ValueImpl) :
  uses i w = [] <->
  forall o v, In o i -> In v (operands o) -> valueImpl_eqb (impl v) w = false.
Proof.
  unfold uses. induction i as [|o i IH]; cbn.
  - split; [intros _ o v []|reflexivity].
  - split.
    + intros H. apply app_eq_nil in H as [H1 H2].
      unfold usesIn in H1. apply map_eq_nil in H1.
      intros o' v [<-|Ho] Hv.
      * exact (proj1 (positions_nil _ _ _) H1 v Hv).
      * exact (proj1 IH H2 o' v Ho Hv).
    + intros H.
      assert (H1 : usesIn o w = []).
      { unfold usesIn. apply (f_equal (map _)) with (y := []).
        apply positions_nil. intros v Hv. apply (H o v); auto. }
      rewrite H1. cbn. apply IH. intros o' v Ho Hv. apply (H o' v); auto.
Qed.

Lemma redirect_not_old op f b n j v :
  f <> op -> j < n -> redirect op f 0 b n v <> OpResult op j.
Proof.
  intros Hne Hj. destruct v as [o k|m]; [|discriminate]. unfold redirect.
  destruct (Nat.eqb_spec o op), (Nat.leb_spec 0 k), (Nat.ltb_spec k (0 + n));
    cbn [andb]; try congruence; try lia.
  intros E. injection E as _ E. lia.
Qed.

Lemma redirect_eqb op f b n j v :
  f <> op -> j < n -> (forall k, v <> OpResult f k) ->
  valueImpl_eqb (redirect op f 0 b n v) (OpResult f (b + j))
  = valueImpl_eqb v (OpResult op j).
Proof.
  intros Hne Hj Hnew.
  destruct (valueImpl_eqb v (OpResult op j)) eqn:E.
  - apply valueImpl_eqb_eq in E. subst v. unfold redirect.
    rewrite Nat.eqb_refl. cbn [andb].
    destruct (Nat.leb_spec 0 j), (Nat.ltb_spec j (0 + n)); try lia.
    cbn [andb]. apply valueImpl_eqb_eq. f_equal. lia.
  - apply valueImpl_eqb_neq in E. apply valueImpl_eqb_neq.
    destruct v as [o k|m]; [|discriminate]. unfold redirect.
    destruct (Nat.eqb_spec o op), (Nat.leb_spec 0 k),
      (Nat.ltb_spec k (0 + n)); cbn [andb]; try apply Hnew; try lia.
    subst o. intros E'. injection E' as E'.
    apply E. f_equal. lia.
Qed.

Lemma usesIn_mapOperands (f : Value -> Value) (o : Operation)
      (w w' : ValueImpl) :
  (forall v, In v (operands o) ->
     valueImpl_eqb (impl (f v)) w = valueImpl_eqb (impl v) w') ->
  usesIn (mapOperands f o) w = usesIn o w'.
Proof.
  intros H. unfold usesIn, mapOperands, withOperands. cbn.
  now rewrite (positions_map _ _ _ _ H).
Qed.

(** The uses after the consumer [op], of results [resultsFrom op 0 tys], was
    replaced by the values [resultsFrom f b tysf] of another operation. *)
Lemma uses_redirected (i : IR) (op f : OpId) (tys tysf : list Ty) (b : nat) :
  f <> op -> length tys = length tysf ->
  forall j, j < length tys ->
    let i' := eraseOp op (replaceResults (resultsFrom op 0 tys)
                                         (resultsFrom f b tysf) i) in
    uses i' (OpResult op j) = []
    /\ ((forall k, uses i (OpResult f k) = []) ->
        (forall o k, In o i -> opId o = op ->
                     usesIn o (OpResult op k) = []) ->
        uses i' (OpResult f (b + j)) = uses i (OpResult op j)).
Proof.
  intros Hne Hlen j Hj i'. subst i'. rewrite replaceResults_map.
  set (sigma := substAll _). split.
  - apply uses_nil. intros o' v' Ho' Hv'.
    apply In_eraseOp in Ho' as [Ho' _].
    apply in_map_iff in Ho' as (o & <- & _).
    cbn in Hv'. apply in_map_iff in Hv' as (v & <- & _).
    apply valueImpl_eqb_neq. unfold sigma.
    rewrite (substAll_impl Hne _ _ _ _ _ Hlen).
    now apply redirect_not_old.
  - intros Hunused Hself.
    assert (Hfresh : forall o v, In o i -> In v (operands o) ->
                                 forall k, impl v <> OpResult f k).
    { intros o v Ho Hv k. apply valueImpl_eqb_neq.
      exact (proj1 (uses_nil _ _) (Hunused k) o v Ho Hv). }
    clear Hunused. unfold uses.
    induction i as [|o i IH]; [reflexivity|].
    cbn [map eraseOp filter flat_map].
    replace (opId (mapOperands sigma o)) with (opId o) by reflexivity.
    assert (IH' : flat_map (fun o0 => usesIn o0 (OpResult f (b + j)))
                           (eraseOp op (map (mapOperands sigma) i))
                  = flat_map (fun o0 => usesIn o0 (OpResult op j)) i).
    { apply IH.
      - intros o0 k Ho0. apply Hself. now right.
      - intros o0 v Ho0. apply Hfresh. now right. }
    destruct (Nat.eqb_spec (opId o) op) as [E|E]; cbn [negb].
    + fold (eraseOp op (map (mapOperands sigma) i)). rewrite IH'.
      now rewrite (Hself o j (or_introl eq_refl) E).
    + cbn [flat_map]. fold (eraseOp op (map (mapOperands sigma) i)).
      rewrite IH'. f_equal.
      apply usesIn_mapOperands. intros v Hv. unfold sigma.
      rewrite (substAll_impl Hne _ _ _ _ _ Hlen).
      apply redirect_eqb; auto.
      exact (Hfresh o v (or_introl eq_refl) Hv).
Qed.

Lemma attrStep_getResults genericOp r i1 x :
  getResults (fst (attrStep genericOp r i1)) x = getResults i1 x.
Proof.
  unfold attrStep. destruct (getAttr i1 genericOp lowering_config); cbn [fst];
    [apply getResults_setAttr|reflexivity].
Qed.

Lemma attrStep_uses genericOp r i1 w :
  uses (fst (attrStep genericOp r i1)) w = uses i1 w.
Proof.
  unfold attrStep. destruct (getAttr i1 genericOp lowering_config); cbn [fst];
    [apply uses_setAttr|reflexivity].
Qed.

Lemma attrStep_In genericOp r i1 o :
  In o (fst (attrStep genericOp r i1)) ->
  exists o0, In o0 i1 /\ opId o = opId o0 /\ operands o = operands o0.
Proof.
  unfold attrStep. destruct (getAttr i1 genericOp lowering_config); cbn [fst].
  - unfold setAttr. intros H. apply in_map_iff in H as (o0 & <- & H).
    exists o0. split; [exact H|]. now destruct (opId o0 =? fusedOp r).
  - intros H. now exists o.
Qed.

(** C5.  After a successful rewrite the consumer is gone and none of its [N]
    results is read any more.  The values handed to [replaceOp] are the last
    [N] of the [M] results of the fused operation, and the edges that read
    result [j] of the consumer before the replacement are, one for one, the
    edges that read result [M - N + j] of the fused operation after it, given
    that the fused operation is a new one whose results nobody read yet and
    that the consumer did not read its own results. *)
Theorem results_remapped_in_order (linalg : LinalgTransforms) :
  FailedFusionKeepsIR linalg ->
  forall i genericOp s' e i1 r,
    matchAndRewrite genericOp (mkState i []) = Done success s' ->
    In (FuseAttempt e true) (log s') ->
    fuseElementwiseOps i e = (i1, Some r) ->
    fusedOp r <> genericOp ->
    (forall k, uses i1 (OpResult (fusedOp r) k) = []) ->
    (forall o k, In o i1 -> opId o = genericOp ->
                 usesIn o (OpResult genericOp k) = []) ->
    let N := getNumResults i1 genericOp in
    let M := getNumResults i1 (fusedOp r) in
    N <= M
    /\ getOp (ir s') genericOp = None
    /\ In (ReplaceOp genericOp (skipn (M - N) (getResults i1 (fusedOp r))))
          (log s')
    /\ forall j, j < N ->
         uses (ir s') (OpResult genericOp j) = []
         /\ uses (ir s') (OpResult (fusedOp r) (M - N + j))
            = uses i1 (OpResult genericOp j).
Proof.
  intros Hk i genericOp s' e i1 r Hrun Hin Hfuse Hne Hunused Hself N M.
  destruct (matchAndRewrite_success _ _ Hk Hrun)
    as (_ & before & e0 & after & i1' & r' & _ & Hfused).
  assert (e = e0)
    by (eapply FusedAt_attempt; [exact Hfused|reflexivity|exact Hin]).
  subst e0.
  pose proof Hfused as (_ & Hfuse' & _ & Hn & Hir & evs & Hlog & _).
  cbn [ir log] in Hfuse', Hlog. rewrite Hfuse in Hfuse'.
  injection Hfuse' as <- <-.
  unfold trailingResults, getNumResults in Hn, Hir, Hlog.
  rewrite !attrStep_getResults in Hn, Hir, Hlog.
  destruct (@take_back_skipn _ _ _ (eq_sym Hn)) as [Hle Htake].
  fold (getNumResults i1 genericOp) in Hle, Htake.
  fold (getNumResults i1 (fusedOp r)) in Hle, Htake.
  fold N in Hle, Htake. fold M in Hle, Htake.
  fold (getNumResults i1 genericOp) in Hir, Hlog. fold N in Hir, Hlog.
  rewrite Htake in Hir, Hlog.
  split; [exact Hle|]. split; [exact (FusedAt_erased Hfused)|]. split.
  { rewrite Hlog. cbn [app]. apply in_or_app. right.
    right. right. apply in_or_app. right. now left. }
  intros j Hj.
  destruct (getResults_resultsFrom i1 genericOp) as (tys & Htys).
  destruct (getResults_resultsFrom i1 (fusedOp r)) as (tysf & Htysf).
  assert (HN : N = length tys)
    by (unfold N, getNumResults; now rewrite Htys, resultsFrom_length).
  assert (HM : M = length tysf)
    by (unfold M, getNumResults; now rewrite Htysf, resultsFrom_length).
  rewrite Htys, Htysf, resultsFrom_skipn in Hir. cbn [Nat.add] in Hir.
  assert (Hlen : length tys = length (skipn (M - N) tysf))
    by (rewrite length_skipn; lia).
  rewrite HN in Hj.
  destruct (@uses_redirected (fst (attrStep genericOp r i1)) genericOp
              (fusedOp r) tys (skipn (M - N) tysf) (M - N) Hne Hlen j Hj)
    as [Hold Hnew].
  cbv zeta in Hold, Hnew. rewrite <- Hir in Hold, Hnew.
  split; [exact Hold|].
  rewrite Hnew.
  - apply attrStep_uses.
  - intros k. rewrite attrStep_uses. apply Hunused.
  - intros o k Ho Hid. apply attrStep_In in Ho as (o0 & Ho0 & Eid & Eops).
    unfold usesIn. rewrite Eops.
    specialize (Hself o0 k Ho0 (eq_trans (eq_sym Eid) Hid)).
    unfold usesIn in Hself. apply map_eq_nil in Hself. now rewrite Hself.
Qed.

Lemma results_remapped_in_order_witness :
  exists s' i1 r,
    matchAndRewrite (linalg := specLinalg) 4 (mkState diamond [])
    = Done success s'
    /\ specFuse diamond (mkOpOperand 4 0) = (i1, Some r)
    /\ getNumResults i1 4 = 1
    /\ getNumResults i1 (fusedOp r) = 2
    /\ uses i1 (OpResult 4 0) = [mkOpOperand 6 0]
    /\ uses (ir s') (OpResult 4 0) = []
    /\ uses (ir s') (OpResult (fusedOp r) 1) = uses i1 (OpResult 4 0).
Proof.
  do 3 eexists.
  split; [reflexivity|]. split; [reflexivity|].
  split; [reflexivity|]. split; [reflexivity|]. split; [reflexivity|].
  refine (proj2 (proj2 (proj2
            (@results_remapped_in_order specLinalg specLinalg_failure_keeps
               diamond 4 _ (mkOpOperand 4 0) _ _ eq_refl _ eq_refl _ _ _)))
            0 _).
  - cbn. auto.
  - discriminate.
  - intros k. reflexivity.
  - intros o k Ho Hid. cbn in Ho.
    repeat (destruct Ho as [<-|Ho]; [try discriminate Hid; reflexivity|]).
    destruct Ho.
  - cbn. lia.
Defined.

(* ================================================================= *)
(** ** The two scenarios of the specification, run through the pass *)

(** One producer, one consumer: a single fused operation is left, it carries
    the consumer's configuration, and the function returns its result. *)
Example pass_on_squareAdd :
  runOnOperation (linalg := specLinalg) (greedy := specGreedy)
                 None (mkFuncOp "f" squareAdd)
  = mkPassResult
      (mkFuncOp "f"
         [ generic 4 [arg 0 tensor4; arg 1 tensor4] [tensor4]
                   [("lowering_config", StringAttr "C")];
           ret_ 3 [res 4 0 tensor4] ])
      false.
Proof. reflexivity. Qed.

(** One producer, two consumers: the producer is fused into both and is gone;
    no fusable edge is left. *)
Example pass_on_twoConsumers :
  let r := runOnOperation (linalg := specLinalg) (greedy := specGreedy)
                          None (mkFuncOp "f" twoConsumers) in
  passFailed r = false
  /\ getOp (body (funcAfter r)) 1 = None
  /\ map (fun o => (opId o, map impl (operands o))) (body (funcAfter r))
     = [ (5, [BlockArgument 0; BlockArgument 1]);
         (6, [BlockArgument 0; BlockArgument 2]);
         (4, [OpResult 5 1; OpResult 6 0]) ]
  /\ fusableEdges (linalg := specLinalg) (body (funcAfter r)) = [].
Proof. repeat split. Qed.

(* ================================================================= *)
(** ** More on the scalar guard *)

Lemma ExactFrom_nonneg (shape : list Z) :
  forall num, ExactFrom num shape -> Forall (fun d => 0 <= d)%Z shape.
Proof.
  induction shape as [|d shape IH]; intros num H; [constructor|].
  destruct H as (Hd & _ & H). constructor; [exact Hd|exact (IH _ H)].
Qed.

Lemma exactFromb_sound (shape : list Z) :
  forall num, exactFromb num shape = true -> ExactFrom num shape.
Proof.
  induction shape as [|d shape IH]; intros num H; cbn in *; [exact I|].
  apply andb_true_iff in H as [H H3]. apply andb_true_iff in H as [H1 H2].
  split; [now apply Z.leb_le|]. split; [now apply Z.ltb_lt|now apply IH].
Qed.

Lemma exactTyb_sound (t : Ty) : exactTyb t = true -> ExactTy t.
Proof.
  destruct t; cbn; try (intros; exact I).
  intros H Hs. rewrite Hs in H. cbn in H. now apply exactFromb_sound.
Qed.

Lemma Forall_ExactTy (l : list Ty) :
  forallb exactTyb l = true -> Forall ExactTy l.
Proof.
  intros H. apply Forall_forall. intros t Ht.
  apply exactTyb_sound. rewrite forallb_forall in H. now apply H.
Qed.

(** X1.  On a ranked tensor whose shape is dynamic, or static with
    non-negative extents whose running products fit an [int64_t],
    [isScalarOrTensorOfSizeOne] returns, and it answers true exactly when
    every extent is one: a rank-0 tensor passes, a tensor with a dynamic or a
    zero extent does not, whatever the other extents and the element type.
    (When a running product overflows, the answer is that of the wrapped
    product, or the assertion of [getNumElements] fails: see below.) *)
Theorem tensor_guard_iff_all_ones (shape : list Z) (elt : Ty) :
  (hasStaticShape shape = true -> Exact shape) ->
  exists b,
    isScalarOrTensorOfSizeOne (RankedTensorType shape elt) = Some b
    /\ (b = true <-> Forall (fun d => d = 1%Z) shape).
Proof.
  intros Hex. cbn. destruct (hasStaticShape shape) eqn:Hs.
  - specialize (Hex eq_refl). rewrite (@getNumElements_exact shape Hex).
    exists (product shape =? 1)%Z. split; [reflexivity|].
    rewrite Z.eqb_eq. apply product_one.
    exact (ExactFrom_nonneg _ _ Hex).
  - exists false. split; [reflexivity|]. split; [discriminate|].
    intros Hall.
    assert (Hst : hasStaticShape shape = true); [|congruence].
    apply hasStaticShape_Forall. rewrite Forall_forall in *.
    intros d Hd. rewrite (Hall d Hd). discriminate.
Qed.

Lemma tensor_guard_iff_all_ones_witness :
  isScalarOrTensorOfSizeOne (RankedTensorType [] (FloatType 32)) = Some true
  /\ isScalarOrTensorOfSizeOne
       (RankedTensorType [1%Z; 1%Z; 1%Z] (IntegerType 8)) = Some true
  /\ isScalarOrTensorOfSizeOne
       (RankedTensorType [1%Z; kDynamic] (FloatType 32)) = Some false
  /\ isScalarOrTensorOfSizeOne
       (RankedTensorType [1%Z; 0%Z; 7%Z] (FloatType 32)) = Some false.
Proof.
  split; [|split; [|split]].
  - destruct (@tensor_guard_iff_all_ones [] (FloatType 32)
                (fun _ => exactFromb_sound [] 1 eq_refl))
      as ([|] & E & H); [exact E|].
    now specialize (proj2 H (Forall_nil _)).
  - destruct (@tensor_guard_iff_all_ones [1%Z; 1%Z; 1%Z] (IntegerType 8)
                (fun _ => exactFromb_sound [1%Z; 1%Z; 1%Z] 1 eq_refl))
      as ([|] & E & H); [exact E|].
    now specialize (proj2 H ltac:(repeat constructor)).
  - destruct (@tensor_guard_iff_all_ones [1%Z; kDynamic] (FloatType 32)
                ltac:(discriminate))
      as ([|] & E & H); [|exact E].
    specialize (proj1 H eq_refl) as Hall.
    inversion Hall as [|? ? _ H']. inversion H' as [|? ? E' _].
    discriminate E'.
  - destruct (@tensor_guard_iff_all_ones [1%Z; 0%Z; 7%Z] (FloatType 32)
                (fun _ => exactFromb_sound [1%Z; 0%Z; 7%Z] 1 eq_refl))
      as ([|] & E & H); [|exact E].
    specialize (proj1 H eq_refl) as Hall.
    inversion Hall as [|? ? _ H']. inversion H' as [|? ? E' _].
    discriminate E'.
Defined.

(** Outside that range the guard counts as the machine does: a shape of more
    than one element whose product wraps to one is accepted, and a product
    that wraps below zero stops the guard. *)
Example guard_accepts_wrapped_one :
  product [274177%Z; 67280421310721%Z] = (2 ^ 64 + 1)%Z
  /\ isScalarOrTensorOfSizeOne
       (RankedTensorType [274177%Z; 67280421310721%Z] (FloatType 32))
     = Some true.
Proof. split; reflexivity. Qed.

Example guard_stops_on_overflow :
  isScalarOrTensorOfSizeOne
    (RankedTensorType [4294967296%Z; 2147483648%Z] (FloatType 32)) = None.
Proof. reflexivity. Qed.

(* ================================================================= *)
(** ** More on the rewrite rule *)

(** X2.  An operation without operands is never rewritten, whatever its
    results are: the rule returns failure and the state, log included, is
    what it was, unless the guard stops on the overflow assertion while
    looking at a result; it returns failure whenever the guard returns. *)
Theorem no_operand_no_rewrite (linalg : LinalgTransforms) :
  forall genericOp s,
    getOperands (ir s) genericOp = [] ->
    matchAndRewrite genericOp s
    = match all_of isScalarValue (getResults (ir s) genericOp) with
      | Some _ => Done failure s
      | None => Aborted overflowMessage
      end
    /\ (allScalar (ir s) genericOp <> None ->
        matchAndRewrite genericOp s = Done failure s).
Proof.
  intros genericOp s Hops. rewrite matchAndRewrite_eq.
  unfold getOpOperands, allScalar. rewrite Hops. cbn.
  destruct (all_of isScalarValue (getResults (ir s) genericOp)) as [[|]|];
    split; try reflexivity; intros H; now destruct H.
Qed.

Lemma no_operand_no_rewrite_witness :
  allScalar sourceOnly 1 = Some false
  /\ matchAndRewrite (linalg := specLinalg) 1 (mkState sourceOnly [])
     = Done failure (mkState sourceOnly []).
Proof.
  split; [reflexivity|].
  apply (@no_operand_no_rewrite specLinalg 1 (mkState sourceOnly []));
    [reflexivity|discriminate].
Defined.

Lemma Guarded_app (l1 l2 : list Event) :
  Guarded l1 -> Guarded l2 -> Guarded (l1 ++ l2).
Proof.
  intros H1 H2. induction H1; cbn.
  - exact H2.
  - now apply Guarded_attempt.
  - now apply Guarded_other.
Qed.

Lemma Skipped_guarded (linalg : LinalgTransforms) s l s' :
  Skipped linalg s l s' ->
  exists evs, log s' = log s ++ evs /\ Guarded evs.
Proof.
  intros H. induction H.
  - exists []. split; [now rewrite app_nil_r|constructor].
  - destruct IHSkipped as (evs & Hl & Hg). cbn in Hl.
    exists (QueryFusable e false :: evs). split.
    + now rewrite Hl, <- app_assoc.
    + now apply Guarded_other.
  - destruct IHSkipped as (evs & Hl & Hg). cbn in Hl.
    exists (QueryFusable e true :: FuseAttempt e false :: evs). split.
    + now rewrite Hl, <- !app_assoc.
    + now apply Guarded_attempt.
Qed.

Lemma Guarded_attrStep genericOp r i1 :
  Guarded (snd (attrStep genericOp r i1)).
Proof.
  unfold attrStep. destruct (getAttr i1 genericOp lowering_config); cbn.
  - apply Guarded_other; [reflexivity|constructor].
  - constructor.
Qed.

(** What [Guarded] says of a log, spelled out. *)
Lemma Guarded_preceded (evs : list Event) :
  Guarded evs ->
  forall pre e ok post,
    evs = pre ++ FuseAttempt e ok :: post ->
    exists pre', pre = pre' ++ [QueryFusable e true].
Proof.
  intros H. induction H; intros pre e0 ok0 post E.
  - now destruct pre.
  - destruct pre as [|x [|y pre]]; cbn in E.
    + discriminate.
    + inversion E; subst. now exists [].
    + inversion E as [[Ex Ey El]].
      destruct (IHGuarded _ _ _ _ El) as (pre' & ->).
      exists (x :: y :: pre'). now rewrite <- Ex, <- Ey.
  - destruct pre as [|x pre]; cbn in E.
    + inversion E; subst. discriminate.
    + inversion E as [[Ex El]].
      destruct (IHGuarded _ _ _ _ El) as (pre' & ->).
      exists (x :: pre'). now rewrite <- Ex.
Qed.

(** X3.  Whatever the oracle, the rule calls [fuseElementwiseOps] on an edge
    only right after [areElementwiseOpsFusable] accepted that edge: in the
    log of a run that returns, every fusion attempt is immediately preceded
    by the accepted legality query of the same edge. *)
Theorem fusion_attempted_only_after_legality (linalg : LinalgTransforms) :
  forall genericOp s res s',
    matchAndRewrite genericOp s = Done res s' ->
    exists evs,
      log s' = log s ++ evs
      /\ Guarded evs
      /\ forall pre e ok post,
           evs = pre ++ FuseAttempt e ok :: post ->
           exists pre', pre = pre' ++ [QueryFusable e true].
Proof.
  intros genericOp s res s' H.
  assert (Hg : exists evs, log s' = log s ++ evs /\ Guarded evs).
  { rewrite matchAndRewrite_eq in H.
    destruct (allScalar (ir s) genericOp) as [[|]|]; [| |discriminate].
    - injection H as _ <-. exists []. split; [now rewrite app_nil_r|constructor].
    - destruct res.
      + apply fuseFirstOperand_success in H
          as (before & e & after & s1 & i1 & r & _ & Hsk & _ & _ & Hfin).
        destruct (Skipped_guarded Hsk) as (evs & Hlog & Hg).
        rewrite finishFusion_eq in Hfin. cbv zeta in Hfin.
        cbn [ir log] in Hfin.
        destruct (_ =? _) in Hfin; [|discriminate].
        injection Hfin as <-. cbn [log].
        eexists. split.
        * rewrite Hlog, <- !app_assoc. reflexivity.
        * apply Guarded_app; [exact Hg|]. cbn [app].
          apply Guarded_attempt. apply Guarded_app.
          -- apply Guarded_attrStep.
          -- apply Guarded_other; [reflexivity|constructor].
      + apply fuseFirstOperand_failure in H.
        exact (Skipped_guarded H). }
  destruct Hg as (evs & Hlog & Hg).
  exists evs. split; [exact Hlog|]. split; [exact Hg|].
  now apply Guarded_preceded.
Qed.

Lemma fusion_attempted_only_after_legality_witness :
  exists s' evs,
    matchAndRewrite (linalg := reluctantLinalg) 3 (mkState twoProducers [])
    = Done success s'
    /\ log s' = [] ++ evs
    /\ Guarded evs
    /\ length (filter isFuseAttempt evs) = 2.
Proof.
  destruct (@fusion_attempted_only_after_legality reluctantLinalg 3
              (mkState twoProducers []) _ _ eq_refl)
    as (evs & Hlog & Hg & _).
  do 2 eexists. split; [reflexivity|].
  split; [exact Hlog|]. split; [exact Hg|].
  cbn in Hlog. rewrite <- Hlog. reflexivity.
Defined.

(** X9.  A control function that accepts the function makes no difference:
    the pass does what it does without one. *)
Theorem accepting_control_is_no_control (linalg : LinalgTransforms)
        (greedy : GreedyRewrite) :
  forall controlFn funcOp,
    controlFn funcOp = true ->
    runOnOperation (Some controlFn) funcOp = runOnOperation None funcOp.
Proof.
  intros controlFn funcOp H. rewrite !runOnOperation_eq. cbn. now rewrite H.
Qed.

Lemma accepting_control_is_no_control_witness :
  runOnOperation (linalg := specLinalg) (greedy := specGreedy)
                 (Some (fun f => String.eqb (sym_name f) "main"))
                 (mkFuncOp "main" squareAdd)
  = runOnOperation (linalg := specLinalg) (greedy := specGreedy)
                   None (mkFuncOp "main" squareAdd).
Proof.
  apply (@accepting_control_is_no_control specLinalg specGreedy).
  reflexivity.
Defined.

(* ================================================================= *)
(** ** When the rule fires, and when it aborts *)

Lemma take_back_length {A : Type} (n : nat) (l : list A) :
  length (take_back n l) = Nat.min n (length l).
Proof.
  unfold take_back. destruct (length l <=? n) eqn:E.
  - apply Nat.leb_le in E. lia.
  - apply Nat.leb_gt in E. rewrite length_skipn. lia.
Qed.

Section FiringAndAborting.

Context {linalg : LinalgTransforms}.

Lemma Skipped_of_edges (before : list OpOperand) :
  FailedFusionKeepsIR linalg ->
  forall s,
    (forall x, In x before ->
       areElementwiseOpsFusable (ir s) x = false
       \/ snd (fuseElementwiseOps (ir s) x) = None) ->
    exists s1, Skipped linalg s before s1 /\ ir s1 = ir s.
Proof.
  intros Hk. induction before as [|x before IH]; intros s H.
  - exists s. split; [constructor|reflexivity].
  - destruct (areElementwiseOpsFusable (ir s) x) eqn:Hf.
    + destruct (H x (or_introl eq_refl)) as [H'|H']; [congruence|].
      destruct (fuseElementwiseOps (ir s) x) as [i1 o] eqn:Hfuse.
      cbn in H'. subst o. pose proof (Hk _ _ _ Hfuse) as Hi.
      unfold FailedFusionKeepsIR in Hk. subst i1.
      destruct (IH (mkState (ir s) (log s ++ [QueryFusable x true]
                                          ++ [FuseAttempt x false])))
        as (s1 & Hsk & Hir); [intros y Hy; apply H; now right|].
      exists s1. split; [|exact Hir].
      eapply Skipped_failed; eauto.
    + destruct (IH (mkState (ir s) (log s ++ [QueryFusable x false])))
        as (s1 & Hsk & Hir); [intros y Hy; apply H; now right|].
      exists s1. split; [|exact Hir].
      now apply Skipped_refused.
Qed.

Lemma fuseFirstOperand_app genericOp before rest s s1 :
  Skipped linalg s before s1 ->
  fuseFirstOperand genericOp (before ++ rest) s
  = fuseFirstOperand genericOp rest s1.
Proof.
  intros H. induction H; cbn [app].
  - reflexivity.
  - rewrite fuseFirstOperand_cons, H. exact IHSkipped.
  - rewrite fuseFirstOperand_cons, H, H0. exact IHSkipped.
Qed.

(** A loop that aborts has skipped a prefix of the edges and aborted in what
    follows the fusion of the next one. *)
Lemma fuseFirstOperand_aborted genericOp l :
  forall s msg,
    fuseFirstOperand genericOp l s = Aborted msg ->
    exists before e after s1 i1 r,
      l = before ++ e :: after
      /\ Skipped linalg s before s1
      /\ areElementwiseOpsFusable (ir s1) e = true
      /\ fuseElementwiseOps (ir s1) e = (i1, Some r)
      /\ finishFusion genericOp r
           (mkState i1 (log s1 ++ [QueryFusable e true]
                               ++ [FuseAttempt e true]))
         = Aborted msg.
Proof.
  induction l as [|e l IH]; intros s msg H.
  - cbn in H. discriminate.
  - rewrite fuseFirstOperand_cons in H.
    destruct (areElementwiseOpsFusable (ir s) e) eqn:Hf.
    + destruct (fuseElementwiseOps (ir s) e) as [i1 [r|]] eqn:Hfuse;
        cbn [fst snd] in H.
      * exists [], e, l, s, i1, r. repeat split; auto. constructor.
      * destruct (IH _ _ H)
          as (before & e' & after & s1 & i1' & r & -> & Hsk & He & Hfu & Hfin).
        exists (e :: before), e', after, s1, i1', r.
        repeat split; auto. eapply Skipped_failed; eauto.
    + destruct (IH _ _ H)
        as (before & e' & after & s1 & i1' & r & -> & Hsk & He & Hfu & Hfin).
      exists (e :: before), e', after, s1, i1', r.
      repeat split; auto. now apply Skipped_refused.
Qed.

(** What decides between success and abort once a fusion has succeeded: the
    fused operation has at least as many results as the consumer, or not. *)
Lemma finishFusion_outcome genericOp r s :
  let N := getNumResults (ir s) genericOp in
  let M := getNumResults (ir s) (fusedOp r) in
  (N <= M ->
   finishFusion genericOp r s
   = Done success
       (mkState (eraseOp genericOp
                   (replaceResults (getResults (ir s) genericOp)
                      (skipn (M - N) (getResults (ir s) (fusedOp r)))
                      (fst (attrStep genericOp r (ir s)))))
                (log s ++ snd (attrStep genericOp r (ir s))
                       ++ [ReplaceOp genericOp
                             (skipn (M - N)
                                    (getResults (ir s) (fusedOp r)))])))
  /\ (M < N ->
      finishFusion genericOp r s
      = Aborted "incorrect # of replacement values").
Proof.
  intros N M. rewrite finishFusion_eq. cbv zeta.
  unfold trailingResults, getNumResults.
  rewrite !attrStep_getResults.
  fold (getNumResults (ir s) genericOp). fold N.
  pose proof (take_back_length N (getResults (ir s) (fusedOp r))) as Hlen.
  fold (getNumResults (ir s) (fusedOp r)) in Hlen. fold M in Hlen.
  split; intros H.
  - assert (E : length (take_back N (getResults (ir s) (fusedOp r))) = N)
      by lia.
    destruct (take_back_skipn _ E) as [_ Htake].
    fold (getNumResults (ir s) (fusedOp r)) in Htake. fold M in Htake.
    rewrite E, Nat.eqb_refl, Htake. reflexivity.
  - destruct (Nat.eqb_spec N
                (length (take_back N (getResults (ir s) (fusedOp r)))));
      [lia|reflexivity].
Qed.

End FiringAndAborting.

(** X4.  The rule fires whenever it can: past the scalar guard, if the
    edges before [e] are refused or fail to fuse, [e] is accepted and its
    fusion succeeds with at least as many results as the consumer has, the
    rule returns success, and the IR it leaves is the IR the fusion returned
    with the consumer's configuration re-attached, the uses of the consumer's
    results redirected to the last results of the fused operation and the
    consumer erased. *)
Theorem rewrite_fires_when_an_edge_fuses (linalg : LinalgTransforms) :
  FailedFusionKeepsIR linalg ->
  forall genericOp s before e after i1 r,
    allScalar (ir s) genericOp = Some false ->
    getOpOperands (ir s) genericOp = before ++ e :: after ->
    (forall x, In x before ->
       areElementwiseOpsFusable (ir s) x = false
       \/ snd (fuseElementwiseOps (ir s) x) = None) ->
    areElementwiseOpsFusable (ir s) e = true ->
    fuseElementwiseOps (ir s) e = (i1, Some r) ->
    getNumResults i1 genericOp <= getNumResults i1 (fusedOp r) ->
    exists s',
      matchAndRewrite genericOp s = Done success s'
      /\ ir s'
         = eraseOp genericOp
             (replaceResults
                (getResults i1 genericOp)
                (skipn (getNumResults i1 (fusedOp r)
                        - getNumResults i1 genericOp)
                       (getResults i1 (fusedOp r)))
                (fst (attrStep genericOp r i1))).
Proof.
  intros Hk genericOp s before e after i1 r Hguard Hsplit Hbefore He Hfuse Hn.
  destruct (Skipped_of_edges before Hk s Hbefore) as (s1 & Hsk & Hir).
  rewrite matchAndRewrite_eq, Hguard, Hsplit.
  rewrite (fuseFirstOperand_app genericOp (e :: after) Hsk).
  rewrite fuseFirstOperand_cons, Hir, He, Hfuse. cbn [fst snd].
  eexists. split.
  - apply (proj1 (finishFusion_outcome genericOp r (mkState i1 _))).
    exact Hn.
  - reflexivity.
Qed.

Lemma rewrite_fires_when_an_edge_fuses_witness :
  exists i1 r s',
    @fuseElementwiseOps reluctantLinalg twoProducers (mkOpOperand 3 1)
    = (i1, Some r)
    /\ matchAndRewrite (linalg := reluctantLinalg) 3 (mkState twoProducers [])
       = Done success s'
    /\ getOp (ir s') 3 = None.
Proof.
  do 2 eexists.
  destruct (@rewrite_fires_when_an_edge_fuses reluctantLinalg
              reluctantLinalg_failure_keeps 3 (mkState twoProducers [])
              [mkOpOperand 3 0] (mkOpOperand 3 1) [] _ _
              eq_refl eq_refl
              ltac:(intros x [<-|[]]; right; reflexivity)
              eq_refl eq_refl ltac:(cbn; lia))
    as (s' & Hrun & Hir).
  exists s'. split; [reflexivity|]. split; [exact Hrun|].
  rewrite Hir. apply getOp_eraseOp_same.
Defined.

(** X5.  The rule stops on a failed assertion in two cases, and in no
    other: the guard runs into the overflow assertion of [getNumElements]; or
    the guard lets the candidate through and the first edge that is accepted
    and fuses yields a fused operation with fewer results than the consumer
    has, so that [take_back] cannot supply one replacement per result and the
    assertion of [replaceOp] fails. *)
Theorem abort_means_too_few_results (linalg : LinalgTransforms) :
  FailedFusionKeepsIR linalg ->
  forall genericOp s msg,
    matchAndRewrite genericOp s = Aborted msg
    <-> (allScalar (ir s) genericOp = None /\ msg = overflowMessage)
        \/ (allScalar (ir s) genericOp = Some false
            /\ msg = replaceMessage
            /\ exists before e after i1 r,
                 getOpOperands (ir s) genericOp = before ++ e :: after
                 /\ (forall x, In x before ->
                       areElementwiseOpsFusable (ir s) x = false
                       \/ snd (fuseElementwiseOps (ir s) x) = None)
                 /\ areElementwiseOpsFusable (ir s) e = true
                 /\ fuseElementwiseOps (ir s) e = (i1, Some r)
                 /\ getNumResults i1 (fusedOp r)
                    < getNumResults i1 genericOp).
Proof.
  intros Hk genericOp s msg. rewrite matchAndRewrite_eq. split.
  - intros H.
    destruct (allScalar (ir s) genericOp) as [[|]|]; [discriminate| |].
    + right. split; [reflexivity|].
      apply fuseFirstOperand_aborted in H
        as (before & e & after & s1 & i1 & r & Hl & Hsk & He & Hfu & Hfin).
      pose proof (Skipped_ir Hk Hsk) as Hir.
      pose proof (Skipped_edges Hk Hsk) as Hedges.
      rewrite Hir in He, Hfu.
      destruct (Nat.le_gt_cases (getNumResults i1 genericOp)
                                (getNumResults i1 (fusedOp r))) as [Hle|Hgt].
      * rewrite (proj1 (finishFusion_outcome genericOp r (mkState i1 _)) Hle)
          in Hfin.
        discriminate.
      * rewrite (proj2 (finishFusion_outcome genericOp r (mkState i1 _)) Hgt)
          in Hfin.
        injection Hfin as <-. split; [reflexivity|].
        exists before, e, after, i1, r. repeat split; auto.
    + left. injection H as <-. now split.
  - intros [[Hguard ->]|(Hguard & -> & before & e & after & i1 & r
                          & Hsplit & Hbefore & He & Hfuse & Hlt)];
      rewrite Hguard; [reflexivity|].
    destruct (Skipped_of_edges before Hk s Hbefore) as (s1 & Hsk & Hir).
    rewrite Hsplit, (fuseFirstOperand_app genericOp (e :: after) Hsk).
    rewrite fuseFirstOperand_cons, Hir, He, Hfuse. cbn [fst snd].
    exact (proj2 (finishFusion_outcome genericOp r (mkState i1 _)) Hlt).
Qed.

Lemma stingyLinalg_failure_keeps : FailedFusionKeepsIR stingyLinalg.
Proof.
  intros i e i1. cbn. destruct (specFusable i e); [|now intros [= <-]].
  destruct (getOp i (owner e)); [discriminate|now intros [= <-]].
Qed.

Lemma abort_means_too_few_results_witness :
  (exists i1 r,
      @fuseElementwiseOps stingyLinalg squareAdd (mkOpOperand 2 0)
      = (i1, Some r)
      /\ getNumResults i1 (fusedOp r) = 0
      /\ getNumResults i1 2 = 1
      /\ matchAndRewrite (linalg := stingyLinalg) 2 (mkState squareAdd [])
         = Aborted replaceMessage)
  /\ (allScalar overflowing 1 = None
      /\ matchAndRewrite (linalg := specLinalg) 1 (mkState overflowing [])
         = Aborted overflowMessage).
Proof.
  split.
  - do 2 eexists. split; [reflexivity|]. split; [reflexivity|].
    split; [reflexivity|].
    apply (proj2 (@abort_means_too_few_results stingyLinalg
                    stingyLinalg_failure_keeps 2 (mkState squareAdd [])
                    replaceMessage)).
    right. split; [reflexivity|]. split; [reflexivity|].
    exists [], (mkOpOperand 2 0), [mkOpOperand 2 1]. do 2 eexists.
    split; [reflexivity|]. split; [intros x []|].
    split; [reflexivity|]. split; [reflexivity|]. cbn. lia.
  - split; [reflexivity|].
    apply (proj2 (@abort_means_too_few_results specLinalg
                    specLinalg_failure_keeps 1 (mkState overflowing [])
                    overflowMessage)).
    left. split; reflexivity.
Defined.

(* ================================================================= *)
(** ** What a successful rewrite leaves alone *)

Lemma lookupAttr_updateAttr_other name name' a l :
  name' <> name ->
  lookupAttr name' (updateAttr name a l) = lookupAttr name' l.
Proof.
  intros Hne. induction l as [|[k v] l IH]; cbn.
  - destruct (String.eqb_spec name name'); [congruence|reflexivity].
  - destruct (String.eqb_spec k name) as [->|Hk]; cbn.
    + destruct (String.eqb_spec name name'); [congruence|reflexivity].
    + destruct (String.eqb k name'); [reflexivity|exact IH].
Qed.

Lemma getAttr_setAttr_other_name (i : IR) (op x : OpId) name name' a :
  name' <> name -> getAttr (setAttr i op name a) x name' = getAttr i x name'.
Proof.
  intros Hne. unfold getAttr. rewrite getOp_setAttr.
  destruct (getOp i x) as [o|]; [|reflexivity]. cbn.
  destruct (opId o =? op); [|reflexivity]. cbn.
  now apply lookupAttr_updateAttr_other.
Qed.

Lemma skeleton_erase_map (g : Operation -> Operation) (op : OpId) (i : IR) :
  (forall o, skeleton (g o) = skeleton o) ->
  map skeleton (eraseOp op (map g i)) = map skeleton (eraseOp op i).
Proof.
  intros Hg. unfold eraseOp. induction i as [|o i IH]; cbn; [reflexivity|].
  assert (Hid : opId (g o) = opId o)
    by (specialize (Hg o); unfold skeleton in Hg; congruence).
  rewrite Hid. destruct (opId o =? op); cbn; [exact IH|].
  now rewrite Hg, IH.
Qed.

Lemma uses_erase_map (f : Value -> Value) (op : OpId) (w : ValueImpl)
      (i : IR) :
  (forall v, valueImpl_eqb (impl (f v)) w = valueImpl_eqb (impl v) w) ->
  uses (eraseOp op (map (mapOperands f) i)) w = uses (eraseOp op i) w.
Proof.
  intros Hf. unfold uses, eraseOp.
  induction i as [|o i IH]; cbn [map filter flat_map]; [reflexivity|].
  replace (opId (mapOperands f o)) with (opId o) by reflexivity.
  destruct (opId o =? op); cbn [negb flat_map]; [exact IH|].
  rewrite IH. f_equal. apply usesIn_mapOperands. intros v _. apply Hf.
Qed.

Lemma redirect_eqb_other op f b n v w :
  (forall k, w <> OpResult op k) -> (forall k, w <> OpResult f k) ->
  valueImpl_eqb (redirect op f 0 b n v) w = valueImpl_eqb v w.
Proof.
  intros Hop Hf. destruct v as [o k|m]; [|reflexivity]. unfold redirect.
  destruct ((o =? op) && (0 <=? k) && (k <? 0 + n)) eqn:E; [|reflexivity].
  apply andb_true_iff in E as [E _]. apply andb_true_iff in E as [E _].
  apply Nat.eqb_eq in E. subst o.
  transitivity false; [|symmetry]; apply valueImpl_eqb_neq; auto.
Qed.

Lemma uses_erase_setAttr (i : IR) (op x : OpId) name a (w : ValueImpl) :
  uses (eraseOp op (setAttr i x name a)) w = uses (eraseOp op i) w.
Proof.
  unfold uses, eraseOp, setAttr.
  induction i as [|o i IH]; cbn [map filter flat_map]; [reflexivity|].
  replace (opId (if opId o =? x
                 then withAttrs o (updateAttr name a (attrs o))
                 else o)) with (opId o)
    by (now destruct (opId o =? x)).
  destruct (opId o =? op); cbn [negb flat_map]; [exact IH|].
  rewrite IH. f_equal. now destruct (opId o =? x).
Qed.

Section Frame.

Context {linalg : LinalgTransforms}.

(** The fusion a successful run reports in its log is the one it was built
    on. *)
Lemma success_ir genericOp i s' e i1 r :
  FailedFusionKeepsIR linalg ->
  matchAndRewrite genericOp (mkState i []) = Done success s' ->
  In (FuseAttempt e true) (log s') ->
  fuseElementwiseOps i e = (i1, Some r) ->
  let ia := fst (attrStep genericOp r i1) in
  ir s' = eraseOp genericOp
            (replaceResults (getResults ia genericOp)
                            (trailingResults genericOp r ia) ia)
  /\ getNumResults ia genericOp = length (trailingResults genericOp r ia).
Proof.
  intros Hk Hrun Hin Hfuse ia.
  destruct (matchAndRewrite_success _ _ Hk Hrun)
    as (_ & before & e0 & after & i1' & r' & _ & Hfused).
  assert (e = e0)
    by (eapply FusedAt_attempt; [exact Hfused|reflexivity|exact Hin]).
  subst e0.
  destruct Hfused as (_ & Hfuse' & _ & Hn & Hir & _).
  cbn [ir] in Hfuse'. rewrite Hfuse in Hfuse'. injection Hfuse' as <- <-.
  split; [exact Hir|exact Hn].
Qed.

End Frame.

(** X6.  A successful rewrite sets one attribute, [lowering_config] on the
    fused operation, and no other: every other attribute of the fused
    operation, and every attribute of every other operation that stays, is
    what the fusion left.  The other attributes of the consumer are not
    carried over. *)
Theorem only_lowering_config_is_set (linalg : LinalgTransforms) :
  FailedFusionKeepsIR linalg ->
  forall i genericOp s' e i1 r,
    matchAndRewrite genericOp (mkState i []) = Done success s' ->
    In (FuseAttempt e true) (log s') ->
    fuseElementwiseOps i e = (i1, Some r) ->
    forall x name,
      x <> genericOp ->
      (x = fusedOp r -> name <> lowering_config) ->
      getAttr (ir s') x name = getAttr i1 x name.
Proof.
  intros Hk i genericOp s' e i1 r Hrun Hin Hfuse x name Hx Hname.
  destruct (@success_ir linalg genericOp i s' e i1 r Hk Hrun Hin Hfuse) as [Hir _]. cbv zeta in Hir.
  rewrite Hir, getAttr_eraseOp_other, getAttr_replaceResults by exact Hx.
  unfold attrStep.
  destruct (getAttr i1 genericOp lowering_config) as [a|]; cbn [fst];
    [|reflexivity].
  destruct (Nat.eq_dec x (fusedOp r)) as [E|E].
  - apply getAttr_setAttr_other_name. now apply Hname.
  - now apply getAttr_setAttr_other.
Qed.

Lemma only_lowering_config_is_set_witness :
  exists s' i1 r,
    matchAndRewrite (linalg := specLinalg) 2 (mkState annotated [])
    = Done success s'
    /\ specFuse annotated (mkOpOperand 2 0) = (i1, Some r)
    /\ getAttr annotated 2 "compilation_info" = Some (StringAttr "I")
    /\ getAttr i1 (fusedOp r) "compilation_info" = None
    /\ getAttr (ir s') (fusedOp r) "compilation_info"
       = getAttr i1 (fusedOp r) "compilation_info".
Proof.
  do 3 eexists.
  split; [reflexivity|]. split; [reflexivity|].
  split; [reflexivity|]. split; [reflexivity|].
  eapply (@only_lowering_config_is_set specLinalg specLinalg_failure_keeps
            annotated 2 _ (mkOpOperand 2 0)).
  - reflexivity.
  - cbn. auto.
  - reflexivity.
  - discriminate.
  - discriminate.
Defined.

(** X7.  A successful rewrite erases the consumer and nothing else, and
    reorders nothing: the operations it leaves are, in the same order, those
    the fusion left minus the consumer, each with its identity, kind, result
    types, number of operands and iterators. *)
Theorem rewrite_keeps_skeleton (linalg : LinalgTransforms) :
  FailedFusionKeepsIR linalg ->
  forall i genericOp s' e i1 r,
    matchAndRewrite genericOp (mkState i []) = Done success s' ->
    In (FuseAttempt e true) (log s') ->
    fuseElementwiseOps i e = (i1, Some r) ->
    map skeleton (ir s') = map skeleton (eraseOp genericOp i1).
Proof.
  intros Hk i genericOp s' e i1 r Hrun Hin Hfuse.
  destruct (@success_ir linalg genericOp i s' e i1 r Hk Hrun Hin Hfuse) as [Hir _]. cbv zeta in Hir.
  rewrite Hir, replaceResults_map, skeleton_erase_map.
  - unfold attrStep.
    destruct (getAttr i1 genericOp lowering_config) as [a|]; cbn [fst];
      [|reflexivity].
    unfold setAttr. apply skeleton_erase_map.
    intros o. now destruct (opId o =? fusedOp r).
  - intros o. unfold skeleton, mapOperands, withOperands. cbn.
    now rewrite length_map.
Qed.

Lemma rewrite_keeps_skeleton_witness :
  exists s' i1 r,
    matchAndRewrite (linalg := specLinalg) 4 (mkState diamond [])
    = Done success s'
    /\ specFuse diamond (mkOpOperand 4 0) = (i1, Some r)
    /\ map opId i1 = [1; 2; 3; 7; 4; 5; 6]
    /\ map opId (ir s') = [1; 2; 3; 7; 5; 6]
    /\ map skeleton (ir s') = map skeleton (eraseOp 4 i1).
Proof.
  do 3 eexists.
  split; [reflexivity|]. split; [reflexivity|].
  split; [reflexivity|]. split; [reflexivity|].
  eapply (@rewrite_keeps_skeleton specLinalg specLinalg_failure_keeps
            diamond 4 _ (mkOpOperand 4 0)).
  - reflexivity.
  - cbn. auto.
  - reflexivity.
Defined.

(** X8.  A successful rewrite redirects the uses of the consumer's results
    and no other: a value that is a result neither of the consumer nor of the
    fused operation is read after the rewrite by exactly the edges that read
    it before, those of the erased consumer left out. *)
Theorem other_uses_untouched (linalg : LinalgTransforms) :
  FailedFusionKeepsIR linalg ->
  forall i genericOp s' e i1 r,
    matchAndRewrite genericOp (mkState i []) = Done success s' ->
    In (FuseAttempt e true) (log s') ->
    fuseElementwiseOps i e = (i1, Some r) ->
    fusedOp r <> genericOp ->
    forall w,
      (forall k, w <> OpResult genericOp k) ->
      (forall k, w <> OpResult (fusedOp r) k) ->
      uses (ir s') w = uses (eraseOp genericOp i1) w.
Proof.
  intros Hk i genericOp s' e i1 r Hrun Hin Hfuse Hne w Hw Hwf.
  destruct (@success_ir linalg genericOp i s' e i1 r Hk Hrun Hin Hfuse) as [Hir Hn]. cbv zeta in Hir, Hn.
  unfold trailingResults, getNumResults in Hir, Hn.
  rewrite !attrStep_getResults in Hir, Hn.
  destruct (@take_back_skipn _ _ _ (eq_sym Hn)) as [Hle Htake].
  rewrite Htake in Hir.
  destruct (getResults_resultsFrom i1 genericOp) as (tys & Htys).
  destruct (getResults_resultsFrom i1 (fusedOp r)) as (tysf & Htysf).
  rewrite Htys, Htysf in Hir, Hle.
  rewrite !resultsFrom_length in Hir, Hle.
  rewrite resultsFrom_skipn in Hir.
  assert (Hlen : length tys
                 = length (skipn (length tysf - length tys) tysf))
    by (rewrite length_skipn; lia).
  rewrite Hir, replaceResults_map, uses_erase_map.
  - unfold attrStep.
    destruct (getAttr i1 genericOp lowering_config) as [a|]; cbn [fst];
      [apply uses_erase_setAttr|reflexivity].
  - intros v.
    rewrite (@substAll_impl genericOp (fusedOp r) Hne tys _ 0 _ v Hlen).
    now apply redirect_eqb_other.
Qed.

Lemma other_uses_untouched_witness :
  exists s' i1 r,
    matchAndRewrite (linalg := specLinalg) 4 (mkState diamond [])
    = Done success s'
    /\ specFuse diamond (mkOpOperand 4 0) = (i1, Some r)
    /\ uses i1 (OpResult 3 0) = [mkOpOperand 4 0; mkOpOperand 5 0]
    /\ uses (ir s') (OpResult 3 0) = [mkOpOperand 5 0].
Proof.
  do 3 eexists.
  split; [reflexivity|]. split; [reflexivity|]. split; [reflexivity|].
  etransitivity;
    [eapply (@other_uses_untouched specLinalg specLinalg_failure_keeps
               diamond 4 _ (mkOpOperand 4 0))|].
  - reflexivity.
  - cbn. auto.
  - reflexivity.
  - discriminate.
  - discriminate.
  - discriminate.
  - reflexivity.
Defined.

(* ================================================================= *)
(** ** The guard rejects nothing else *)

Lemma fuseFirstOperand_log (linalg : LinalgTransforms) genericOp l s res s' :
  fuseFirstOperand genericOp l s = Done res s' ->
  exists evs, log s' = log s ++ evs.
Proof.
  intros H. destruct res.
  - apply fuseFirstOperand_success in H
      as (before & e & after & s1 & i1 & r & _ & Hsk & _ & _ & Hfin).
    destruct (Skipped_log Hsk) as (evs & Hlog & _).
    rewrite finishFusion_eq in Hfin. cbv zeta in Hfin. cbn [ir log] in Hfin.
    destruct (_ =? _) in Hfin; [|discriminate].
    injection Hfin as <-. cbn [log]. rewrite Hlog.
    eexists. rewrite <- !app_assoc. reflexivity.
  - apply fuseFirstOperand_failure in H.
    destruct (Skipped_log H) as (evs & Hlog & _). now exists evs.
Qed.

(** X10.  The guard rejects all-scalar candidates only: when the types of
    the operands and results are within the range in which the element count
    does not overflow, some operand or some result is not of a single-element
    type and the candidate has an operand, a run that returns has consulted
    the legality check, starting with the edge of operand 0. *)
Theorem non_scalar_candidate_is_examined (linalg : LinalgTransforms) :
  forall genericOp s res s',
    Forall ExactTy (map getType (getOperands (ir s) genericOp)) ->
    Forall ExactTy (map getType (getResults (ir s) genericOp)) ->
    ~ (Forall SingleElement (map getType (getOperands (ir s) genericOp))
       /\ Forall SingleElement (map getType (getResults (ir s) genericOp))) ->
    getOperands (ir s) genericOp <> [] ->
    matchAndRewrite genericOp s = Done res s' ->
    exists answer evs,
      log s' = log s ++ QueryFusable (mkOpOperand genericOp 0) answer :: evs.
Proof.
  intros genericOp s res s' Hxo Hxr Hns Hops H.
  rewrite matchAndRewrite_eq in H.
  destruct (allScalar_exact _ _ Hxo Hxr) as (b & Hguard & Hb).
  rewrite Hguard in H. destruct b; [now destruct Hns; apply Hb|].
  unfold getOpOperands in H.
  destruct (getOperands (ir s) genericOp) as [|v ops]; [contradiction|].
  cbn [length seq map] in H. rewrite fuseFirstOperand_cons in H.
  destruct (areElementwiseOpsFusable (ir s) (mkOpOperand genericOp 0)).
  - exists true.
    destruct (snd (fuseElementwiseOps _ _)) as [r|].
    + destruct res; [|now apply finishFusion_not_failure in H].
      rewrite finishFusion_eq in H. cbv zeta in H. cbn [ir log] in H.
      destruct (_ =? _) in H; [|discriminate].
      injection H as <-. cbn [log]. eexists.
      rewrite <- !app_assoc. reflexivity.
    + apply fuseFirstOperand_log in H as (evs & Hlog). cbn [log] in Hlog.
      eexists. rewrite Hlog, <- !app_assoc. reflexivity.
  - exists false.
    apply fuseFirstOperand_log in H as (evs & Hlog). cbn [log] in Hlog.
    exists evs. now rewrite Hlog, <- app_assoc.
Qed.

Lemma non_scalar_candidate_is_examined_witness :
  exists s' answer evs,
    matchAndRewrite (linalg := specLinalg) 2 (mkState squareAdd [])
    = Done success s'
    /\ log s' = [] ++ QueryFusable (mkOpOperand 2 0) answer :: evs.
Proof.
  refine (let W := @non_scalar_candidate_is_examined specLinalg 2
                     (mkState squareAdd []) success _
                     _ _ _ _ eq_refl in _).
  - destruct W as (answer & evs & Hlog).
    eexists. exists answer, evs. split; [reflexivity|exact Hlog].
    Unshelve.
    + apply Forall_ExactTy. reflexivity.
    + apply Forall_ExactTy. reflexivity.
    + intros [H _]. cbn in H. inversion H as [|? ? H1 _].
      inversion H1 as [| | |? ? _ _ Hone]. discriminate Hone.
    + discriminate.
Defined.

(* ================================================================= *)
(** ** Failure changes nothing, success replaces once *)

Section OneReplacement.

Context {linalg : LinalgTransforms}.

(** What a successful run leaves, without any assumption on the oracle: the
    IR the one successful fusion returned, with the configuration re-attached,
    the results of the consumer replaced by the last results of the fused
    operation, and the consumer erased. *)
Lemma success_replaces_once genericOp s s' :
  matchAndRewrite genericOp s = Done success s' ->
  exists evs vs e i0 i1 r,
    log s' = log s ++ evs
    /\ filter isReplaceOp evs = [ReplaceOp genericOp vs]
    /\ length (filter (fun ev => isFuseAttempt ev && isMutation ev) evs) = 1
    /\ fuseElementwiseOps i0 e = (i1, Some r)
    /\ (FailedFusionKeepsIR linalg -> i0 = ir s)
    /\ getNumResults i1 genericOp <= getNumResults i1 (fusedOp r)
    /\ vs = skipn (getNumResults i1 (fusedOp r) - getNumResults i1 genericOp)
                  (getResults i1 (fusedOp r))
    /\ ir s' = eraseOp genericOp
                 (replaceResults (getResults i1 genericOp) vs
                                 (fst (attrStep genericOp r i1))).
Proof.
  intros H. rewrite matchAndRewrite_eq in H.
  destruct (allScalar (ir s) genericOp) as [[|]|]; try discriminate.
  apply fuseFirstOperand_success in H
    as (before & e & after & s1 & i1 & r & _ & Hsk & _ & Hfu & Hfin).
  destruct (Skipped_log Hsk) as (evs & Hlog & _ & Hm).
  destruct (Nat.le_gt_cases (getNumResults i1 genericOp)
                            (getNumResults i1 (fusedOp r))) as [Hle|Hgt].
  2:{ rewrite (proj2 (finishFusion_outcome genericOp r (mkState i1 _)) Hgt)
        in Hfin. discriminate. }
  rewrite (proj1 (finishFusion_outcome genericOp r (mkState i1 _)) Hle)
    in Hfin.
  cbn [ir log] in Hfin. injection Hfin as <-. cbn [ir log].
  set (vs := skipn _ _).
  exists (evs ++ [QueryFusable e true] ++ [FuseAttempt e true]
              ++ snd (attrStep genericOp r i1) ++ [ReplaceOp genericOp vs]).
  exists vs, e, (ir s1), i1, r.
  split; [rewrite Hlog; now rewrite <- !app_assoc|].
  split; [|split; [|split; [exact Hfu|split; [|split; [exact Hle|split]]]]].
  - rewrite !filter_app.
    rewrite (filter_quiet isReplaceOp) by (auto; now intros []).
    unfold attrStep.
    destruct (getAttr i1 genericOp lowering_config); reflexivity.
  - rewrite !filter_app.
    rewrite (filter_quiet (fun ev => isFuseAttempt ev && isMutation ev))
      by (auto; intros ev Hev; now apply andb_true_iff in Hev).
    unfold attrStep.
    destruct (getAttr i1 genericOp lowering_config); reflexivity.
  - intros Hk. exact (Skipped_ir Hk Hsk).
  - reflexivity.
  - reflexivity.
Qed.

End OneReplacement.

(** C6.  A run that returns failure because the candidate is all-scalar or
    because the legality check accepts none of its edges leaves the IR as it
    was, having attempted no fusion; so does every failing run, as long as a
    fusion that fails leaves the IR as it was.  A run that succeeds performs
    exactly one replacement, after exactly one fusion: the IR it leaves is
    the IR that fusion returned with the consumer replaced by the last
    results of the fused operation; the consumer is gone, none of its results
    is read any more, and every other operation is still there, in the same
    order and with the same identity, kind, result types and number of
    operands. *)
Theorem failure_leaves_ir_unchanged (linalg : LinalgTransforms) :
  forall genericOp s s',
    ((allScalar (ir s) genericOp = Some true
      \/ (allScalar (ir s) genericOp = Some false
          /\ forallb (fun x => negb (areElementwiseOpsFusable (ir s) x))
                     (getOpOperands (ir s) genericOp) = true)) ->
     exists evs,
       matchAndRewrite genericOp s
       = Done failure (mkState (ir s) (log s ++ evs))
       /\ Forall (fun ev => isMutation ev = false) evs
       /\ filter isFuseAttempt evs = [])
    /\ (FailedFusionKeepsIR linalg ->
        matchAndRewrite genericOp s = Done failure s' ->
        ir s' = ir s
        /\ exists evs,
             log s' = log s ++ evs
             /\ Forall (fun ev => isMutation ev = false) evs)
    /\ (matchAndRewrite genericOp s = Done success s' ->
        exists evs vs e i0 i1 r,
          log s' = log s ++ evs
          /\ filter isReplaceOp evs = [ReplaceOp genericOp vs]
          /\ length (filter (fun ev => isFuseAttempt ev && isMutation ev)
                            evs) = 1
          /\ fuseElementwiseOps i0 e = (i1, Some r)
          /\ (FailedFusionKeepsIR linalg -> i0 = ir s)
          /\ vs = skipn (getNumResults i1 (fusedOp r)
                         - getNumResults i1 genericOp)
                        (getResults i1 (fusedOp r))
          /\ ir s' = eraseOp genericOp
                       (replaceResults (getResults i1 genericOp) vs
                                       (fst (attrStep genericOp r i1)))
          /\ getOp (ir s') genericOp = None
          /\ map skeleton (ir s') = map skeleton (eraseOp genericOp i1)
          /\ (forall x, x <> genericOp -> getOp i1 x <> None ->
                        getOp (ir s') x <> None)
          /\ (fusedOp r <> genericOp ->
              forall j, j < getNumResults i1 genericOp ->
                        uses (ir s') (OpResult genericOp j) = [])).
Proof.
  intros genericOp s s'. split; [|split].
  - rewrite matchAndRewrite_eq.
    intros [Hguard|[Hguard H]]; rewrite Hguard.
    + exists []. rewrite app_nil_r. destruct s. now repeat split.
    + exists (map (fun x => QueryFusable x false)
                  (getOpOperands (ir s) genericOp)).
      split; [|split].
      * apply fuseFirstOperand_skipped. now apply Skipped_none_fusable.
      * apply Forall_forall. intros ev Hev.
        apply in_map_iff in Hev as (x & <- & _). reflexivity.
      * clear H. induction (getOpOperands (ir s) genericOp) as [|x l IH];
          cbn; [reflexivity|exact IH].
  - intros Hk H. rewrite matchAndRewrite_eq in H.
    destruct (allScalar (ir s) genericOp) as [[|]|]; [| |discriminate].
    + injection H as <-. split; [reflexivity|].
      exists []. now rewrite app_nil_r.
    + apply fuseFirstOperand_failure in H. split.
      * now apply (Skipped_ir Hk H).
      * destruct (Skipped_log H) as (evs & Hlog & _ & Hm). now exists evs.
  - intros H.
    destruct (success_replaces_once _ _ H)
      as (evs & vs & e & i0 & i1 & r
          & Hlog & Hrep & Hone & Hfuse & Hi0 & Hle & Hvs & Hir).
    exists evs, vs, e, i0, i1, r.
    repeat (split; [assumption|]).
    split; [rewrite Hir; apply getOp_eraseOp_same|].
    split; [|split].
    + rewrite Hir, replaceResults_map, skeleton_erase_map.
      * unfold attrStep.
        destruct (getAttr i1 genericOp lowering_config) as [a|]; cbn [fst];
          [|reflexivity].
        unfold setAttr. apply skeleton_erase_map.
        intros o. now destruct (opId o =? fusedOp r).
      * intros o. unfold skeleton, mapOperands, withOperands. cbn.
        now rewrite length_map.
    + intros x Hx Hlive.
      rewrite Hir, getOp_eraseOp, getOp_replaceResults.
      apply Nat.eqb_neq in Hx. rewrite Hx.
      unfold attrStep.
      destruct (getAttr i1 genericOp lowering_config) as [a|]; cbn [fst].
      * rewrite getOp_setAttr. now destruct (getOp i1 x).
      * now destruct (getOp i1 x).
    + intros Hne j Hj.
      destruct (getResults_resultsFrom i1 genericOp) as (tys & Htys).
      destruct (getResults_resultsFrom i1 (fusedOp r)) as (tysf & Htysf).
      unfold getNumResults in Hle, Hvs, Hj.
      rewrite Htys, Htysf, !resultsFrom_length in *.
      rewrite resultsFrom_skipn in Hvs. cbn [Nat.add] in Hvs.
      assert (Hlen : length tys
                     = length (skipn (length tysf - length tys) tysf))
        by (rewrite length_skipn; lia).
      rewrite Hir, Hvs.
      exact (proj1 (@uses_redirected (fst (attrStep genericOp r i1))
                      genericOp (fusedOp r) tys _ _ Hne Hlen j Hj)).
Qed.

Lemma failure_leaves_ir_unchanged_witness :
  (exists s',
      matchAndRewrite (linalg := reluctantLinalg) 2 (mkState squareAdd [])
      = Done failure s'
      /\ ir s' = squareAdd
      /\ exists evs,
           log s' = [] ++ evs
           /\ Forall (fun ev => isMutation ev = false) evs)
  /\ (exists s' i1 r,
         matchAndRewrite (linalg := specLinalg) 2 (mkState squareAdd [])
         = Done success s'
         /\ specFuse squareAdd (mkOpOperand 2 0) = (i1, Some r)
         /\ map opId i1 = [1; 4; 2; 3]
         /\ map opId (ir s') = [1; 4; 3]
         /\ uses i1 (OpResult 2 0) = [mkOpOperand 3 0]
         /\ getOp (ir s') 2 = None
         /\ uses (ir s') (OpResult 2 0) = []).
Proof.
  split.
  - eexists. split; [reflexivity|].
    exact (proj1 (proj2 (@failure_leaves_ir_unchanged reluctantLinalg 2
                           (mkState squareAdd []) _))
                 reluctantLinalg_failure_keeps eq_refl).
  - destruct (proj2 (proj2 (@failure_leaves_ir_unchanged specLinalg 2
                              (mkState squareAdd []) _)) eq_refl)
      as (evs & vs & e & i0 & i1 & r & _ & _ & _ & _ & _ & _ & _
          & Hgone & _ & _ & _).
    do 3 eexists. do 5 (split; [reflexivity|]).
    split; [exact Hgone|reflexivity].
Defined.

(* ================================================================= *)
(** ** The measure goes down *)

Module TerminationFacts.

Import Termination.

Unset Implicit Arguments.

Lemma definedInb_sound ctx v : definedInb ctx v = true -> definedIn ctx v.
Proof.
  destruct v as [p j|n]; cbn; [|auto].
  destruct (lookup p ctx) as [[n w]|]; [|discriminate].
  intros H. exists n, w. split; [reflexivity|now apply Nat.ltb_lt].
Qed.

Lemma wellFormedFromb_sound (i : IR) :
  forall ctx, wellFormedFromb ctx i = true -> WellFormedFrom ctx i.
Proof.
  induction i as [|o i IH]; intros ctx H; cbn in *; [exact I|].
  destruct (lookup (opId o) ctx); [discriminate|].
  apply andb_true_iff in H as [H1 H2].
  split; [reflexivity|]. split; [|now apply IH].
  apply Forall_forall. intros v Hv. apply definedInb_sound.
  rewrite forallb_forall in H1. now apply H1.
Qed.

Lemma costFrom_app (l1 l2 : IR) :
  forall ctx,
    costFrom ctx (l1 ++ l2) = costFrom ctx l1 + costFrom (extend ctx l1) l2.
Proof.
  induction l1 as [|o l1 IH]; intros ctx; cbn; [reflexivity|].
  rewrite IH. lia.
Qed.

Lemma WellFormedFrom_app (l1 l2 : IR) :
  forall ctx,
    WellFormedFrom ctx (l1 ++ l2)
    <-> WellFormedFrom ctx l1 /\ WellFormedFrom (extend ctx l1) l2.
Proof.
  induction l1 as [|o l1 IH]; intros ctx; cbn; [tauto|].
  rewrite IH. tauto.
Qed.

Lemma extend_app (l1 l2 : IR) :
  forall ctx, extend ctx (l1 ++ l2) = extend (extend ctx l1) l2.
Proof.
  induction l1 as [|o l1 IH]; intros ctx; cbn; [reflexivity|apply IH].
Qed.

(** Later operations do not disturb what is known of earlier ones. *)
Lemma lookup_extend (l : IR) :
  forall ctx p x,
    WellFormedFrom ctx l -> lookup p ctx = Some x ->
    lookup p (extend ctx l) = Some x.
Proof.
  induction l as [|o l IH]; intros ctx p x Hwf Hp; cbn; [exact Hp|].
  destruct Hwf as (Hfresh & _ & Hwf).
  apply IH; [exact Hwf|]. cbn.
  destruct (Nat.eqb_spec (opId o) p) as [E|E]; [congruence|exact Hp].
Qed.

Lemma lookup_extend_inv (l : IR) :
  forall ctx p,
    lookup p (extend ctx l) <> None ->
    lookup p ctx <> None \/ exists o, In o l /\ opId o = p.
Proof.
  induction l as [|o l IH]; intros ctx p H; cbn in *; [now left|].
  destruct (IH _ _ H) as [H'|(o' & Ho' & E)].
  - cbn in H'. destruct (Nat.eqb_spec (opId o) p) as [E|E].
    + right. exists o. auto.
    + now left.
  - right. exists o'. auto.
Qed.

Lemma WellFormedFrom_fresh (l : IR) :
  forall ctx o,
    WellFormedFrom ctx l -> In o l -> lookup (opId o) ctx = None.
Proof.
  induction l as [|o' l IH]; intros ctx o Hwf Ho; [destruct Ho|].
  destruct Hwf as (Hfresh & _ & Hwf). destruct Ho as [<-|Ho]; [exact Hfresh|].
  specialize (IH _ _ Hwf Ho). cbn in IH.
  now destruct (opId o' =? opId o).
Qed.

Lemma definedIn_extend (l : IR) ctx v :
  WellFormedFrom ctx l -> definedIn ctx v ->
  definedIn (extend ctx l) v /\ weightOf (extend ctx l) v = weightOf ctx v.
Proof.
  intros Hwf Hv. destruct v as [p j|n]; cbn in *; [|auto].
  destruct Hv as (n & w & Hp & Hj).
  rewrite (lookup_extend l ctx p (n, w) Hwf Hp), Hp. split; [|reflexivity].
  now exists n, w.
Qed.

Lemma sumWeights_cons ctx v vs :
  sumWeights ctx (v :: vs) = weightOf ctx v + sumWeights ctx vs.
Proof. reflexivity. Qed.

Lemma sumWeights_app ctx vs1 vs2 :
  sumWeights ctx (vs1 ++ vs2) = sumWeights ctx vs1 + sumWeights ctx vs2.
Proof.
  unfold sumWeights. now rewrite map_app, list_sum_app.
Qed.

Lemma sumWeights_extend (l : IR) ctx vs :
  WellFormedFrom ctx l -> Forall (definedIn ctx) vs ->
  Forall (definedIn (extend ctx l)) vs
  /\ sumWeights (extend ctx l) vs = sumWeights ctx vs.
Proof.
  intros Hwf H. induction H as [|v vs Hv _ [IH1 IH2]].
  - split; [constructor|reflexivity].
  - destruct (definedIn_extend l ctx v Hwf Hv) as [Hd Hw].
    split; [now constructor|].
    now rewrite !sumWeights_cons, Hw, IH2.
Qed.

(** Every operation met is known by the context for what it is. *)
Lemma definedIn_entry ctx o v :
  lookup (opId o) ctx = None -> definedIn ctx v ->
  definedIn (entry ctx o :: ctx) v
  /\ weightOf (entry ctx o :: ctx) v = weightOf ctx v.
Proof.
  intros Hfresh Hv. destruct v as [p j|n]; cbn in *; [|auto].
  destruct Hv as (n & w & Hp & Hj).
  destruct (Nat.eqb_spec (opId o) p) as [E|E]; [congruence|].
  rewrite Hp. split; [|reflexivity]. now exists n, w.
Qed.

Lemma sumWeights_entry ctx o vs :
  lookup (opId o) ctx = None -> Forall (definedIn ctx) vs ->
  Forall (definedIn (entry ctx o :: ctx)) vs
  /\ sumWeights (entry ctx o :: ctx) vs = sumWeights ctx vs.
Proof.
  intros Hfresh H. induction H as [|v vs Hv _ [IH1 IH2]].
  - split; [constructor|reflexivity].
  - destruct (definedIn_entry ctx o v Hfresh Hv) as [Hd Hw].
    split; [now constructor|].
    now rewrite !sumWeights_cons, Hw, IH2.
Qed.

(** Every operation met is known by the context for what it is. *)
Lemma extend_knows (l : IR) :
  forall ctx o,
    WellFormedFrom ctx l -> In o l ->
    lookup (opId o) (extend ctx l) = Some (snd (entry (extend ctx l) o))
    /\ Forall (definedIn (extend ctx l)) (operandImpls o).
Proof.
  induction l as [|o' l IH]; intros ctx o Hwf Ho; [destruct Ho|].
  destruct Hwf as (Hfresh & Hops & Hwf). cbn [extend].
  destruct Ho as [<-|Ho]; [|now apply IH].
  destruct (sumWeights_entry ctx o' (operandImpls o') Hfresh Hops)
    as [Hd1 Hs1].
  destruct (sumWeights_extend l (entry ctx o' :: ctx) (operandImpls o')
              Hwf Hd1) as [Hd Hs].
  split; [|exact Hd].
  rewrite (lookup_extend l (entry ctx o' :: ctx) (opId o')
             (snd (entry ctx o')) Hwf)
    by (cbn; now rewrite Nat.eqb_refl).
  unfold entry. cbn [snd]. fold (entry ctx o'). now rewrite Hs, Hs1.
Qed.

Lemma isGeneric_opName o o' :
  opName o' = opName o -> SpecModel.isGeneric o' = SpecModel.isGeneric o.
Proof. unfold SpecModel.isGeneric. now intros ->. Qed.

Section Refinement.

Variable ok : ValueImpl -> Prop.
Variable rho : ValueImpl -> ValueImpl.
Variable extra : OpId -> Prop.

Lemma sumWeights_refined ctxO ctxN vs :
  Refines ok rho extra ctxO ctxN ->
  Forall ok vs -> Forall (definedIn ctxO) vs ->
  Forall (definedIn ctxN) (map rho vs)
  /\ sumWeights ctxN (map rho vs) <= sumWeights ctxO vs.
Proof.
  intros [HR _] Hok Hdef. induction vs as [|v vs IH].
  - split; [constructor|reflexivity].
  - inversion Hok; subst. inversion Hdef; subst.
    destruct (HR v) as [Hd Hw]; [assumption..|].
    destruct IH as [IH1 IH2]; [assumption..|].
    split; [now constructor|].
    cbn [map]. rewrite !sumWeights_cons. lia.
Qed.

Lemma Refines_entry ctxO ctxN o o' :
  Renamed rho o o' -> Passable ok rho extra o ->
  Refines ok rho extra ctxO ctxN ->
  lookup (opId o) ctxO = None ->
  Forall (definedIn ctxO) (operandImpls o) ->
  lookup (opId o') ctxN = None
  /\ Forall (definedIn ctxN) (operandImpls o')
  /\ sumWeights ctxN (operandImpls o') <= sumWeights ctxO (operandImpls o)
  /\ Refines ok rho extra (entry ctxO o :: ctxO) (entry ctxN o' :: ctxN).
Proof.
  intros (Hid & Hname & Hres & Hops) (Hextra & Hfix & Hinto & Hok)
         HR Hfresh Hdef.
  pose proof HR as [HR1 HR2].
  destruct (sumWeights_refined ctxO ctxN (operandImpls o) HR Hok Hdef)
    as [Hd Hs].
  rewrite <- Hops in Hd, Hs.
  assert (HfreshN : lookup (opId o') ctxN = None).
  { destruct (lookup (opId o') ctxN) eqn:E; [|reflexivity].
    destruct (HR2 (opId o')) as [H|H]; [congruence| |].
    - rewrite Hid in H. contradiction.
    - rewrite Hid in H. contradiction. }
  split; [exact HfreshN|]. split; [exact Hd|]. split; [exact Hs|].
  split.
  - intros v Hv Hdv.
    assert (Hlift : forall u,
               (forall j, u <> OpResult (opId o) j) ->
               definedIn ctxN u ->
               definedIn (entry ctxN o' :: ctxN) u
               /\ weightOf (entry ctxN o' :: ctxN) u = weightOf ctxN u).
    { intros u Hu Hdu. destruct u as [q j'|n]; cbn in *; [|auto].
      rewrite Hid.
      destruct (Nat.eqb_spec (opId o) q) as [E|E];
        [subst q; now destruct (Hu j')|auto]. }
    destruct v as [p j|n].
    + cbn in Hdv. destruct (Nat.eqb_spec (opId o) p) as [E|E].
      * subst p. rewrite Hfix. cbn. rewrite Hid, Nat.eqb_refl.
        destruct Hdv as (n & w & Hn & Hj). injection Hn as <- <-.
        split.
        -- eexists _, _. split; [reflexivity|]. now rewrite Hres.
        -- rewrite (isGeneric_opName o o' Hname).
           destruct (SpecModel.isGeneric o); lia.
      * destruct (HR1 (OpResult p j) Hv Hdv) as [Hd' Hw'].
        destruct (Hlift (rho (OpResult p j))) as [Hd'' Hw''];
          [|exact Hd'|].
        -- intros j' Hj'. apply Hinto in Hj'. congruence.
        -- split; [exact Hd''|]. rewrite Hw''.
           cbn [weightOf lookup entry fst].
           destruct (Nat.eqb_spec (opId o) p); [contradiction|exact Hw'].
    + destruct (HR1 (BlockArgument n) Hv I) as [Hd' Hw'].
      destruct (Hlift (rho (BlockArgument n))) as [Hd'' Hw''];
        [|exact Hd'|].
      * intros j' Hj'. apply Hinto in Hj'. discriminate.
      * split; [exact Hd''|]. now rewrite Hw''.
  - intros p Hp. cbn in *. rewrite Hid in Hp.
    destruct (Nat.eqb_spec (opId o) p) as [E|E]; [left; discriminate|].
    now apply HR2.
Qed.

Lemma refine_step (l l' : IR) :
  Forall2 (Renamed rho) l l' ->
  forall ctxO ctxN,
    Forall (Passable ok rho extra) l ->
    Refines ok rho extra ctxO ctxN ->
    WellFormedFrom ctxO l ->
    WellFormedFrom ctxN l'
    /\ costFrom ctxN l' <= costFrom ctxO l
    /\ Refines ok rho extra (extend ctxO l) (extend ctxN l').
Proof.
  induction 1 as [|o o' l l' Hren _ IH]; intros ctxO ctxN Hpass HR Hwf.
  - cbn. auto.
  - inversion Hpass as [|? ? Hp Hps]; subst.
    destruct Hwf as (Hfresh & Hdef & Hwf).
    destruct (Refines_entry ctxO ctxN o o' Hren Hp HR Hfresh Hdef)
      as (HfreshN & HdefN & Hsum & HR').
    destruct (IH _ _ Hps HR' Hwf) as (HwfN & Hcost & HR'').
    cbn [WellFormedFrom costFrom extend].
    split; [now repeat split|]. split; [lia|exact HR''].
Qed.

End Refinement.

(** *** Where an operation sits in the function *)

Lemma getOp_split (i : IR) (op : OpId) (o : Operation) :
  getOp i op = Some o ->
  exists pre post,
    i = pre ++ o :: post /\ Forall (fun x => opId x <> op) pre.
Proof.
  unfold getOp. induction i as [|x i IH]; cbn; [discriminate|].
  destruct (Nat.eqb_spec (opId x) op) as [E|E].
  - intros [= ->]. exists [], i. split; [reflexivity|constructor].
  - intros H. destruct (IH H) as (pre & post & -> & Hpre).
    exists (x :: pre), post. split; [reflexivity|]. now constructor.
Qed.

Lemma getOp_app_pre (pre rest : IR) (op : OpId) (o : Operation) :
  In o pre -> opId o = op ->
  exists o', getOp (pre ++ rest) op = Some o' /\ In o' pre.
Proof.
  intros Ho Hid. unfold getOp. induction pre as [|x pre IH]; [destruct Ho|].
  cbn. destruct (Nat.eqb_spec (opId x) op) as [E|E].
  - exists x. split; [reflexivity|now left].
  - destruct Ho as [->|Ho]; [contradiction|].
    destruct (IH Ho) as (o' & H & Hin). exists o'. split; [exact H|now right].
Qed.

Lemma insertBefore_split (pre post : IR) (c f : Operation) :
  Forall (fun x => opId x <> opId c) pre ->
  SpecModel.insertBefore (opId c) f (pre ++ c :: post)
  = pre ++ f :: c :: post.
Proof.
  induction 1 as [|x pre Hx _ IH]; cbn.
  - now rewrite Nat.eqb_refl.
  - apply Nat.eqb_neq in Hx. now rewrite Hx, IH.
Qed.

Lemma eraseOp_keep (op : OpId) (l : IR) :
  Forall (fun x => opId x <> op) l -> eraseOp op l = l.
Proof.
  unfold eraseOp. induction 1 as [|x l Hx _ IH]; cbn; [reflexivity|].
  apply Nat.eqb_neq in Hx. now rewrite Hx, IH.
Qed.

Lemma eraseOp_app (op : OpId) (l1 l2 : IR) :
  eraseOp op (l1 ++ l2) = eraseOp op l1 ++ eraseOp op l2.
Proof. unfold eraseOp. apply filter_app. Qed.

Lemma eraseOp_cons_same (op : OpId) (o : Operation) (l : IR) :
  opId o = op -> eraseOp op (o :: l) = eraseOp op l.
Proof. intros E. unfold eraseOp. cbn. now rewrite E, Nat.eqb_refl. Qed.

(** In a well-formed function the operations after [o] have other
    identities, and [o] is known to them. *)
Lemma WellFormed_split (pre post : IR) (o : Operation) :
  WellFormed (pre ++ o :: post) ->
  WellFormedFrom [] pre
  /\ lookup (opId o) (extend [] pre) = None
  /\ Forall (definedIn (extend [] pre)) (operandImpls o)
  /\ WellFormedFrom (entry (extend [] pre) o :: extend [] pre) post
  /\ Forall (fun x => opId x <> opId o) pre
  /\ Forall (fun x => opId x <> opId o) post.
Proof.
  intros H. apply WellFormedFrom_app in H as [Hpre (Hfresh & Hdef & Hpost)].
  repeat split; auto.
  - apply Forall_forall. intros x Hx E.
    destruct (extend_knows pre [] x Hpre Hx) as [Hk _].
    rewrite E in Hk. congruence.
  - apply Forall_forall. intros x Hx E.
    pose proof (WellFormedFrom_fresh post _ x Hpost Hx) as Hk.
    cbn in Hk. rewrite E, Nat.eqb_refl in Hk. discriminate.
Qed.

(** *** Pruning lowers the measure *)

Lemma Refines_drop ctx o :
  lookup (opId o) ctx = None ->
  Refines (fun v => forall j, v <> OpResult (opId o) j) (fun v => v)
          (fun _ => False) (entry ctx o :: ctx) ctx.
Proof.
  intros Hfresh. split.
  - intros v Hv Hd. destruct v as [p j|n]; cbn in *; [|auto].
    destruct (Nat.eqb_spec (opId o) p) as [E|E];
      [subst p; now destruct (Hv j)|].
    split; [exact Hd|reflexivity].
  - intros p Hp. left. cbn.
    destruct (Nat.eqb_spec (opId o) p) as [E|E]; [discriminate|exact Hp].
Qed.

Lemma Renamed_id (l : IR) : Forall2 (Renamed (fun v => v)) l l.
Proof.
  induction l as [|o l IH]; constructor; [|exact IH].
  repeat split. now rewrite map_id.
Qed.

Lemma erase_lowers (pre post : IR) (o : Operation) :
  WellFormed (pre ++ o :: post) ->
  (forall x v, In x post -> In v (operandImpls x) ->
               forall j, j < length (resultTypes o) ->
                         v <> OpResult (opId o) j) ->
  WellFormed (pre ++ post)
  /\ measure (pre ++ post) < measure (pre ++ o :: post).
Proof.
  intros Hwf Hunused.
  destruct (WellFormed_split pre post o Hwf)
    as (Hpre & Hfresh & Hdef & Hpost & _ & Hids).
  set (E := extend [] pre) in *.
  assert (Hpass : Forall (Passable
                            (fun v => forall j, v <> OpResult (opId o) j)
                            (fun v => v) (fun _ => False)) post).
  { apply Forall_forall. intros x Hx. repeat split; auto.
    - apply Forall_forall. intros v Hv j ->.
      destruct (extend_knows post _ x Hpost Hx) as [_ Hdx].
      rewrite Forall_forall in Hdx. specialize (Hdx _ Hv). cbn in Hdx.
      destruct Hdx as (n & w & Hn & Hj).
      rewrite (lookup_extend post (entry E o :: E) (opId o)
                 (snd (entry E o)) Hpost) in Hn
        by (cbn; now rewrite Nat.eqb_refl).
      injection Hn as <- _.
      now apply (Hunused x (OpResult (opId o) j) Hx Hv j). }
  destruct (refine_step _ _ _ post post (Renamed_id post)
              (entry E o :: E) E Hpass (Refines_drop E o Hfresh) Hpost)
    as (HwfN & Hcost & _).
  split.
  - apply WellFormedFrom_app. split; [exact Hpre|exact HwfN].
  - unfold measure. rewrite !costFrom_app. cbn [costFrom].
    fold E. lia.
Qed.

(** *** Fusion lowers the measure *)

Lemma redirect_other op f b n q j :
  q <> op -> redirect op f 0 b n (OpResult q j) = OpResult q j.
Proof.
  intros Hne. unfold redirect.
  destruct (Nat.eqb_spec q op); [contradiction|reflexivity].
Qed.

Lemma redirect_into op f b n v q j :
  q <> f -> redirect op f 0 b n v = OpResult q j -> v = OpResult q j.
Proof.
  intros Hne. destruct v as [o k|m]; [|auto]. unfold redirect.
  destruct ((o =? op) && (0 <=? k) && (k <? 0 + n)); [|auto].
  intros [= E _]. now destruct Hne.
Qed.

Lemma redirect_hit op f b n j :
  j < n -> redirect op f 0 b n (OpResult op j) = OpResult f (b + j).
Proof.
  intros Hj. unfold redirect. rewrite Nat.eqb_refl.
  destruct (Nat.leb_spec 0 j), (Nat.ltb_spec j (0 + n)); try lia.
  cbn [andb]. f_equal. lia.
Qed.

Lemma nth_error_middle {A : Type} (l : list A) :
  forall k a,
    nth_error l k = Some a -> l = firstn k l ++ a :: skipn (S k) l.
Proof.
  induction l as [|x l IH]; intros [|k] a H; try discriminate.
  - now injection H as ->.
  - cbn in H. cbn [firstn skipn app]. f_equal. now apply IH.
Qed.

Lemma Renamed_map rho (h : Operation -> Operation) (l : IR) :
  (forall o, Renamed rho o (h o)) -> Forall2 (Renamed rho) l (map h l).
Proof.
  intros Hh. induction l as [|o l IH]; constructor; auto.
Qed.

Lemma Refines_nil op f b n extra :
  Refines (fun _ => True) (redirect op f 0 b n) extra [] [].
Proof.
  split.
  - intros v _ Hd. destruct v as [p j|m].
    + destruct Hd as (n' & w & H & _). discriminate.
    + cbn. auto.
  - intros p H. now destruct H.
Qed.

(** The function before and after a fusion, side by side: the consumer [C]
    reads result [j] of the parallel producer [P] as its operand [k]; the
    fused operation [F] reads the operands of [P] in its place; every reader
    of a result of [C] is sent to one of the last results of [F]. *)
Lemma fused_lowers (pre post : IR) (C P F : Operation) (k j b : nat)
      (h : Operation -> Operation) :
  WellFormed (pre ++ C :: post) ->
  SpecModel.isGeneric C = true -> SpecModel.isGeneric P = true ->
  In P pre ->
  nth_error (operandImpls C) k = Some (OpResult (opId P) j) ->
  operandImpls F = firstn k (operandImpls C) ++ operandImpls P
                   ++ skipn (S k) (operandImpls C) ->
  (forall o, In o (pre ++ C :: post) -> opId o <> opId F) ->
  b + length (resultTypes C) <= length (resultTypes F) ->
  (forall o, Renamed (redirect (opId C) (opId F) 0 b
                               (length (resultTypes C))) o (h o)) ->
  WellFormed (map h pre ++ h F :: map h post)
  /\ measure (map h pre ++ h F :: map h post) < measure (pre ++ C :: post).
Proof.
  intros Hwf HC HP HinP Hnth HF Hfresh Hb Hh.
  set (rho := redirect (opId C) (opId F) 0 b (length (resultTypes C))) in *.
  destruct (WellFormed_split pre post C Hwf)
    as (Hpre & HfreshC & HdefC & Hpost & Hidpre & Hidpost).
  set (E := extend [] pre) in *.
  assert (HneF : opId C <> opId F)
    by (apply Hfresh, in_elt).
  (* the operations in front of the consumer *)
  assert (HpassPre : Forall (Passable (fun _ => True) rho (fun _ => False))
                            pre).
  { apply Forall_forall. intros o Ho. split; [tauto|]. split; [|split].
    - intros j'. apply redirect_other.
      rewrite Forall_forall in Hidpre. now apply Hidpre.
    - intros v j'. apply redirect_into.
      apply Hfresh, in_or_app. now left.
    - apply Forall_forall. auto. }
  destruct (refine_step _ _ _ pre (map h pre) (Renamed_map rho h pre Hh)
              [] [] HpassPre (Refines_nil _ _ _ _ _) Hpre)
    as (HwfPre' & HcostPre & HRE).
  set (E' := extend [] (map h pre)) in *.
  assert (HfreshF : lookup (opId F) E = None).
  { destruct (lookup (opId F) E) eqn:El; [|reflexivity].
    destruct (lookup_extend_inv pre [] (opId F)) as [H|(o & Ho & Eo)].
    - fold E. rewrite El. discriminate.
    - now destruct H.
    - exfalso. apply (Hfresh o); [apply in_or_app; now left|exact Eo]. }
  (* the fused operation *)
  destruct (Hh F) as (HidF & HnameF & HresF & HopsF).
  assert (HfreshF' : lookup (opId (h F)) E' = None).
  { rewrite HidF. destruct (lookup (opId F) E') eqn:El; [|reflexivity].
    assert (Hn : lookup (opId F) E' <> None) by (rewrite El; discriminate).
    destruct (proj2 HRE (opId F) Hn) as [H|[]]. now destruct H. }
  destruct (extend_knows pre [] P Hpre HinP) as [HlookP HdefP].
  fold E in HlookP, HdefP.
  unfold entry in HlookP. cbn [snd] in HlookP. rewrite HP in HlookP.
  remember (firstn k (operandImpls C)) as l1 eqn:El1.
  remember (skipn (S k) (operandImpls C)) as l2 eqn:El2.
  assert (Hsplit : operandImpls C = l1 ++ OpResult (opId P) j :: l2)
    by (subst l1 l2; now apply nth_error_middle).
  assert (HdefF : Forall (definedIn E) (operandImpls F)).
  { rewrite Hsplit in HdefC. apply Forall_app in HdefC as [H1 H2].
    inversion H2; subst. rewrite HF.
    apply Forall_app. split; [assumption|].
    apply Forall_app. split; assumption. }
  assert (HsumF : sumWeights E (operandImpls F) + 1
                  = sumWeights E (operandImpls C)).
  { rewrite HF, Hsplit, !sumWeights_app, sumWeights_cons.
    cbn [weightOf]. rewrite HlookP. lia. }
  destruct (sumWeights_refined _ _ _ E E' (operandImpls F) HRE)
    as [HdefF' HsumF']; [apply Forall_forall; auto|exact HdefF|].
  rewrite <- HopsF in HdefF', HsumF'.
  (* the operations behind the consumer *)
  assert (HR1 : Refines (fun _ => True) rho (fun p => p = opId F)
                        (entry E C :: E) (entry E' (h F) :: E')).
  { split.
    - intros v _ Hd. destruct v as [q j'|m]; [|cbn; auto].
      destruct (Nat.eq_dec q (opId C)) as [->|Hq].
      + cbn in Hd. rewrite Nat.eqb_refl in Hd.
        destruct Hd as (n & w & Hn & Hj'). injection Hn as <- _.
        unfold rho. rewrite redirect_hit by exact Hj'.
        cbn. rewrite HidF, !Nat.eqb_refl. rewrite HC. split.
        * eexists _, _. split; [reflexivity|]. rewrite HresF. lia.
        * destruct (SpecModel.isGeneric (h F)); lia.
      + unfold rho. rewrite redirect_other by exact Hq.
        assert (Hd0 : definedIn E (OpResult q j')).
        { cbn in Hd. cbn.
          destruct (Nat.eqb_spec (opId C) q); [congruence|exact Hd]. }
        destruct (proj1 HRE (OpResult q j') I Hd0) as [Hd' Hw'].
        unfold rho in Hd', Hw'. fold rho in Hd', Hw'.
        unfold rho in Hd', Hw'. rewrite redirect_other in Hd', Hw'
          by exact Hq.
        assert (HqF : q <> opId F).
        { intros ->. cbn in Hd0. rewrite HfreshF in Hd0.
          destruct Hd0 as (? & ? & ? & _). discriminate. }
        cbn. rewrite HidF.
        destruct (Nat.eqb_spec (opId F) q); [congruence|].
        destruct (Nat.eqb_spec (opId C) q); [congruence|].
        split; [exact Hd'|exact Hw'].
    - intros p Hp. destruct (Nat.eq_dec p (opId F)) as [->|HpF];
        [now right|left].
      cbn in Hp. rewrite HidF in Hp.
      destruct (Nat.eqb_spec (opId F) p); [congruence|].
      cbn. destruct (Nat.eqb_spec (opId C) p); [discriminate|].
      destruct (proj2 HRE p Hp) as [H|[]]. exact H. }
  assert (HpassPost : Forall (Passable (fun _ => True) rho
                                       (fun p => p = opId F)) post).
  { apply Forall_forall. intros o Ho.
    assert (HoF : opId o <> opId F)
      by (apply Hfresh, in_or_app; right; now right).
    split; [exact HoF|]. split; [|split].
    - intros j'. apply redirect_other.
      rewrite Forall_forall in Hidpost. now apply Hidpost.
    - intros v j'. now apply redirect_into.
    - apply Forall_forall. auto. }
  destruct (refine_step _ _ _ post (map h post) (Renamed_map rho h post Hh)
              _ _ HpassPost HR1 Hpost)
    as (HwfPost' & HcostPost & _).
  split.
  - apply WellFormedFrom_app. split; [exact HwfPre'|].
    cbn [WellFormedFrom]. fold E'. repeat split; assumption.
  - unfold measure. rewrite !costFrom_app. cbn [costFrom]. fold E E'. lia.
Qed.

(** *** The rewrite, as the pattern performs it *)

Lemma eraseOp_map (h : Operation -> Operation) (op : OpId) (i : IR) :
  (forall o, opId (h o) = opId o) ->
  eraseOp op (map h i) = map h (eraseOp op i).
Proof.
  intros Hid. unfold eraseOp. induction i as [|o i IH]; cbn; [reflexivity|].
  rewrite Hid. destruct (opId o =? op); cbn; now rewrite IH.
Qed.

(** Carrying the configuration over touches attributes only. *)
Lemma attrStep_map (op : OpId) (r : ElementwiseOpFusionResult) (i1 : IR) :
  exists a : Operation -> Operation,
    fst (attrStep op r i1) = map a i1
    /\ forall o, opId (a o) = opId o /\ opName (a o) = opName o
                 /\ operands (a o) = operands o
                 /\ resultTypes (a o) = resultTypes o
                 /\ iteratorTypes (a o) = iteratorTypes o.
Proof.
  unfold attrStep. destruct (getAttr i1 op lowering_config) as [x|].
  - eexists. split; [reflexivity|].
    intros o. cbn beta. now destruct (opId o =? fusedOp r).
  - exists (fun o => o). split; [now rewrite map_id|]. now intros o.
Qed.

Lemma success_shape (linalg : LinalgTransforms) genericOp s s' :
  FailedFusionKeepsIR linalg ->
  matchAndRewrite genericOp s = Done success s' ->
  exists e i1 r,
    owner e = genericOp
    /\ fuseElementwiseOps (ir s) e = (i1, Some r)
    /\ getNumResults i1 genericOp <= getNumResults i1 (fusedOp r)
    /\ ir s' = eraseOp genericOp
                 (replaceResults (getResults i1 genericOp)
                    (skipn (getNumResults i1 (fusedOp r)
                            - getNumResults i1 genericOp)
                           (getResults i1 (fusedOp r)))
                    (fst (attrStep genericOp r i1))).
Proof.
  intros Hk H. rewrite matchAndRewrite_eq in H.
  destruct (allScalar (ir s) genericOp) as [[|]|]; try discriminate.
  apply fuseFirstOperand_success in H
    as (before & e & after & s1 & i1 & r & Hl & Hsk & _ & Hfu & Hfin).
  rewrite (Skipped_ir Hk Hsk) in Hfu.
  exists e, i1, r. split.
  - destruct (getOpOperands_ascending (ir s) genericOp) as [_ Hown].
    rewrite Forall_forall in Hown. apply Hown. rewrite Hl.
    apply in_elt.
  - split; [exact Hfu|].
    destruct (Nat.le_gt_cases (getNumResults i1 genericOp)
                              (getNumResults i1 (fusedOp r))) as [Hle|Hgt].
    2:{ rewrite (proj2 (finishFusion_outcome genericOp r (mkState i1 _)) Hgt)
          in Hfin. discriminate. }
    rewrite (proj1 (finishFusion_outcome genericOp r (mkState i1 _)) Hle)
      in Hfin.
    cbn [ir log] in Hfin. injection Hfin as <-. cbn [ir log].
    split; [exact Hle|reflexivity].
Qed.

Lemma fresh_everywhere (i : IR) (o : Operation) :
  In o i -> opId o <> SpecModel.freshId i.
Proof.
  intros Ho. unfold SpecModel.freshId.
  assert (opId o <= fold_right Nat.max 0 (map opId i))
    by (apply SpecModelFacts.le_fold_max; now apply in_map).
  lia.
Qed.

(** A successful run of the pattern under the modelled fusion, taken apart:
    where the consumer [C] and its producer [P] sit, what the fused operation
    [F] reads, and the function the rewrite leaves, in which [h] has
    redirected every reader of [C]. *)
Lemma fusion_step (genericOp : OpId) (s s' : RewriterState) :
  WellFormed (ir s) ->
  matchAndRewrite (linalg := SpecModel.specLinalg) genericOp s
  = Done success s' ->
  exists pre post C P F k j b h,
    ir s = pre ++ C :: post
    /\ opId C = genericOp
    /\ SpecModel.isGeneric C = true /\ SpecModel.isGeneric P = true
    /\ In P pre
    /\ nth_error (operandImpls C) k = Some (OpResult (opId P) j)
    /\ operandImpls F = firstn k (operandImpls C) ++ operandImpls P
                        ++ skipn (S k) (operandImpls C)
    /\ (forall o, In o (ir s) -> opId o <> opId F)
    /\ b + length (resultTypes C) <= length (resultTypes F)
    /\ opName F = opName C /\ iteratorTypes F = iteratorTypes C
    /\ (forall o, Renamed (redirect (opId C) (opId F) 0 b
                                    (length (resultTypes C))) o (h o)
                  /\ iteratorTypes (h o) = iteratorTypes o)
    /\ ir s' = map h pre ++ h F :: map h post.
Proof.
  intros Hwf Hrun.
  destruct (success_shape SpecModel.specLinalg genericOp s s'
              SpecModelFacts.specLinalg_failure_keeps Hrun)
    as (e & i1 & r & Hown & Hfuse & Hle & Hir).
  change (SpecModel.specFuse (ir s) e = (i1, Some r)) in Hfuse.
  unfold SpecModel.specFuse in Hfuse.
  destruct (SpecModel.specFusable (ir s) e) eqn:Hfus; [|discriminate].
  unfold SpecModel.specFusable in Hfus.
  destruct (getOp (ir s) (owner e)) as [C|] eqn:HC; [|discriminate].
  destruct (nth_error (operands C) (operandNumber e)) as [v|] eqn:Hv;
    [|discriminate].
  destruct (SpecModel.getDefiningOp (ir s) v) as [P|] eqn:HP;
    [|discriminate].
  apply andb_true_iff in Hfus as [Hfus HneP].
  apply andb_true_iff in Hfus as [Hfus _].
  apply andb_true_iff in Hfus as [Hfus _].
  apply andb_true_iff in Hfus as [HgC HgP].
  apply negb_true_iff, Nat.eqb_neq in HneP.
  pose proof (getOp_opId _ _ HC) as HidC. rewrite Hown in HidC.
  unfold SpecModel.getDefiningOp in HP.
  destruct (impl v) as [p j|] eqn:Hiv; [|discriminate].
  pose proof (getOp_opId _ _ HP) as HidP.
  rewrite Hown in HC.
  clear Hown. subst genericOp.
  destruct (getOp_split _ _ _ HC) as (pre & post & Hsplit & Hidpre).
  rewrite Hsplit in Hwf.
  destruct (WellFormed_split pre post C Hwf)
    as (Hpre & HfreshC & HdefC & Hpost & _ & Hidpost).
  (* the producer comes before the consumer *)
  assert (HinP : In P pre).
  { assert (Hin : In (OpResult p j) (operandImpls C)).
    { rewrite <- Hiv. apply in_map. eapply nth_error_In; eassumption. }
    rewrite Forall_forall in HdefC. specialize (HdefC _ Hin).
    destruct HdefC as (n & w & Hn & _).
    destruct (lookup_extend_inv pre [] p) as [H|(o & Ho & Eo)];
      [rewrite Hn; discriminate|now destruct H|].
    destruct (getOp_app_pre pre (C :: post) p o Ho Eo) as (o' & Hg & Ho').
    rewrite <- Hsplit, HP in Hg. now injection Hg as ->. }
  set (kept := SpecModel.preservedResults (ir s) P C) in *.
  set (F := mkOperation (SpecModel.freshId (ir s)) "linalg.generic"
              (firstn (operandNumber e) (operands C) ++ operands P
               ++ skipn (S (operandNumber e)) (operands C))
              (kept ++ resultTypes C) [] (iteratorTypes C)) in *.
  injection Hfuse as <- <-. cbn [fusedOp] in *.
  assert (Hfresh : forall o, In o (ir s) -> opId o <> opId F)
    by (intros o Ho; now apply fresh_everywhere).
  assert (HneF : (opId C) <> opId F).
  { apply Hfresh. rewrite Hsplit. apply in_elt. }
  assert (HgetC : getOp (SpecModel.insertBefore (opId C) F (ir s)) (opId C)
                  = Some C).
  { rewrite SpecModelFacts.getOp_insertBefore_old by exact HneF.
    exact HC. }
  assert (HgetF : getOp (SpecModel.insertBefore (opId C) F (ir s))
                        (SpecModel.freshId (ir s)) = Some F).
  { apply (SpecModelFacts.getOp_insertBefore_new (ir s) (opId C) F).
    apply SpecModelFacts.getOp_freshId. }
  unfold getNumResults, getResults in Hle, Hir.
  rewrite HgetC, HgetF in Hle, Hir.
  unfold resultsOf in Hle, Hir. rewrite !resultsFrom_length in Hle, Hir.
  rewrite resultsFrom_skipn in Hir.
  set (N := length (resultTypes C)) in *.
  set (M := length (resultTypes F)) in *.
  match type of Hir with
  | context [fst (attrStep ?x ?y ?z)] =>
      destruct (attrStep_map x y z) as (a & Ha & Hakeeps); rewrite Ha in Hir
  end.
  rewrite replaceResults_map, map_map in Hir.
  set (sub := substAll (combine (resultsFrom (opId C) 0 (resultTypes C))
                          (resultsFrom (opId F) (0 + (M - N))
                             (skipn (M - N) (resultTypes F))))) in *.
  set (h := fun o => mapOperands sub (a o)) in *.
  assert (Hh : forall o,
             Renamed (redirect (opId C) (opId F) 0 (M - N) N) o (h o)
             /\ iteratorTypes (h o) = iteratorTypes o).
  { intros o. destruct (Hakeeps o) as (Hid & Hname & Hops & Hres & Hits).
    unfold h, mapOperands, withOperands, Renamed, operandImpls. cbn.
    rewrite Hid, Hname, Hops, Hres, Hits. repeat split.
    rewrite !map_map. apply map_ext. intros x. unfold sub.
    rewrite (@substAll_impl (opId C) (opId F)) by
      (auto; rewrite length_skipn; fold N M; lia).
    reflexivity. }
  rewrite eraseOp_map in Hir by (intros o; apply (Hh o)).
  rewrite Hsplit in Hir. rewrite insertBefore_split in Hir by exact Hidpre.
  rewrite eraseOp_app, (eraseOp_keep (opId C) pre) in Hir
    by exact Hidpre.
  assert (HeF : eraseOp (opId C) (F :: C :: post) = F :: post).
  { unfold eraseOp. cbn [filter].
    destruct (Nat.eqb_spec (opId F) (opId C)) as [E|_];
      [now destruct HneF|].
    rewrite Nat.eqb_refl. cbn [negb].
    fold (eraseOp (opId C) post). rewrite eraseOp_keep; [reflexivity|].
    exact Hidpost. }
  rewrite HeF, map_app in Hir. cbn [map] in Hir.
  exists pre, post, C, P, F, (operandNumber e), j, (M - N), h.
  split; [exact Hsplit|]. split; [reflexivity|].
  split; [exact HgC|]. split; [exact HgP|]. split; [exact HinP|].
  split.
  { unfold operandImpls. rewrite HidP, <- Hiv. now apply map_nth_error. }
  split.
  { unfold operandImpls. cbn [operands F].
    now rewrite !map_app, firstn_map, skipn_map. }
  split; [exact Hfresh|]. split; [fold N M; lia|].
  split.
  { cbn. unfold SpecModel.isGeneric in HgC.
    apply String.eqb_eq in HgC. now rewrite HgC. }
  split; [reflexivity|]. split; [exact Hh|exact Hir].
Qed.

(** A fusion keeps the function well-formed and lowers its measure. *)
Lemma fusion_lowers :
  RewriteLowersMeasure
    (RematerializeParallelOpsPattern (linalg := SpecModel.specLinalg)).
Proof.
  intros op s s' Hwf Hrun. cbn [rewrite RematerializeParallelOpsPattern] in Hrun.
  destruct (fusion_step op s s' Hwf Hrun)
    as (pre & post & C & P & F & k & j & b & h & Hsplit & _ & HgC & HgP
        & HinP & Hnth & HF & Hfresh & Hb & _ & _ & Hh & Hir).
  rewrite Hir, Hsplit. rewrite Hsplit in Hwf, Hfresh.
  apply (fused_lowers pre post C P F k j b h); auto.
  intros o. apply (Hh o).
Qed.

(** *** The pruning rule *)

Lemma resultsFrom_In op tys :
  forall a j, j < length tys ->
    exists t, In (mkValue (OpResult op (a + j)) t) (resultsFrom op a tys).
Proof.
  induction tys as [|t tys IH]; intros a j Hj; cbn in *; [lia|].
  destruct j as [|j].
  - exists t. left. now rewrite Nat.add_0_r.
  - destruct (IH (S a) j) as (t' & Ht'); [lia|].
    exists t'. right. now replace (a + S j) with (S a + j) by lia.
Qed.

Lemma eraseUnused_success (op : OpId) (s s' : RewriterState) :
  rewrite SpecModel.eraseUnused op s = Done success s' ->
  exists o,
    getOp (ir s) op = Some o
    /\ ir s' = eraseOp op (ir s)
    /\ forall j x v, j < length (resultTypes o) ->
                     In x (ir s) -> In v (operandImpls x) ->
                     v <> OpResult op j.
Proof.
  cbn. destruct (getOp (ir s) op) as [o|] eqn:Ho; [|discriminate].
  destruct (forallb _ (resultsOf o)) eqn:Hun; [|discriminate].
  intros [= <-]. exists o. split; [reflexivity|]. split; [reflexivity|].
  intros j x v Hj Hx Hv ->.
  rewrite forallb_forall in Hun.
  destruct (resultsFrom_In (opId o) (resultTypes o) 0 j Hj) as (t & Ht).
  specialize (Hun _ Ht). cbn [impl] in Hun.
  rewrite (getOp_opId _ _ Ho) in Hun. cbn [Nat.add] in Hun.
  destruct (uses (ir s) (OpResult op j)) eqn:Hu; [|discriminate].
  unfold operandImpls in Hv. apply in_map_iff in Hv as (v0 & Hv0 & Hin).
  pose proof (proj1 (uses_nil _ _) Hu x v0 Hx Hin) as Hne.
  rewrite Hv0 in Hne. apply valueImpl_eqb_neq in Hne. now destruct Hne.
Qed.

Lemma eraseOp_split (pre post : IR) (o : Operation) :
  Forall (fun x => opId x <> opId o) pre ->
  Forall (fun x => opId x <> opId o) post ->
  eraseOp (opId o) (pre ++ o :: post) = pre ++ post.
Proof.
  intros Hpre Hpost.
  now rewrite eraseOp_app, eraseOp_cons_same, !eraseOp_keep.
Qed.

Lemma pruning_lowers : RewriteLowersMeasure SpecModel.eraseUnused.
Proof.
  intros op s s' Hwf Hrun.
  destruct (eraseUnused_success op s s' Hrun) as (o & Ho & Hir & Hun).
  pose proof (getOp_opId _ _ Ho) as Hid. subst op.
  destruct (getOp_split _ _ _ Ho) as (pre & post & Hsplit & Hidpre).
  rewrite Hsplit in Hwf, Hun.
  destruct (WellFormed_split pre post o Hwf) as (_ & _ & _ & _ & _ & Hidpost).
  rewrite Hir, Hsplit, eraseOp_split by assumption.
  apply erase_lowers; [exact Hwf|].
  intros x v Hx Hv j Hj. apply (Hun j x v Hj); [|exact Hv].
  apply in_or_app. right. now right.
Qed.

Lemma pruning_failure_keeps : RewriteFailureKeeps SpecModel.eraseUnused.
Proof.
  intros op s s'. cbn. destruct (getOp (ir s) op) as [o|].
  - destruct (forallb _ (resultsOf o)); [discriminate|]. now intros [= <-].
  - now intros [= <-].
Qed.

Lemma fusion_failure_keeps (linalg : LinalgTransforms) :
  FailedFusionKeepsIR linalg ->
  RewriteFailureKeeps (RematerializeParallelOpsPattern (linalg := linalg)).
Proof.
  intros Hk op s s' H. cbn [rewrite RematerializeParallelOpsPattern] in H.
  rewrite matchAndRewrite_eq in H.
  destruct (allScalar (ir s) op) as [[|]|]; try discriminate.
  - now injection H as <-.
  - apply fuseFirstOperand_failure in H. exact (Skipped_ir Hk H).
Qed.

(** *** The driver *)

Section Driver.

Variable patterns : list RewritePattern.
Hypothesis lowers : Forall RewriteLowersMeasure patterns.
Hypothesis keeps : Forall RewriteFailureKeeps patterns.

Lemma applyFirst_step (o : Operation) :
  forall s r s',
    WellFormed (ir s) ->
    SpecModel.applyFirst patterns o s = Done r s' ->
    (r = success ->
     WellFormed (ir s') /\ measure (ir s') < measure (ir s))
    /\ (r = failure -> ir s' = ir s).
Proof.
  induction patterns as [|p rest IH]; intros s r s' Hwf H; cbn in H.
  - injection H as <- <-. split; [discriminate|reflexivity].
  - inversion lowers as [|? ? Hl Hls]; subst.
    inversion keeps as [|? ? Hk Hks]; subst.
    destruct (String.eqb (opName o) (rootName p)); [|now apply IH].
    destruct (rewrite p (opId o) s) as [[|] s1|msg] eqn:Hp;
      [| |discriminate].
    + injection H as <- <-. split; [|discriminate].
      intros _. exact (Hl _ _ _ Hwf Hp).
    + pose proof (Hk _ _ _ Hp) as Hir.
      rewrite <- Hir. apply IH; auto. now rewrite Hir.
Qed.

Lemma sweep_flag (worklist : list OpId) :
  forall s b s',
    SpecModel.sweep patterns worklist true s = Done b s' -> b = true.
Proof.
  induction worklist as [|op rest IH]; intros s b s' H; cbn in H.
  - now injection H as <- _.
  - destruct (getOp (ir s) op) as [o|]; [|now apply IH in H].
    destruct (SpecModel.applyFirst patterns o s) as [r s1|msg];
      [|discriminate].
    now apply IH in H.
Qed.

Lemma sweep_step (worklist : list OpId) :
  forall changed s b s',
    WellFormed (ir s) ->
    SpecModel.sweep patterns worklist changed s = Done b s' ->
    WellFormed (ir s')
    /\ measure (ir s') <= measure (ir s)
    /\ (b = true -> changed = true \/ measure (ir s') < measure (ir s))
    /\ (b = false -> ir s' = ir s).
Proof.
  induction worklist as [|op rest IH]; intros changed s b s' Hwf H;
    cbn in H.
  - injection H as <- <-. repeat split; auto.
  - destruct (getOp (ir s) op) as [o|]; [|now apply IH].
    destruct (SpecModel.applyFirst patterns o s) as [r s1|msg] eqn:Ha;
      [|discriminate].
    destruct (applyFirst_step o s r s1 Hwf Ha) as [Hs Hf].
    destruct r.
    + destruct (Hs eq_refl) as [Hwf1 Hlt].
      destruct (IH _ _ _ _ Hwf1 H) as (Hwf' & Hle & _ & Hfalse).
      split; [exact Hwf'|]. split; [lia|]. split.
      * intros _. right. lia.
      * intros ->. rewrite orb_true_r in H.
        apply sweep_flag in H. discriminate.
    + pose proof (Hf eq_refl) as Hir. rewrite Hir in *.
      rewrite orb_false_r in H.
      assert (Hwf1 : WellFormed (ir s1)) by now rewrite Hir.
      destruct (IH _ _ _ _ Hwf1 H) as (Hwf' & Hle & Htrue & Hfalse).
      rewrite Hir in *. auto.
Qed.

(** Run for more sweeps than the measure of the function, the driver does
    not give up: it reaches a function on which a whole sweep applies no
    rewrite, or a rewrite stops on a failed assertion. *)
Lemma fixpoint_reached :
  forall sweeps s,
    WellFormed (ir s) -> measure (ir s) < sweeps ->
    (exists s0 s',
        fixpoint sweeps patterns s = Converged s'
        /\ WellFormed (ir s')
        /\ measure (ir s') <= measure (ir s)
        /\ ir s0 = ir s'
        /\ SpecModel.sweep patterns (map opId (ir s0)) false s0
           = Done false s')
    \/ (exists msg, fixpoint sweeps patterns s = Stopped msg).
Proof.
  induction sweeps as [|n IH]; intros s Hwf Hlt; [lia|].
  cbn [fixpoint].
  destruct (SpecModel.sweep patterns (map opId (ir s)) false s)
    as [[|] s1|msg] eqn:Hs.
  - destruct (sweep_step _ _ _ _ _ Hwf Hs) as (Hwf1 & Hle & Htrue & _).
    destruct (Htrue eq_refl) as [Hc|Hdec]; [discriminate|].
    destruct (IH s1 Hwf1) as [(s0 & s' & Hc & Hwf' & Hle' & Hfix)|Hstop];
      [lia| |right; exact Hstop].
    left. exists s0, s'. split; [exact Hc|]. split; [exact Hwf'|].
    split; [lia|exact Hfix].
  - destruct (sweep_step _ _ _ _ _ Hwf Hs) as (Hwf1 & Hle & _ & Hfalse).
    left. exists s, s1. split; [reflexivity|]. split; [exact Hwf1|].
    split; [exact Hle|]. split; [symmetry; now apply Hfalse|exact Hs].
  - right. now exists msg.
Qed.

End Driver.

(** *** No edge becomes fusable *)

Lemma specFusable_spec (i : IR) (e : OpOperand) :
  SpecModel.specFusable i e = true <->
  exists c v q j p,
    getOp i (owner e) = Some c
    /\ nth_error (operands c) (operandNumber e) = Some v
    /\ impl v = OpResult q j
    /\ getOp i q = Some p
    /\ SpecModel.isGeneric c = true /\ SpecModel.isGeneric p = true
    /\ SpecModel.allParallel p = true
    /\ length (iteratorTypes p) = length (iteratorTypes c)
    /\ opId p <> opId c.
Proof.
  unfold SpecModel.specFusable, SpecModel.getDefiningOp. split.
  - destruct (getOp i (owner e)) as [c|] eqn:Hc; [|discriminate].
    destruct (nth_error (operands c) (operandNumber e)) as [v|] eqn:Hn;
      [|discriminate].
    destruct (impl v) as [q j|] eqn:Hv; [|discriminate].
    destruct (getOp i q) as [p|] eqn:Hp; [|discriminate].
    intros H.
    apply andb_true_iff in H as [H H5].
    apply andb_true_iff in H as [H H4].
    apply andb_true_iff in H as [H H3].
    apply andb_true_iff in H as [H1 H2].
    apply Nat.eqb_eq in H4. apply negb_true_iff, Nat.eqb_neq in H5.
    exists c, v, q, j, p. repeat split; auto.
  - intros (c & v & q & j & p & -> & -> & -> & -> & H1 & H2 & H3 & H4 & H5).
    rewrite H1, H2, H3, H4, Nat.eqb_refl. cbn.
    now apply negb_true_iff, Nat.eqb_neq.
Qed.

Lemma fusableEdges_spec (i : IR) (e : OpOperand) :
  In e (fusableEdges (linalg := SpecModel.specLinalg) i)
  <-> SpecModel.specFusable i e = true.
Proof.
  unfold fusableEdges. rewrite filter_In. cbn. split; [tauto|].
  intros H. split; [|exact H].
  apply specFusable_spec in H
    as (c & v & q & j & p & Hc & Hv & _).
  unfold allOpOperands. apply in_flat_map. exists c.
  split; [now apply getOp_In in Hc|].
  apply in_map_iff. exists (operandNumber e). split.
  - rewrite (getOp_opId _ _ Hc). now destruct e.
  - apply in_seq. split; [lia|]. cbn.
    apply nth_error_Some. rewrite Hv. discriminate.
Qed.

Lemma getOp_app (l1 l2 : IR) (x : OpId) :
  getOp (l1 ++ l2) x
  = match getOp l1 x with Some o => Some o | None => getOp l2 x end.
Proof.
  unfold getOp. induction l1 as [|o l1 IH]; cbn; [reflexivity|].
  now destruct (opId o =? x).
Qed.

Lemma getOp_none (l : IR) (x : OpId) :
  Forall (fun o => opId o <> x) l -> getOp l x = None.
Proof.
  unfold getOp. induction 1 as [|o l Ho _ IH]; cbn; [reflexivity|].
  apply Nat.eqb_neq in Ho. now rewrite Ho.
Qed.

Lemma redirect_cases op f b n v q j :
  redirect op f 0 b n v = OpResult q j ->
  v = OpResult q j \/ (q = f /\ exists j0, v = OpResult op j0 /\ j0 < n).
Proof.
  destruct v as [o k|m]; [|now left]. unfold redirect.
  destruct ((o =? op) && (0 <=? k) && (k <? 0 + n)) eqn:E; [|now left].
  apply andb_true_iff in E as [E E3]. apply andb_true_iff in E as [E1 _].
  apply Nat.eqb_eq in E1. apply Nat.ltb_lt in E3. subst o.
  intros [= <- _]. right. split; [reflexivity|]. exists k. split; [auto|lia].
Qed.

Lemma pruning_no_new_edge : NoEdgeBecomesFusable SpecModel.eraseUnused.
Proof.
  intros op s s' Hwf Hrun.
  destruct (eraseUnused_success op s s' Hrun) as (o & Ho & Hir & _).
  rewrite Hir. split; [apply getOp_eraseOp_same|].
  intros e He. left. apply fusableEdges_spec. apply fusableEdges_spec in He.
  apply specFusable_spec in He
    as (c & v & q & j & p & Hc & Hv & Hq & Hp & Hrest).
  rewrite getOp_eraseOp in Hc, Hp.
  destruct (owner e =? op); [discriminate|].
  destruct (q =? op); [discriminate|].
  apply specFusable_spec. exists c, v, q, j, p. auto.
Qed.

Lemma fusion_no_new_edge :
  NoEdgeBecomesFusable
    (RematerializeParallelOpsPattern (linalg := SpecModel.specLinalg)).
Proof.
  intros op s s' Hwf Hrun.
  cbn [rewrite RematerializeParallelOpsPattern] in Hrun.
  destruct (fusion_step op s s' Hwf Hrun)
    as (pre & post & C & P & F & k & j & b & h & Hsplit & HidC & HgC & HgP
        & HinP & Hnth & HF & Hfresh & Hb & HnameF & HitsF & Hh & Hir).
  subst op.
  pose proof Hwf as Hwf0. rewrite Hsplit in Hwf.
  destruct (WellFormed_split pre post C Hwf)
    as (_ & _ & _ & _ & Hidpre & Hidpost).
  assert (HneF : opId F <> opId C).
  { intros E. apply (Hfresh C); [rewrite Hsplit; apply in_elt|now symmetry]. }
  assert (HfreshPre : Forall (fun o => opId o <> opId F) pre).
  { apply Forall_forall. intros o Ho. apply Hfresh. rewrite Hsplit.
    apply in_or_app. now left. }
  assert (Hget' : forall x,
             getOp (ir s') x
             = option_map h (getOp (pre ++ F :: post) x)).
  { intros x. rewrite Hir.
    change (map h pre ++ h F :: map h post)
      with (map h pre ++ map h (F :: post)).
    rewrite <- map_app. apply getOp_map. intros o. apply (Hh o). }
  assert (HgetX : forall x,
             getOp (pre ++ F :: post) x
             = if x =? opId F then Some F
               else if x =? opId C then None else getOp (ir s) x).
  { intros x. rewrite Hsplit, !getOp_app.
    destruct (Nat.eqb_spec x (opId F)) as [->|HxF].
    - rewrite (getOp_none pre (opId F) HfreshPre).
      unfold getOp. cbn. now rewrite Nat.eqb_refl.
    - destruct (getOp pre x) as [o|] eqn:Hpx.
      + destruct (Nat.eqb_spec x (opId C)) as [->|_]; [|reflexivity].
        rewrite (getOp_none pre (opId C) Hidpre) in Hpx. discriminate.
      + destruct (Nat.eqb_spec x (opId C)) as [->|HxC].
        * unfold getOp. cbn [find].
          destruct (Nat.eqb_spec (opId F) (opId C)) as [E|_];
            [now destruct HneF|].
          apply (getOp_none post (opId C) Hidpost).
        * unfold getOp. cbn [find].
          destruct (Nat.eqb_spec (opId F) x) as [E|_];
            [now destruct HxF|].
          destruct (Nat.eqb_spec (opId C) x) as [E|_];
            [now destruct HxC|reflexivity]. }
  split.
  { rewrite Hget', HgetX.
    destruct (Nat.eqb_spec (opId C) (opId F)) as [E|_];
      [now destruct HneF|].
    now rewrite Nat.eqb_refl. }
  intros e He. apply fusableEdges_spec in He.
  apply specFusable_spec in He
    as (c' & v' & q' & j' & p' & Hc' & Hv' & Hq' & Hp'
        & Hgc & Hgp & Hpar & Hlen & Hne).
  rewrite Hget', HgetX in Hc', Hp'.
  destruct (Nat.eqb_spec (owner e) (opId F)) as [HoF|HoF].
  { right. rewrite HoF.
    destruct (getOp (ir s) (opId F)) as [o|] eqn:Ho; [|reflexivity].
    exfalso. apply (Hfresh o); [now apply getOp_In in Ho|].
    now apply getOp_opId in Ho. }
  left. apply fusableEdges_spec.
  destruct (Nat.eqb_spec (owner e) (opId C)) as [HoC|HoC]; [discriminate|].
  destruct (getOp (ir s) (owner e)) as [c0|] eqn:Hc0; [|discriminate].
  cbn in Hc'. injection Hc' as <-.
  destruct (Hh c0) as ((Hid0 & Hname0 & _ & Hops0) & Hits0).
  pose proof (getOp_opId _ _ Hc0) as Hidc0.
  (* the operand as it was before the rewrite *)
  assert (Hw : nth_error (operandImpls (h c0)) (operandNumber e)
               = Some (OpResult q' j')).
  { unfold operandImpls. rewrite <- Hq'. now apply map_nth_error. }
  rewrite Hops0, nth_error_map in Hw.
  destruct (nth_error (operandImpls c0) (operandNumber e)) as [w0|] eqn:Hw0;
    [|discriminate].
  cbn in Hw. injection Hw as Hw.
  unfold operandImpls in Hw0. rewrite nth_error_map in Hw0.
  destruct (nth_error (operands c0) (operandNumber e)) as [v0|] eqn:Hv0;
    [|discriminate].
  cbn in Hw0. injection Hw0 as Hw0.
  assert (HdefW : definedIn (extend [] (ir s)) w0).
  { destruct (extend_knows (ir s) [] c0 Hwf0) as [_ Hd];
      [now apply getOp_In in Hc0|].
    rewrite Forall_forall in Hd. apply Hd. rewrite <- Hw0.
    unfold operandImpls. apply in_map. eapply nth_error_In; eassumption. }
  assert (Hknown : forall x y, w0 = OpResult x y -> x <> opId F).
  { intros x y -> ->. destruct HdefW as (n & w & Hn & _).
    destruct (lookup_extend_inv (ir s) [] (opId F)) as [H|(o & Ho & Eo)];
      [rewrite Hn; discriminate|now destruct H|].
    now apply (Hfresh o). }
  apply specFusable_spec.
  destruct (redirect_cases _ _ _ _ _ _ _ Hw)
    as [Hsame|(-> & j0 & Hhit & Hj0)].
  - (* the operand is read as before *)
    assert (HqF : q' <> opId F) by (eapply Hknown; eassumption).
    destruct (Nat.eqb_spec q' (opId F)) as [E|_]; [now destruct HqF|].
    destruct (q' =? opId C); [discriminate|].
    destruct (getOp (ir s) q') as [p0|] eqn:Hp0; [|discriminate].
    cbn in Hp'. injection Hp' as <-.
    destruct (Hh p0) as ((Hidp & Hnamep & _ & _) & Hitsp).
    exists c0, v0, q', j', p0.
    rewrite (isGeneric_opName _ _ Hname0) in Hgc.
    rewrite (isGeneric_opName _ _ Hnamep) in Hgp.
    unfold SpecModel.allParallel in *.
    rewrite Hitsp in Hpar, Hlen. rewrite Hits0 in Hlen.
    rewrite Hidp, Hid0 in Hne.
    repeat split; auto. congruence.
  - (* the operand read a result of the consumer *)
    rewrite Nat.eqb_refl in Hp'. cbn in Hp'. injection Hp' as <-.
    destruct (Hh F) as ((HidF & HnameF' & _ & _) & HitsF').
    assert (HgetC : getOp (ir s) (opId C) = Some C).
    { rewrite Hsplit, getOp_app, (getOp_none pre (opId C) Hidpre).
      unfold getOp. cbn. now rewrite Nat.eqb_refl. }
    exists c0, v0, (opId C), j0, C.
    rewrite (isGeneric_opName _ _ Hname0) in Hgc.
    unfold SpecModel.allParallel in *.
    rewrite HitsF', HitsF in Hpar, Hlen. rewrite Hits0 in Hlen.
    repeat split; auto; congruence.
Qed.

Lemma specPatterns_lower : Forall RewriteLowersMeasure specPatterns.
Proof.
  apply Forall_cons; [exact fusion_lowers|].
  apply Forall_cons; [exact pruning_lowers|apply Forall_nil].
Qed.

Lemma specPatterns_keep : Forall RewriteFailureKeeps specPatterns.
Proof.
  apply Forall_cons;
    [exact (fusion_failure_keeps _ SpecModelFacts.specLinalg_failure_keeps)|].
  apply Forall_cons; [exact pruning_failure_keeps|apply Forall_nil].
Qed.

Lemma specPatterns_no_new_edge : Forall NoEdgeBecomesFusable specPatterns.
Proof.
  apply Forall_cons; [exact fusion_no_new_edge|].
  apply Forall_cons; [exact pruning_no_new_edge|apply Forall_nil].
Qed.

(** The bounded driver of the model reports success exactly when the
    iteration converges within the bound. *)
Lemma iterate_fixpoint (patterns : list RewritePattern) :
  forall n s s',
    SpecModel.iterate n patterns s = (success, s')
    <-> fixpoint n patterns s = Converged s'.
Proof.
  induction n as [|n IH]; intros s s'; cbn.
  - split; discriminate.
  - destruct (SpecModel.sweep patterns (map opId (ir s)) false s)
      as [[|] s1|msg].
    + apply IH.
    + split; intros [= <-]; reflexivity.
    + split; discriminate.
Qed.

End TerminationFacts.

(* ================================================================= *)
(** ** The rule set comes to rest *)

Import Termination.








